(** * ssh2web: a shallow embedding of the SSH-2 wire protocol engine

    The development follows the layers of the TypeScript sources:
    protocol/serialization.ts, protocol/deserialization.ts and
    protocol/codec.ts (byte level), kex/kexstate.ts (negotiation),
    crypto/cipher.ts and crypto/mac.ts (primitive adapters),
    transport/transportcipher.ts (stateful cipher) and
    connection/connectSSH.ts (orchestrator).

    A [Uint8Array] is a list of bytes; JavaScript numbers and bigints that
    hold lengths, offsets and sequence numbers are integers in [Z].  The Web
    Crypto primitives (AES block function, HMAC-SHA-256, SHA-256, X25519,
    Ed25519) and the platform services (random bytes, text codecs) are
    section variables: every theorem holds for whatever they compute. *)

From Stdlib Require Import String Ascii.
From Stdlib Require Import ZArith List Lia Bool DecimalString.
From coqutil Require Import Byte.
Import ListNotations.
Local Open Scope Z_scope.

(** ** Typed arrays *)

Definition Uint8Array := list byte.

Definition len (a : Uint8Array) : Z := Z.of_nat (length a).

(** Reading [a[i]]: [None] stands for JavaScript's [undefined]. *)
Definition at_ (a : Uint8Array) (i : nat) : option Z :=
  option_map byte.unsigned (nth_error a i).

(** Relative index resolution shared by [slice] and [subarray]:
    a negative index counts from the end, and the result is clamped. *)
Definition relIndex (n k : Z) : Z :=
  if k <? 0 then Z.max (n + k) 0 else Z.min k n.

Definition slice (a : Uint8Array) (start stop : Z) : Uint8Array :=
  let s := relIndex (len a) start in
  let e := relIndex (len a) stop in
  firstn (Z.to_nat (e - s)) (skipn (Z.to_nat s) a).

(** [subarray] selects the same elements as [slice]; it is a view where
    [slice] copies, which no modelled code path observes. *)
Definition subarray (a : Uint8Array) (start stop : Z) : Uint8Array :=
  slice a start stop.

(** [a.subarray(start)] *)
Definition subarrayFrom (a : Uint8Array) (start : Z) : Uint8Array :=
  subarray a start (len a).

(** [new DataView(a.buffer, a.byteOffset + off, 4).getUint32(0, false)].
    Every caller but one checks that four bytes are present; a missing byte
    reads as zero here, and the unchecked caller tests the length itself. *)
Definition getUint32 (a : Uint8Array) (off : nat) : Z :=
  let b i := byte.unsigned (nth (off + i) a Byte.x00) in
  b 0%nat * 2 ^ 24 + b 1%nat * 2 ^ 16 + b 2%nat * 2 ^ 8 + b 3%nat.

(** [crypto.getRandomValues] on an [n]-byte array, drawing from an entropy
    source. *)
Definition getRandomValues (rnd : nat -> byte) (n : nat) : Uint8Array :=
  map rnd (seq 0 n).

(** The bytes of an ASCII string literal. *)
Definition bytesOf (s : string) : Uint8Array := list_byte_of_string s.

(** ** Constants *)

(** Modelled from the spec: domain/constants.ts is not part of the sources;
    the values are those of the spec's list of observable constants. *)
Definition MIN_PADDING : Z := 4.
Definition AES_BLOCK_SIZE : Z := 16.
Definition HMAC_SHA256_SIZE : Z := 32.
Definition MAX_PACKET_SIZE : Z := 35000.
Definition DEFAULT_WINDOW_SIZE : Z := 32768.

(** ** protocol/serialization.ts *)

(** [DataView.setUint32(0, n, false)] on a fresh 4-byte array: the value is
    taken modulo 2^32 and stored big-endian. *)
Definition writeUint32 (n : Z) : Uint8Array :=
  let m := n mod 2 ^ 32 in
  [byte.of_Z (m / 2 ^ 24); byte.of_Z (m / 2 ^ 16); byte.of_Z (m / 2 ^ 8);
   byte.of_Z m].

Definition writeBytes (b : Uint8Array) : Uint8Array :=
  writeUint32 (len b) ++ b.

Definition concat (arr : list Uint8Array) : Uint8Array :=
  List.concat arr.

(** [n.toString(16)] for a positive bigint, as the list of its hexadecimal
    digits, most significant first.  [fuel] bounds the number of digits. *)
Fixpoint toString16 (fuel : nat) (n : Z) : list Z :=
  match fuel with
  | O => []
  | S f => if n <=? 0 then [] else toString16 f (n / 16) ++ [n mod 16]
  end.

(** [parseInt(hex.slice(2*i, 2*i+2), 16)] over the whole even-length string. *)
Fixpoint parseHexPairs (hex : list Z) : Uint8Array :=
  match hex with
  | hi :: lo :: rest => byte.of_Z (16 * hi + lo) :: parseHexPairs rest
  | _ => []
  end.

Definition bigintToBytes (n : Z) : Uint8Array :=
  if n =? 0 then [Byte.x00]
  else
    let hex := toString16 (S (Z.to_nat (Z.log2 n))) n in
    let hex := if Nat.odd (length hex) then 0 :: hex else hex in
    parseHexPairs hex.

(** [bytes[0] & 0x80] as a truth value; [undefined & 0x80] is [0]. *)
Definition msbSet (b : Uint8Array) : bool :=
  match at_ b 0 with
  | Some v => negb (Z.land v 128 =? 0)
  | None => false
  end.

Definition writeBigintMpint (n : Z) : Uint8Array :=
  if n =? 0 then writeBytes []
  else
    let neg := n <? 0 in
    let n := if neg then - n else n in
    let bytes := bigintToBytes n in
    let bytes := if msbSet bytes then Byte.x00 :: bytes else bytes in
    writeBytes bytes.

Definition writeByteMpint (k : Uint8Array) : Uint8Array :=
  let kk := if (0 <? len k) && msbSet k then Byte.x00 :: k else k in
  writeBytes kk.

(** ** protocol/codec.ts *)

Record ParsedPacket := mkParsedPacket {
  payload : Uint8Array;
  consumed : Z
}.

Definition calculatePadding (payloadLen : Z) (etm : bool) : Z :=
  if etm then
    let innerLen := 1 + payloadLen in
    MIN_PADDING
    + (AES_BLOCK_SIZE - ((innerLen + MIN_PADDING) mod AES_BLOCK_SIZE))
      mod AES_BLOCK_SIZE
  else
    MIN_PADDING
    + (AES_BLOCK_SIZE - ((5 + payloadLen + MIN_PADDING) mod AES_BLOCK_SIZE))
      mod AES_BLOCK_SIZE.

(** The array [out] after its four writes: length field, padding length,
    payload, random padding. *)
Definition buildPacket (rnd : nat -> byte) (payload : Uint8Array) (etm : bool)
  : Uint8Array :=
  let padLen := calculatePadding (len payload) etm in
  let plen := 1 + len payload + padLen in
  writeUint32 plen ++ [byte.of_Z padLen] ++ payload
    ++ getRandomValues rnd (Z.to_nat padLen).

Definition parsePacket (data : Uint8Array) : option ParsedPacket :=
  if len data <? 5 then None
  else
    let plen := getUint32 data 0 in
    let total := 4 + plen in
    if len data <? total then None
    else
      let padLen := byte.unsigned (nth 4 data Byte.x00) in
      let payloadLen := plen - 1 - padLen in
      Some (mkParsedPacket (slice data 5 (5 + payloadLen)) total).

(** ** protocol/deserialization.ts (binary readers) *)

Record BytesValue := mkBytesValue {
  bytesValue : Uint8Array;
  bytesConsumed : Z
}.

Record BigintValue := mkBigintValue {
  bigintValue : Z;
  bigintConsumed : Z
}.

Definition readBytes (data : Uint8Array) (offset : Z) : option BytesValue :=
  if len data <? offset + 4 then None
  else
    let l := getUint32 data (Z.to_nat offset) in
    if len data <? offset + 4 + l then None
    else Some (mkBytesValue (slice data (offset + 4) (offset + 4 + l)) (4 + l)).

Definition readMpint (data : Uint8Array) (offset : Z) : option BigintValue :=
  match readBytes data offset with
  | None => None
  | Some rb =>
      let b := bytesValue rb in
      let n := fold_left (fun n x => Z.lor (Z.shiftl n 8) (byte.unsigned x)) b 0 in
      let n := if (0 <? len b) && msbSet b
               then n - Z.shiftl 1 (len b * 8) else n in
      Some (mkBigintValue n (bytesConsumed rb))
  end.

(** ** crypto/arithmetic.ts *)

(** The square-and-multiply loop of [modPow], by recursion on the binary
    digits of a positive exponent: [exp % 2n === 1n] is the low bit and
    [exp / 2n] drops it.  BigInt [%] truncates, hence [Z.rem]. *)
Fixpoint modPowLoop (exp : positive) (result base modulus : Z) : Z :=
  match exp with
  | xH => Z.rem (result * base) modulus
  | xO e => modPowLoop e result (Z.rem (base * base) modulus) modulus
  | xI e =>
      modPowLoop e (Z.rem (result * base) modulus)
        (Z.rem (base * base) modulus) modulus
  end.

Definition modPow (base exp modulus : Z) : Z :=
  let base := Z.rem base modulus in
  match exp with
  | Zpos e => modPowLoop e 1 base modulus
  | _ => 1
  end.

(** [bytesToBigint]: the bytes read as a big-endian two's-complement
    number.  ([bigintToBytes] of crypto/arithmetic.ts has the same body as
    the private function of protocol/serialization.ts above.) *)
Definition bytesToBigint (b : Uint8Array) : Z :=
  let n := fold_left (fun n x => Z.lor (Z.shiftl n 8) (byte.unsigned x)) b 0 in
  if (0 <? len b) && msbSet b then n - Z.shiftl 1 (len b * 8) else n.

(** ** crypto/mac.ts *)

Definition constantTimeEqual (a b : Uint8Array) : bool :=
  if negb (length a =? length b)%nat then false
  else
    let diff :=
      fold_left
        (fun diff xy => Z.lor diff (Z.lxor (byte.unsigned (fst xy)) (byte.unsigned (snd xy))))
        (combine a b) 0 in
    diff =? 0.

(** ** crypto/cipher.ts *)

(** A [CryptoKey] handle is identified with the raw key it was imported
    from. *)
Definition CryptoKey := Uint8Array.

(** The carry loop of [incrementCounter], for [i] from [n-1] down to [0].
    Past the end of a short array the sum is [NaN]: nothing is stored and
    the carry becomes [0]. *)
Fixpoint incrementCounterLoop (n : nat) (result : Uint8Array) (carry : Z)
  : Uint8Array :=
  match n with
  | O => result
  | S i =>
      if 0 <? carry then
        match nth_error result i with
        | Some b =>
            let sum := byte.unsigned b + carry in
            incrementCounterLoop i
              (firstn i result ++ byte.of_Z (Z.land sum 255) :: skipn (S i) result)
              (Z.shiftr sum 8)
        | None => result
        end
      else result
  end.

Definition incrementCounter (iv : Uint8Array) (count : Z) : Uint8Array :=
  incrementCounterLoop 16 iv count.

(** ** kex/kexstate.ts *)

Inductive KexPhase := kex_init | kex_negotiating | kex_exchanging | kex_complete.

Record AlgorithmNegotiation := mkAlgorithmNegotiation {
  neg_kex : string;
  neg_cipher : string;
  neg_mac : string
}.

Record KexState := mkKexState {
  kex_phase : KexPhase;
  kex_serverKexList : list string;
  kex_serverHostKeyTypes : list string;
  kex_negotiated : option AlgorithmNegotiation;
  kex_kexInitC : option Uint8Array;
  kex_kexInitS : option Uint8Array
}.

Definition createKexState : KexState :=
  mkKexState kex_init [] [] None None None.

(** [serverList.includes(a)] *)
Definition includes (l : list string) (a : string) : bool :=
  existsb (String.eqb a) l.

(** [ourList.find(...) ?? null]: [None] is [null]. *)
Definition selectAlgorithm (ourList serverList : list string) : option string :=
  find (fun a => includes serverList a) ourList.

(** [!x] for [x : string | null]: [null] and the empty string are falsy. *)
Definition falsy (x : option string) : bool :=
  match x with
  | None => true
  | Some s => String.eqb s ""
  end.

Definition negotiateAlgorithms
  (preferredKex preferredCipher preferredMac serverKex serverCipher serverMac : list string)
  : option AlgorithmNegotiation :=
  let kex := selectAlgorithm preferredKex serverKex in
  let cipher := selectAlgorithm preferredCipher serverCipher in
  let mac := selectAlgorithm preferredMac serverMac in
  if falsy kex || falsy cipher || falsy mac then None
  else
    match kex, cipher, mac with
    | Some k, Some c, Some m => Some (mkAlgorithmNegotiation k c m)
    | _, _, _ => None
    end.

Definition isValidKex (kex : string) : bool :=
  String.eqb kex "curve25519-sha256"
  || String.eqb kex "curve25519-sha256@libssh.org"
  || String.eqb kex "diffie-hellman-group14-sha256".

Definition transitionKexPhase (current : KexPhase) : KexPhase :=
  match current with
  | kex_init => kex_negotiating
  | kex_negotiating => kex_exchanging
  | kex_exchanging => kex_complete
  | kex_complete => kex_complete
  end.

(** ** auth/authstate.ts *)

Inductive AuthPhase :=
  auth_init | auth_service_requested | auth_awaiting_pk_ok | auth_signed
| auth_complete | auth_failed.

Record AuthState := mkAuthState {
  auth_phase : AuthPhase;
  auth_receivedPKOk : bool;
  auth_error : option string
}.

Definition createAuthState : AuthState := mkAuthState auth_init false None.

Definition transitionAuthPhase (current : AuthPhase) : AuthPhase :=
  match current with
  | auth_init => auth_service_requested
  | auth_service_requested => auth_awaiting_pk_ok
  | auth_awaiting_pk_ok => auth_signed
  | auth_signed => auth_complete
  | auth_complete => auth_complete
  | auth_failed => auth_failed
  end.

Definition setAuthFailed (state : AuthState) (error : string) : AuthState :=
  mkAuthState auth_failed (auth_receivedPKOk state) (Some error).

(** ** channel/channelstate.ts *)

Inductive ChannelPhase :=
  ch_init | ch_opening | ch_open | ch_pty_requested | ch_shell_requested
| ch_active | ch_closed.

Record ChannelState := mkChannelState {
  ch_phase : ChannelPhase;
  clientChannelId : Z;
  serverChannelId : Z;
  windowSizeLocal : Z;
  windowSizeRemote : Z;
  ptySent : bool;
  ch_shellSent : bool
}.

Definition createChannelState (defaultWindowSize : Z) : ChannelState :=
  mkChannelState ch_init 0 0 defaultWindowSize defaultWindowSize false false.

Definition transitionChannelPhase (current : ChannelPhase) : ChannelPhase :=
  match current with
  | ch_init => ch_opening
  | ch_opening => ch_open
  | ch_open => ch_pty_requested
  | ch_pty_requested => ch_shell_requested
  | ch_shell_requested => ch_active
  | ch_active => ch_active
  | ch_closed => ch_closed
  end.

Definition adjustWindowSize (state : ChannelState) (consumed : Z) : ChannelState :=
  mkChannelState (ch_phase state) (clientChannelId state) (serverChannelId state)
    (windowSizeLocal state - consumed) (windowSizeRemote state)
    (ptySent state) (ch_shellSent state).

(** ** transport/transportcipher.ts (state) *)

Record TransportCipher := mkTransportCipher {
  ivEnc : Uint8Array;
  ivDec : Uint8Array;
  keyEnc : CryptoKey;
  keyDec : CryptoKey;
  seqOut : Z;
  seqIn : Z;
  macEtm : bool;
  macC : Uint8Array;
  macS : Uint8Array
}.

(** [createTransportCipher]: the two [importKey] calls turn the raw keys
    into handles, the constructor copies the IVs and stores the rest. *)
Definition createTransportCipher
  (ivC keyC macC ivS keyS macS : Uint8Array) (initialSeqOut initialSeqIn : Z)
  (macEtm : bool) : TransportCipher :=
  let keyEncCrypto : CryptoKey := keyC in
  let keyDecCrypto : CryptoKey := keyS in
  mkTransportCipher ivC ivS keyEncCrypto keyDecCrypto initialSeqOut initialSeqIn
    macEtm macC macS.

(** ** connection/connectionstate.ts *)

Inductive ConnectionPhase :=
  ident_exchange | phase_kex | phase_auth | channel_open | active | closed | error.

Record ConnectionState := mkConnectionState {
  phase : ConnectionPhase;
  serverIdent : string;
  cs_sessionId : option Uint8Array;
  cs_kex : KexState;
  cs_auth : AuthState;
  cs_channel : ChannelState;
  cipher : option TransportCipher;
  cs_fatalError : option string
}.

Definition createConnectionState (defaultWindowSize : Z) : ConnectionState :=
  mkConnectionState ident_exchange "" None
    (mkKexState kex_init [] [] None None None)
    (mkAuthState auth_init false None)
    (mkChannelState ch_init 0 0 defaultWindowSize defaultWindowSize false false)
    None None.

Definition setFatalError (state : ConnectionState) (err : string) : ConnectionState :=
  mkConnectionState error (serverIdent state) (cs_sessionId state) (cs_kex state)
    (cs_auth state) (cs_channel state) (cipher state) (Some err).

Definition transitionConnectionPhase (current : ConnectionPhase) : ConnectionPhase :=
  match current with
  | ident_exchange => phase_kex
  | phase_kex => phase_auth
  | phase_auth => channel_open
  | channel_open => active
  | active => active
  | closed => closed
  | error => error
  end.

(** ** Strings *)

(** [String(n)] for an integer-valued number. *)
Definition showZ (n : Z) : string :=
  DecimalString.NilZero.string_of_int (Z.to_int n).

(** ** domain/errors.ts: the two error classes the transport cipher throws *)

Inductive SSHError :=
| MacVerificationError (message : string)
| ProtocolError (message : string).

Definition errorMessage (e : SSHError) : string :=
  match e with
  | MacVerificationError m => m
  | ProtocolError m => m
  end.

Definition isMacVerificationError (e : SSHError) : bool :=
  match e with
  | MacVerificationError _ => true
  | ProtocolError _ => false
  end.

(** [decrypt] resolves to [null] ([NeedMore]), resolves to a result, or
    rejects with an error. *)
Definition DecryptResult := ParsedPacket.

Inductive DecryptOutcome :=
| NeedMore
| Decrypted (r : DecryptResult)
| Throws (e : SSHError).

(** ** String operations of the orchestrator *)

(** [s.split(sep)] for a one-character separator; [cur] is the piece being
    read. *)
Fixpoint splitLoop (sep : ascii) (s cur : string) : list string :=
  match s with
  | EmptyString => [cur]
  | String ch rest =>
      if Ascii.eqb ch sep then cur :: splitLoop sep rest ""
      else splitLoop sep rest (cur ++ String ch "")
  end.

Definition split (sep : ascii) (s : string) : list string := splitLoop sep s "".

(** White space removed by [trim], among the code units below 256. *)
Definition isWhiteSpace (ch : ascii) : bool :=
  let n := nat_of_ascii ch in
  ((9 <=? n) && (n <=? 13) || (n =? 32) || (n =? 160))%nat.

Fixpoint trimStart (s : string) : string :=
  match s with
  | String ch rest => if isWhiteSpace ch then trimStart rest else s
  | EmptyString => s
  end.

Definition reverse (s : string) : string :=
  string_of_list_ascii (rev (list_ascii_of_string s)).

Definition trim (s : string) : string :=
  reverse (trimStart (reverse (trimStart s))).

(** [s.split(",").map((s) => s.trim()).filter(Boolean)] *)
Definition splitList (s : string) : list string :=
  filter (fun x => negb (String.eqb x "")) (map trim (split "," s)).

(** [l.join(",")] *)
Definition join (l : list string) : string := String.concat "," l.

(** [s.replace(/\r?\n$/, "")] *)
Definition stripLineEnd (s : string) : string :=
  match list_ascii_of_string (reverse s) with
  | lf :: cr :: rest =>
      if Ascii.eqb lf "010" then
        if Ascii.eqb cr "013" then reverse (string_of_list_ascii rest)
        else reverse (string_of_list_ascii (cr :: rest))
      else s
  | [lf] => if Ascii.eqb lf "010" then "" else s
  | [] => s
  end.

(** ** Message numbers *)

(** Modelled from the spec: domain/constants.ts is not part of the sources;
    the numbers are those of the spec's dispatch table and of the name table
    in protocol/messages.ts. *)
Definition SSH_MSG_DISCONNECT : Z := 1.
Definition SSH_MSG_IGNORE : Z := 2.
Definition SSH_MSG_UNIMPLEMENTED : Z := 3.
Definition SSH_MSG_DEBUG : Z := 4.
Definition SSH_MSG_SERVICE_REQUEST : Z := 5.
Definition SSH_MSG_SERVICE_ACCEPT : Z := 6.
Definition SSH_MSG_EXT_INFO : Z := 7.
Definition SSH_MSG_KEXINIT : Z := 20.
Definition SSH_MSG_NEWKEYS : Z := 21.
Definition SSH_MSG_KEXDH_INIT : Z := 30.
Definition SSH_MSG_KEX_ECDH_INIT : Z := 30.
Definition SSH_MSG_KEXDH_REPLY : Z := 31.
Definition SSH_MSG_KEX_ECDH_REPLY : Z := 31.
Definition SSH_MSG_USERAUTH_REQUEST : Z := 50.
Definition SSH_MSG_USERAUTH_FAILURE : Z := 51.
Definition SSH_MSG_USERAUTH_SUCCESS : Z := 52.
Definition SSH_MSG_USERAUTH_PK_OK : Z := 60.
Definition SSH_MSG_GLOBAL_REQUEST : Z := 80.
Definition SSH_MSG_REQUEST_SUCCESS : Z := 81.
Definition SSH_MSG_REQUEST_FAILURE : Z := 82.
Definition SSH_MSG_CHANNEL_OPEN : Z := 90.
Definition SSH_MSG_CHANNEL_OPEN_CONFIRMATION : Z := 91.
Definition SSH_MSG_CHANNEL_WINDOW_ADJUST : Z := 93.
Definition SSH_MSG_CHANNEL_DATA : Z := 94.
Definition SSH_MSG_CHANNEL_EXTENDED_DATA : Z := 95.
Definition SSH_MSG_CHANNEL_REQUEST : Z := 98.
Definition SSH_MSG_CHANNEL_SUCCESS : Z := 99.
Definition SSH_MSG_CHANNEL_FAILURE : Z := 100.

(** Modelled from the spec: the preference lists and terminal defaults of
    domain/constants.ts, as the spec's KEXINIT and channel sections give
    them. *)
Definition PREFERRED_KEX : string :=
  "curve25519-sha256,curve25519-sha256@libssh.org,diffie-hellman-group14-sha256".
Definition PREFERRED_CIPHER : string := "aes128-ctr".
Definition PREFERRED_MAC : string := "hmac-sha2-256-etm@openssh.com,hmac-sha2-256".
Definition DEFAULT_TERMINAL_COLS : Z := 80.
Definition DEFAULT_TERMINAL_ROWS : Z := 24.
Definition DEFAULT_TERMINAL_TYPE : string := "xterm-256color".
Definition KEX_TIMEOUT_MS : Z := 8000.

(** ** connection/connectSSH.ts (state) *)

(** What the orchestrator does to the outside world, in order. *)
Inductive Event :=
| WsSend (data : Uint8Array)
| OnError (err : string)
| OnPtyDenied
| DataCallback (s : string)
| SetTimeout (ms : Z)
| ClearTimeout.

(** The constructor arguments, which are never reassigned.  [onError] and
    [onPtyDenied] record whether the caller supplied the callback. *)
Record Config := mkConfig {
  username : string;
  privKey : CryptoKey;
  certKeyType : string;
  certBlob : Uint8Array;
  termCols : Z;
  termRows : Z;
  onError : bool;
  options_cols : option Z;
  options_rows : option Z;
  onPtyDenied : bool
}.

(** The private fields of [SSHConnectionOrchestrator].  [kexTimeoutId] tells
    whether a timer id is held.  Three fields stand for the environment:
    [wsOpen] is [ws.readyState === WebSocket.OPEN], [draws] counts the random
    draws made so far and [trace] lists the effects performed.  The promise
    chain [sendPending] has no field: the model runs every handler to
    completion before the next one starts. *)
Record SSHConnectionOrchestrator := mkOrchestrator {
  config : Config;
  connState : ConnectionState;
  dataCallback : bool;
  dataBuffer : Uint8Array;
  encryptedBuf : Uint8Array;
  identBuf : Uint8Array;
  draining : bool;
  useEncrypted : bool;
  kexTimeoutId : bool;
  fatalError : bool;
  channelId : Z;
  peerChannelId : Uint8Array;
  shellSent : bool;
  flushCount : Z;
  kexInitC : option Uint8Array;
  kexInitS : option Uint8Array;
  serverKexList : list string;
  negotiatedMac : option string;
  ephemeralPriv : option CryptoKey;
  qc : option Uint8Array;
  dhX : option Z;
  dhE : option Z;
  sessionId : option Uint8Array;
  receivedPKOk : bool;
  wsOpen : bool;
  draws : nat;
  trace : list Event
}.

Definition set_connState (v : ConnectionState) (o : SSHConnectionOrchestrator)
  : SSHConnectionOrchestrator :=
  mkOrchestrator (config o) v (dataCallback o) (dataBuffer o) (encryptedBuf o)
    (identBuf o) (draining o) (useEncrypted o) (kexTimeoutId o) (fatalError o)
    (channelId o) (peerChannelId o) (shellSent o) (flushCount o) (kexInitC o)
    (kexInitS o) (serverKexList o) (negotiatedMac o) (ephemeralPriv o) (qc o)
    (dhX o) (dhE o) (sessionId o) (receivedPKOk o) (wsOpen o) (draws o)
    (trace o).

Definition set_dataCallback (v : bool) (o : SSHConnectionOrchestrator)
  : SSHConnectionOrchestrator :=
  mkOrchestrator (config o) (connState o) v (dataBuffer o) (encryptedBuf o)
    (identBuf o) (draining o) (useEncrypted o) (kexTimeoutId o) (fatalError o)
    (channelId o) (peerChannelId o) (shellSent o) (flushCount o) (kexInitC o)
    (kexInitS o) (serverKexList o) (negotiatedMac o) (ephemeralPriv o) (qc o)
    (dhX o) (dhE o) (sessionId o) (receivedPKOk o) (wsOpen o) (draws o)
    (trace o).

Definition set_dataBuffer (v : Uint8Array) (o : SSHConnectionOrchestrator)
  : SSHConnectionOrchestrator :=
  mkOrchestrator (config o) (connState o) (dataCallback o) v (encryptedBuf o)
    (identBuf o) (draining o) (useEncrypted o) (kexTimeoutId o) (fatalError o)
    (channelId o) (peerChannelId o) (shellSent o) (flushCount o) (kexInitC o)
    (kexInitS o) (serverKexList o) (negotiatedMac o) (ephemeralPriv o) (qc o)
    (dhX o) (dhE o) (sessionId o) (receivedPKOk o) (wsOpen o) (draws o)
    (trace o).

Definition set_encryptedBuf (v : Uint8Array) (o : SSHConnectionOrchestrator)
  : SSHConnectionOrchestrator :=
  mkOrchestrator (config o) (connState o) (dataCallback o) (dataBuffer o) v
    (identBuf o) (draining o) (useEncrypted o) (kexTimeoutId o) (fatalError o)
    (channelId o) (peerChannelId o) (shellSent o) (flushCount o) (kexInitC o)
    (kexInitS o) (serverKexList o) (negotiatedMac o) (ephemeralPriv o) (qc o)
    (dhX o) (dhE o) (sessionId o) (receivedPKOk o) (wsOpen o) (draws o)
    (trace o).

Definition set_identBuf (v : Uint8Array) (o : SSHConnectionOrchestrator)
  : SSHConnectionOrchestrator :=
  mkOrchestrator (config o) (connState o) (dataCallback o) (dataBuffer o)
    (encryptedBuf o) v (draining o) (useEncrypted o) (kexTimeoutId o)
    (fatalError o) (channelId o) (peerChannelId o) (shellSent o) (flushCount o)
    (kexInitC o) (kexInitS o) (serverKexList o) (negotiatedMac o)
    (ephemeralPriv o) (qc o) (dhX o) (dhE o) (sessionId o) (receivedPKOk o)
    (wsOpen o) (draws o) (trace o).

Definition set_draining (v : bool) (o : SSHConnectionOrchestrator)
  : SSHConnectionOrchestrator :=
  mkOrchestrator (config o) (connState o) (dataCallback o) (dataBuffer o)
    (encryptedBuf o) (identBuf o) v (useEncrypted o) (kexTimeoutId o)
    (fatalError o) (channelId o) (peerChannelId o) (shellSent o) (flushCount o)
    (kexInitC o) (kexInitS o) (serverKexList o) (negotiatedMac o)
    (ephemeralPriv o) (qc o) (dhX o) (dhE o) (sessionId o) (receivedPKOk o)
    (wsOpen o) (draws o) (trace o).

Definition set_useEncrypted (v : bool) (o : SSHConnectionOrchestrator)
  : SSHConnectionOrchestrator :=
  mkOrchestrator (config o) (connState o) (dataCallback o) (dataBuffer o)
    (encryptedBuf o) (identBuf o) (draining o) v (kexTimeoutId o) (fatalError o)
    (channelId o) (peerChannelId o) (shellSent o) (flushCount o) (kexInitC o)
    (kexInitS o) (serverKexList o) (negotiatedMac o) (ephemeralPriv o) (qc o)
    (dhX o) (dhE o) (sessionId o) (receivedPKOk o) (wsOpen o) (draws o)
    (trace o).

Definition set_kexTimeoutId (v : bool) (o : SSHConnectionOrchestrator)
  : SSHConnectionOrchestrator :=
  mkOrchestrator (config o) (connState o) (dataCallback o) (dataBuffer o)
    (encryptedBuf o) (identBuf o) (draining o) (useEncrypted o) v (fatalError o)
    (channelId o) (peerChannelId o) (shellSent o) (flushCount o) (kexInitC o)
    (kexInitS o) (serverKexList o) (negotiatedMac o) (ephemeralPriv o) (qc o)
    (dhX o) (dhE o) (sessionId o) (receivedPKOk o) (wsOpen o) (draws o)
    (trace o).

Definition set_fatalError (v : bool) (o : SSHConnectionOrchestrator)
  : SSHConnectionOrchestrator :=
  mkOrchestrator (config o) (connState o) (dataCallback o) (dataBuffer o)
    (encryptedBuf o) (identBuf o) (draining o) (useEncrypted o) (kexTimeoutId o)
    v (channelId o) (peerChannelId o) (shellSent o) (flushCount o) (kexInitC o)
    (kexInitS o) (serverKexList o) (negotiatedMac o) (ephemeralPriv o) (qc o)
    (dhX o) (dhE o) (sessionId o) (receivedPKOk o) (wsOpen o) (draws o)
    (trace o).

Definition set_channelId (v : Z) (o : SSHConnectionOrchestrator)
  : SSHConnectionOrchestrator :=
  mkOrchestrator (config o) (connState o) (dataCallback o) (dataBuffer o)
    (encryptedBuf o) (identBuf o) (draining o) (useEncrypted o) (kexTimeoutId o)
    (fatalError o) v (peerChannelId o) (shellSent o) (flushCount o) (kexInitC o)
    (kexInitS o) (serverKexList o) (negotiatedMac o) (ephemeralPriv o) (qc o)
    (dhX o) (dhE o) (sessionId o) (receivedPKOk o) (wsOpen o) (draws o)
    (trace o).

Definition set_peerChannelId (v : Uint8Array) (o : SSHConnectionOrchestrator)
  : SSHConnectionOrchestrator :=
  mkOrchestrator (config o) (connState o) (dataCallback o) (dataBuffer o)
    (encryptedBuf o) (identBuf o) (draining o) (useEncrypted o) (kexTimeoutId o)
    (fatalError o) (channelId o) v (shellSent o) (flushCount o) (kexInitC o)
    (kexInitS o) (serverKexList o) (negotiatedMac o) (ephemeralPriv o) (qc o)
    (dhX o) (dhE o) (sessionId o) (receivedPKOk o) (wsOpen o) (draws o)
    (trace o).

Definition set_shellSent (v : bool) (o : SSHConnectionOrchestrator)
  : SSHConnectionOrchestrator :=
  mkOrchestrator (config o) (connState o) (dataCallback o) (dataBuffer o)
    (encryptedBuf o) (identBuf o) (draining o) (useEncrypted o) (kexTimeoutId o)
    (fatalError o) (channelId o) (peerChannelId o) v (flushCount o) (kexInitC o)
    (kexInitS o) (serverKexList o) (negotiatedMac o) (ephemeralPriv o) (qc o)
    (dhX o) (dhE o) (sessionId o) (receivedPKOk o) (wsOpen o) (draws o)
    (trace o).

Definition set_flushCount (v : Z) (o : SSHConnectionOrchestrator)
  : SSHConnectionOrchestrator :=
  mkOrchestrator (config o) (connState o) (dataCallback o) (dataBuffer o)
    (encryptedBuf o) (identBuf o) (draining o) (useEncrypted o) (kexTimeoutId o)
    (fatalError o) (channelId o) (peerChannelId o) (shellSent o) v (kexInitC o)
    (kexInitS o) (serverKexList o) (negotiatedMac o) (ephemeralPriv o) (qc o)
    (dhX o) (dhE o) (sessionId o) (receivedPKOk o) (wsOpen o) (draws o)
    (trace o).

Definition set_kexInitC (v : option Uint8Array) (o : SSHConnectionOrchestrator)
  : SSHConnectionOrchestrator :=
  mkOrchestrator (config o) (connState o) (dataCallback o) (dataBuffer o)
    (encryptedBuf o) (identBuf o) (draining o) (useEncrypted o) (kexTimeoutId o)
    (fatalError o) (channelId o) (peerChannelId o) (shellSent o) (flushCount o)
    v (kexInitS o) (serverKexList o) (negotiatedMac o) (ephemeralPriv o) (qc o)
    (dhX o) (dhE o) (sessionId o) (receivedPKOk o) (wsOpen o) (draws o)
    (trace o).

Definition set_kexInitS (v : option Uint8Array) (o : SSHConnectionOrchestrator)
  : SSHConnectionOrchestrator :=
  mkOrchestrator (config o) (connState o) (dataCallback o) (dataBuffer o)
    (encryptedBuf o) (identBuf o) (draining o) (useEncrypted o) (kexTimeoutId o)
    (fatalError o) (channelId o) (peerChannelId o) (shellSent o) (flushCount o)
    (kexInitC o) v (serverKexList o) (negotiatedMac o) (ephemeralPriv o) (qc o)
    (dhX o) (dhE o) (sessionId o) (receivedPKOk o) (wsOpen o) (draws o)
    (trace o).

Definition set_serverKexList (v : list string) (o : SSHConnectionOrchestrator)
  : SSHConnectionOrchestrator :=
  mkOrchestrator (config o) (connState o) (dataCallback o) (dataBuffer o)
    (encryptedBuf o) (identBuf o) (draining o) (useEncrypted o) (kexTimeoutId o)
    (fatalError o) (channelId o) (peerChannelId o) (shellSent o) (flushCount o)
    (kexInitC o) (kexInitS o) v (negotiatedMac o) (ephemeralPriv o) (qc o)
    (dhX o) (dhE o) (sessionId o) (receivedPKOk o) (wsOpen o) (draws o)
    (trace o).

Definition set_negotiatedMac (v : option string) (o : SSHConnectionOrchestrator)
  : SSHConnectionOrchestrator :=
  mkOrchestrator (config o) (connState o) (dataCallback o) (dataBuffer o)
    (encryptedBuf o) (identBuf o) (draining o) (useEncrypted o) (kexTimeoutId o)
    (fatalError o) (channelId o) (peerChannelId o) (shellSent o) (flushCount o)
    (kexInitC o) (kexInitS o) (serverKexList o) v (ephemeralPriv o) (qc o)
    (dhX o) (dhE o) (sessionId o) (receivedPKOk o) (wsOpen o) (draws o)
    (trace o).

Definition set_ephemeralPriv (v : option CryptoKey) (o : SSHConnectionOrchestrator)
  : SSHConnectionOrchestrator :=
  mkOrchestrator (config o) (connState o) (dataCallback o) (dataBuffer o)
    (encryptedBuf o) (identBuf o) (draining o) (useEncrypted o) (kexTimeoutId o)
    (fatalError o) (channelId o) (peerChannelId o) (shellSent o) (flushCount o)
    (kexInitC o) (kexInitS o) (serverKexList o) (negotiatedMac o) v (qc o)
    (dhX o) (dhE o) (sessionId o) (receivedPKOk o) (wsOpen o) (draws o)
    (trace o).

Definition set_qc (v : option Uint8Array) (o : SSHConnectionOrchestrator)
  : SSHConnectionOrchestrator :=
  mkOrchestrator (config o) (connState o) (dataCallback o) (dataBuffer o)
    (encryptedBuf o) (identBuf o) (draining o) (useEncrypted o) (kexTimeoutId o)
    (fatalError o) (channelId o) (peerChannelId o) (shellSent o) (flushCount o)
    (kexInitC o) (kexInitS o) (serverKexList o) (negotiatedMac o)
    (ephemeralPriv o) v (dhX o) (dhE o) (sessionId o) (receivedPKOk o)
    (wsOpen o) (draws o) (trace o).

Definition set_dhX (v : option Z) (o : SSHConnectionOrchestrator)
  : SSHConnectionOrchestrator :=
  mkOrchestrator (config o) (connState o) (dataCallback o) (dataBuffer o)
    (encryptedBuf o) (identBuf o) (draining o) (useEncrypted o) (kexTimeoutId o)
    (fatalError o) (channelId o) (peerChannelId o) (shellSent o) (flushCount o)
    (kexInitC o) (kexInitS o) (serverKexList o) (negotiatedMac o)
    (ephemeralPriv o) (qc o) v (dhE o) (sessionId o) (receivedPKOk o) (wsOpen o)
    (draws o) (trace o).

Definition set_dhE (v : option Z) (o : SSHConnectionOrchestrator)
  : SSHConnectionOrchestrator :=
  mkOrchestrator (config o) (connState o) (dataCallback o) (dataBuffer o)
    (encryptedBuf o) (identBuf o) (draining o) (useEncrypted o) (kexTimeoutId o)
    (fatalError o) (channelId o) (peerChannelId o) (shellSent o) (flushCount o)
    (kexInitC o) (kexInitS o) (serverKexList o) (negotiatedMac o)
    (ephemeralPriv o) (qc o) (dhX o) v (sessionId o) (receivedPKOk o) (wsOpen o)
    (draws o) (trace o).

Definition set_sessionId (v : option Uint8Array) (o : SSHConnectionOrchestrator)
  : SSHConnectionOrchestrator :=
  mkOrchestrator (config o) (connState o) (dataCallback o) (dataBuffer o)
    (encryptedBuf o) (identBuf o) (draining o) (useEncrypted o) (kexTimeoutId o)
    (fatalError o) (channelId o) (peerChannelId o) (shellSent o) (flushCount o)
    (kexInitC o) (kexInitS o) (serverKexList o) (negotiatedMac o)
    (ephemeralPriv o) (qc o) (dhX o) (dhE o) v (receivedPKOk o) (wsOpen o)
    (draws o) (trace o).

Definition set_receivedPKOk (v : bool) (o : SSHConnectionOrchestrator)
  : SSHConnectionOrchestrator :=
  mkOrchestrator (config o) (connState o) (dataCallback o) (dataBuffer o)
    (encryptedBuf o) (identBuf o) (draining o) (useEncrypted o) (kexTimeoutId o)
    (fatalError o) (channelId o) (peerChannelId o) (shellSent o) (flushCount o)
    (kexInitC o) (kexInitS o) (serverKexList o) (negotiatedMac o)
    (ephemeralPriv o) (qc o) (dhX o) (dhE o) (sessionId o) v (wsOpen o)
    (draws o) (trace o).

Definition set_wsOpen (v : bool) (o : SSHConnectionOrchestrator)
  : SSHConnectionOrchestrator :=
  mkOrchestrator (config o) (connState o) (dataCallback o) (dataBuffer o)
    (encryptedBuf o) (identBuf o) (draining o) (useEncrypted o) (kexTimeoutId o)
    (fatalError o) (channelId o) (peerChannelId o) (shellSent o) (flushCount o)
    (kexInitC o) (kexInitS o) (serverKexList o) (negotiatedMac o)
    (ephemeralPriv o) (qc o) (dhX o) (dhE o) (sessionId o) (receivedPKOk o) v
    (draws o) (trace o).

Definition set_draws (v : nat) (o : SSHConnectionOrchestrator)
  : SSHConnectionOrchestrator :=
  mkOrchestrator (config o) (connState o) (dataCallback o) (dataBuffer o)
    (encryptedBuf o) (identBuf o) (draining o) (useEncrypted o) (kexTimeoutId o)
    (fatalError o) (channelId o) (peerChannelId o) (shellSent o) (flushCount o)
    (kexInitC o) (kexInitS o) (serverKexList o) (negotiatedMac o)
    (ephemeralPriv o) (qc o) (dhX o) (dhE o) (sessionId o) (receivedPKOk o)
    (wsOpen o) v (trace o).

Definition set_trace (v : list Event) (o : SSHConnectionOrchestrator)
  : SSHConnectionOrchestrator :=
  mkOrchestrator (config o) (connState o) (dataCallback o) (dataBuffer o)
    (encryptedBuf o) (identBuf o) (draining o) (useEncrypted o) (kexTimeoutId o)
    (fatalError o) (channelId o) (peerChannelId o) (shellSent o) (flushCount o)
    (kexInitC o) (kexInitS o) (serverKexList o) (negotiatedMac o)
    (ephemeralPriv o) (qc o) (dhX o) (dhE o) (sessionId o) (receivedPKOk o)
    (wsOpen o) (draws o) v.

(** Updates of the fields of [connState] that the orchestrator assigns. *)
Definition set_cipher (c : option TransportCipher) (o : SSHConnectionOrchestrator)
  : SSHConnectionOrchestrator :=
  let s := connState o in
  set_connState
    (mkConnectionState (phase s) (serverIdent s) (cs_sessionId s) (cs_kex s)
       (cs_auth s) (cs_channel s) c (cs_fatalError s)) o.

Definition set_serverIdent (v : string) (o : SSHConnectionOrchestrator)
  : SSHConnectionOrchestrator :=
  let s := connState o in
  set_connState
    (mkConnectionState (phase s) v (cs_sessionId s) (cs_kex s)
       (cs_auth s) (cs_channel s) (cipher s) (cs_fatalError s)) o.

Definition set_cs_sessionId (v : option Uint8Array) (o : SSHConnectionOrchestrator)
  : SSHConnectionOrchestrator :=
  let s := connState o in
  set_connState
    (mkConnectionState (phase s) (serverIdent s) v (cs_kex s)
       (cs_auth s) (cs_channel s) (cipher s) (cs_fatalError s)) o.

(** The state built by the constructor. *)
Definition newOrchestrator (cfg : Config) (wsOpen : bool) : SSHConnectionOrchestrator :=
  mkOrchestrator cfg (createConnectionState DEFAULT_WINDOW_SIZE)
    false [] [] [] false false false false 0 (repeat Byte.x00 4) false 0
    None None [] None None None None None None false wsOpen 0%nat [].

(** ** Exceptions raised by the platform

    The exceptions that reach [handleMessage] from calls into the
    platform: the [RangeError] of a [DataView] that does not fit its
    buffer, the [TypeError] of reading [length] of [null], and the
    rejection of the X25519 key agreement for a private key and a peer
    key. *)
Inductive PlatformError :=
| DataViewRangeError
| NullTypeError
| KeyAgreementError (privateKey : CryptoKey) (publicKey : Uint8Array).

(** ** Sample data

    Stand-ins for the platform primitives and the inputs of the sample
    runs that close the development. *)

Module Sample.

Definition byteSum (a : Uint8Array) : Z :=
  fold_left (fun acc b => acc + byte.unsigned b) a 0.

Definition mix (a : Uint8Array) : Z :=
  fold_left (fun acc b => (acc * 33 + byte.unsigned b) mod 65521) a 5381.

Definition aesBlock (key : CryptoKey) (counter : Uint8Array) (i : nat) : byte :=
  byte.of_Z (mix key + 3 * mix counter + 7 * Z.of_nat i + 1).

Definition hmacSha256 (key data : Uint8Array) (i : nat) : byte :=
  byte.of_Z (mix key + 31 * mix data + Z.of_nat i).

Definition sha256 (data : Uint8Array) (i : nat) : byte :=
  byte.of_Z (mix data + 13 * Z.of_nat i).

Definition TextDecoder_decode (b : Uint8Array) : string := string_of_list_byte b.
Definition TextEncoder_encode (s : string) : Uint8Array := list_byte_of_string s.

Definition entropy (n i : nat) : byte := byte.of_Z (Z.of_nat (17 * n + 5 * i + 3)).

Definition generateDHPrivate (n : nat) : Z * Z := (Z.of_nat n + 11, Z.of_nat n + 29).

Definition generateX25519KeyPair (n : nat) : Uint8Array * CryptoKey :=
  (getRandomValues (entropy n) 32, getRandomValues (entropy (S n)) 32).

Definition computeX25519SharedSecret (priv : CryptoKey) (pub : Uint8Array)
  : option Uint8Array :=
  if (length pub =? 32)%nat
  then Some (map (fun i => byte.of_Z (mix priv + mix pub + Z.of_nat i)) (seq 0 32))
  else None.

Definition ed25519Sign (key : CryptoKey) (data : Uint8Array) : Uint8Array :=
  map (fun i => byte.of_Z (mix key + 3 * mix data + Z.of_nat i)) (seq 0 64).

Definition DH_PRIME : Z := 2147483647.
Definition CLIENT_IDENT : string := "SSH-2.0-ssh2web".

Definition platformMessage (e : PlatformError) : string :=
  match e with
  | DataViewRangeError => "Invalid DataView length 4"
  | NullTypeError => "Cannot read properties of null (reading 'length')"
  | KeyAgreementError _ _ => "The operation failed for an operation-specific reason"
  end.

Definition rnd : nat -> byte := entropy 0.

Definition key16 (v : Z) : Uint8Array := repeat (byte.of_Z v) 16.
Definition key32 (v : Z) : Uint8Array := repeat (byte.of_Z v) 32.

(** A client cipher and the server cipher that mirrors it, as the unit
    tests build them, in each MAC mode. *)
Definition client (etm : bool) : TransportCipher :=
  createTransportCipher (key16 1) (key16 2) (key32 3) (key16 4) (key16 5) (key32 6)
    0 0 etm.
Definition server (etm : bool) : TransportCipher :=
  createTransportCipher (key16 4) (key16 5) (key32 6) (key16 1) (key16 2) (key32 3)
    0 0 etm.

Definition cfg : Config :=
  mkConfig "alice" (key32 9) "ssh-ed25519-cert-v01@openssh.com"
    (map byte.of_Z [1; 2; 3]) 80 24 true None None true.

Definition zeros (n : nat) : Uint8Array := repeat Byte.x00 n.

(** A server identification line followed by a plain DISCONNECT packet. *)
Definition disconnectChunk : Uint8Array :=
  bytesOf "SSH-2.0-srv" ++ [Byte.x0d; Byte.x0a]
    ++ buildPacket rnd (map byte.of_Z [1; 0; 0; 0; 2; 0; 0; 0; 0]) false.

(** Orchestrators that await a DH reply and an ECDH reply, and a reply of
    each kind. *)
Definition awaitingDH : SSHConnectionOrchestrator :=
  set_kexInitS (Some [Byte.x14]) (set_kexInitC (Some [Byte.x14])
    (set_dhE (Some 7) (set_dhX (Some 5) (newOrchestrator cfg true)))).

Definition awaitingECDH : SSHConnectionOrchestrator :=
  set_kexInitS (Some [Byte.x14]) (set_kexInitC (Some [Byte.x14])
    (set_qc (Some (key32 7)) (set_ephemeralPriv (Some (key32 8))
       (newOrchestrator cfg true)))).

Definition dhReply : Uint8Array :=
  [Byte.x1f] ++ writeBytes (map byte.of_Z [1; 2; 3]) ++ writeBigintMpint 9.

Definition ecdhReply : Uint8Array :=
  [Byte.x1f] ++ writeBytes (map byte.of_Z [1; 2; 3]) ++ writeBytes (key32 9).

(** A DH reply whose [f] is the single byte 80, which [readMpint] reads
    as -128. *)
Definition dhReplyNegative : Uint8Array :=
  [Byte.x1f] ++ writeBytes (map byte.of_Z [1; 2; 3]) ++ writeBytes [Byte.x80].

End Sample.

Section Engine.

#[local] Set Default Proof Using "Type".

(** *** Primitives supplied by the platform *)

(** Byte [i] of the AES-128 encryption of a 16-byte counter block. *)
Variable aesBlock : CryptoKey -> Uint8Array -> nat -> byte.
(** Byte [i] of the 32-byte HMAC-SHA-256 tag of a message under a key. *)
Variable hmacSha256 : Uint8Array -> Uint8Array -> nat -> byte.

(** ** crypto/mac.ts and crypto/cipher.ts over the primitives *)

Definition computeHMACSHA256 (key data : Uint8Array) : Uint8Array :=
  map (hmacSha256 key data) (seq 0 32).

(** [crypto.subtle.encrypt] and [crypto.subtle.decrypt] with AES-CTR on at
    most one block: the data XORed with the encrypted counter block. *)
Definition subtleAesCtr (key : CryptoKey) (counter data : Uint8Array) : Uint8Array :=
  map (fun ib => byte.xor (snd ib) (aesBlock key counter (fst ib)))
    (combine (seq 0 (length data)) data).

(** The block loop shared by [encryptAES128CTR] and [decryptAES128CTR].
    [output] is the part of the result array written so far: block [i]
    is stored at [offset], which is where the previous block ended. *)
Fixpoint ctrBlocks (blocks : nat) (key : CryptoKey) (ivCopy input : Uint8Array)
  (offset : Z) (output : Uint8Array) : Uint8Array * Uint8Array :=
  match blocks with
  | O => (output, ivCopy)
  | S k =>
      let blockLen := Z.min AES_BLOCK_SIZE (len input - offset) in
      let enc := subtleAesCtr key ivCopy (subarray input offset (offset + blockLen)) in
      ctrBlocks k key (incrementCounter ivCopy 1) input (offset + blockLen)
        (output ++ enc)
  end.

(** [Math.ceil(n / AES_BLOCK_SIZE)] *)
Definition blockCount (n : Z) : nat :=
  Z.to_nat ((n + AES_BLOCK_SIZE - 1) / AES_BLOCK_SIZE).

(** Returns [(ciphertext, nextIv)]. *)
Definition encryptAES128CTR (key : CryptoKey) (iv plaintext : Uint8Array)
  : Uint8Array * Uint8Array :=
  ctrBlocks (blockCount (len plaintext)) key iv plaintext 0 [].

(** Returns [(plaintext, nextIv)]. *)
Definition decryptAES128CTR (key : CryptoKey) (iv ciphertext : Uint8Array)
  : Uint8Array * Uint8Array :=
  ctrBlocks (blockCount (len ciphertext)) key iv ciphertext 0 [].

(** ** transport/transportcipher.ts *)

Definition encrypt (rnd : nat -> byte) (payload : Uint8Array) (c : TransportCipher)
  : Uint8Array * TransportCipher :=
  let raw := buildPacket rnd payload (macEtm c) in
  let seq := seqOut c in
  let seqOut' := seqOut c + 1 in
  if macEtm c then
    let packetLen := subarray raw 0 4 in
    let '(ct, nextIv) := encryptAES128CTR (keyEnc c) (ivEnc c) (subarrayFrom raw 4) in
    let macInput := concat [writeUint32 seq; packetLen; ct] in
    let mac := computeHMACSHA256 (macC c) macInput in
    (concat [packetLen; ct; mac],
     mkTransportCipher nextIv (ivDec c) (keyEnc c) (keyDec c) seqOut' (seqIn c)
       (macEtm c) (macC c) (macS c))
  else
    let '(ct, nextIv) := encryptAES128CTR (keyEnc c) (ivEnc c) raw in
    let macInput := concat [writeUint32 seq; raw] in
    let mac := computeHMACSHA256 (macC c) macInput in
    (concat [ct; mac],
     mkTransportCipher nextIv (ivDec c) (keyEnc c) (keyDec c) seqOut' (seqIn c)
       (macEtm c) (macC c) (macS c)).

(** The two assignments [this.ivDec = ...; this.seqIn++] of a successful
    decrypt. *)
Definition advanceIn (c : TransportCipher) (nextIv : Uint8Array) : TransportCipher :=
  mkTransportCipher (ivEnc c) nextIv (keyEnc c) (keyDec c) (seqOut c) (seqIn c + 1)
    (macEtm c) (macC c) (macS c).

Definition decryptEtm (c : TransportCipher) (data : Uint8Array)
  : DecryptOutcome * TransportCipher :=
  if len data <? 4 + HMAC_SHA256_SIZE then (NeedMore, c)
  else
    let plen := getUint32 data 0 in
    if (plen <? 5) || (MAX_PACKET_SIZE <? plen) then (NeedMore, c)
    else
      let totalLen := 4 + plen + HMAC_SHA256_SIZE in
      if len data <? totalLen then (NeedMore, c)
      else
        let packetLen := subarray data 0 4 in
        let ciphertext := subarray data 4 (4 + plen) in
        let macReceived := subarray data (4 + plen) (4 + plen + HMAC_SHA256_SIZE) in
        let macInput := concat [writeUint32 (seqIn c); packetLen; ciphertext] in
        let macExpected := computeHMACSHA256 (macS c) macInput in
        if negb (constantTimeEqual macReceived macExpected) then
          (Throws (MacVerificationError "MAC verification failed (EtM mode)"), c)
        else
          let '(fullRawInner, nextIv) :=
            decryptAES128CTR (keyDec c) (ivDec c) ciphertext in
          let padLen := byte.unsigned (nth 0 fullRawInner Byte.x00) in
          if (padLen <? 4) || (255 <? padLen) then
            (Throws (ProtocolError
               ("Invalid padding length: " ++ showZ padLen
                  ++ " (seq=" ++ showZ (seqIn c) ++ ")")), c)
          else if plen - 1 <? padLen then
            (Throws (ProtocolError
               ("Padding exceeds packet length (seq=" ++ showZ (seqIn c) ++ ")")), c)
          else
            let payloadLen := plen - 1 - padLen in
            if (payloadLen <? 0) || (len fullRawInner <? 1 + payloadLen) then
              (Throws (ProtocolError
                 ("Invalid payload length: " ++ showZ payloadLen
                    ++ " (seq=" ++ showZ (seqIn c) ++ ")")), c)
            else
              (Decrypted
                 (mkParsedPacket (subarray fullRawInner 1 (1 + payloadLen)) totalLen),
               advanceIn c nextIv).

Definition decryptStandard (c : TransportCipher) (data : Uint8Array)
  : DecryptOutcome * TransportCipher :=
  if len data <? AES_BLOCK_SIZE + HMAC_SHA256_SIZE then (NeedMore, c)
  else
    let firstBlock := subarray data 0 AES_BLOCK_SIZE in
    let '(first, ivAfterFirst) :=
      decryptAES128CTR (keyDec c) (ivDec c) firstBlock in
    let plen := getUint32 first 0 in
    if (plen <? 5) || (MAX_PACKET_SIZE <? plen) then (NeedMore, c)
    else
      let totalEnc := 4 + plen in
      if len data <? totalEnc + HMAC_SHA256_SIZE then (NeedMore, c)
      else
        let macReceived := subarray data totalEnc (totalEnc + HMAC_SHA256_SIZE) in
        let '(fullRaw, ivAfterDecrypt) :=
          if totalEnc <=? AES_BLOCK_SIZE then
            (subarray first 0 totalEnc, ivAfterFirst)
          else
            let '(raw, ivAfterRest) :=
              decryptAES128CTR (keyDec c) ivAfterFirst
                (subarray data AES_BLOCK_SIZE totalEnc) in
            (concat [first; raw], ivAfterRest) in
        let padLen := byte.unsigned (nth 4 fullRaw Byte.x00) in
        if (padLen <? 4) || (255 <? padLen) then
          (Throws (ProtocolError
             ("Invalid padding length: " ++ showZ padLen
                ++ " (seq=" ++ showZ (seqIn c) ++ ")")), c)
        else
          let payloadLen := plen - 1 - padLen in
          if (payloadLen <? 0) || (len fullRaw <? 5 + payloadLen) then
            (Throws (ProtocolError
               ("Invalid payload length: " ++ showZ payloadLen
                  ++ " (seq=" ++ showZ (seqIn c) ++ ")")), c)
          else
            let macInput := concat [writeUint32 (seqIn c); fullRaw] in
            let macExpected := computeHMACSHA256 (macS c) macInput in
            if negb (constantTimeEqual macReceived macExpected) then
              (Throws (MacVerificationError "MAC verification failed"), c)
            else
              (Decrypted
                 (mkParsedPacket (subarray fullRaw 5 (5 + payloadLen))
                    (totalEnc + HMAC_SHA256_SIZE)),
               advanceIn c ivAfterDecrypt).

Definition decrypt (c : TransportCipher) (data : Uint8Array)
  : DecryptOutcome * TransportCipher :=
  if macEtm c then decryptEtm c data else decryptStandard c data.

(** The payload that a successful [decrypt] returns is a [subarray] view:
    of [fullRawInner] in ETM mode, and in MtE mode of [fullRaw], which is
    itself a view of the decrypted first block when the packet fits into
    it, and the array built by [concat] otherwise.  These are the bytes
    that follow the payload in the [ArrayBuffer] of that view. *)
Definition behindPayload (c : TransportCipher) (data : Uint8Array) : Uint8Array :=
  if macEtm c then
    let plen := getUint32 data 0 in
    let ciphertext := subarray data 4 (4 + plen) in
    let '(fullRawInner, _) := decryptAES128CTR (keyDec c) (ivDec c) ciphertext in
    let padLen := byte.unsigned (nth 0 fullRawInner Byte.x00) in
    let payloadLen := plen - 1 - padLen in
    subarrayFrom fullRawInner (1 + payloadLen)
  else
    let firstBlock := subarray data 0 AES_BLOCK_SIZE in
    let '(first, ivAfterFirst) :=
      decryptAES128CTR (keyDec c) (ivDec c) firstBlock in
    let plen := getUint32 first 0 in
    let totalEnc := 4 + plen in
    let buffer :=
      if totalEnc <=? AES_BLOCK_SIZE then first
      else
        let '(raw, _) :=
          decryptAES128CTR (keyDec c) ivAfterFirst
            (subarray data AES_BLOCK_SIZE totalEnc) in
        concat [first; raw] in
    let padLen := byte.unsigned (nth 4 buffer Byte.x00) in
    let payloadLen := plen - 1 - padLen in
    subarrayFrom buffer (5 + payloadLen).

(** *** Further platform services *)

(** [new TextDecoder().decode] and [new TextEncoder().encode]. *)
Variable TextDecoder_decode : Uint8Array -> string.
Variable TextEncoder_encode : string -> Uint8Array.
(** Byte [i] of the SHA-256 digest. *)
Variable sha256 : Uint8Array -> nat -> byte.
(** Byte [i] of the [n]-th random draw. *)
Variable entropy : nat -> nat -> byte.
(** [generateDHPrivate] and [generateX25519KeyPair] as functions of the
    draw they consume: [(x, e)] and [(publicKey, privateKey)]. *)
Variable generateDHPrivate : nat -> Z * Z.
Variable generateX25519KeyPair : nat -> Uint8Array * CryptoKey.
(** [None] when the Web Crypto call rejects. *)
Variable computeX25519SharedSecret : CryptoKey -> Uint8Array -> option Uint8Array.
Variable ed25519Sign : CryptoKey -> Uint8Array -> Uint8Array.
(** Modelled from the spec: [DH_PRIME] (the RFC 3526 group-14 prime) and
    [CLIENT_IDENT] (a line of the form SSH-2.0-tag) come from
    domain/constants.ts, which is not part of the sources. *)
Variable DH_PRIME : Z.
Variable CLIENT_IDENT : string.
(** The text that [handleMessage] hands to [setFatal] for an exception
    that the platform raises: [err.message], or [String(err)] for an
    exception that is no [Error], in the platform's words. *)
Variable platformMessage : PlatformError -> string.

Definition computeSHA256 (data : Uint8Array) : Uint8Array :=
  map (sha256 data) (seq 0 32).

Definition computeDHSharedSecret (f x : Z) : Z := modPow f x DH_PRIME.

(** ** protocol/serialization.ts and deserialization.ts (strings) *)

Definition writeString (s : string) : Uint8Array :=
  let enc := TextEncoder_encode s in
  writeUint32 (len enc) ++ enc.

Record StringValue := mkStringValue {
  stringValue : string;
  stringConsumed : Z
}.

Definition readString (data : Uint8Array) (offset : Z) : option StringValue :=
  if len data <? offset + 4 then None
  else
    let l := getUint32 data (Z.to_nat offset) in
    if len data <? offset + 4 + l then None
    else
      Some (mkStringValue
              (TextDecoder_decode (subarray data (offset + 4) (offset + 4 + l)))
              (4 + l)).

(** ** crypto/keys.ts *)

Record DerivedKeys := mkDerivedKeys {
  dk_ivC : Uint8Array;
  dk_keyC : Uint8Array;
  dk_macC : Uint8Array;
  dk_ivS : Uint8Array;
  dk_keyS : Uint8Array;
  dk_macS : Uint8Array
}.

Definition deriveKeys (sharedSecret exchangeHash sessionId : Uint8Array)
  : DerivedKeys :=
  let deriveKey (id : Z) :=
    computeSHA256 (concat [sharedSecret; exchangeHash; [byte.of_Z id]; sessionId]) in
  let ivC := subarray (deriveKey 65) 0 16 in
  let ivS := subarray (deriveKey 66) 0 16 in
  let keyC := subarray (deriveKey 67) 0 16 in
  let keyS := subarray (deriveKey 68) 0 16 in
  let macC := subarray (deriveKey 69) 0 32 in
  let macS := subarray (deriveKey 70) 0 32 in
  mkDerivedKeys ivC keyC macC ivS keyS macS.

(** ** kex/builder.ts *)

Definition buildKexInit (rnd : nat -> byte) : Uint8Array :=
  let cookie := getRandomValues rnd 16 in
  let macList := splitList PREFERRED_MAC in
  let lists :=
    [PREFERRED_KEX; "ssh-ed25519"; PREFERRED_CIPHER; PREFERRED_CIPHER;
     join macList; join macList; "none"; "none"; ""; ""]%string in
  concat ([[byte.of_Z SSH_MSG_KEXINIT]; cookie] ++ map writeString lists
            ++ [[Byte.x00]; writeUint32 0]).

(** ** connection/connectSSH.ts *)

(** How an async method ends: it returns, or it rejects with a message. *)
Inductive Completion :=
| Normal
| Abrupt (message : string).

Definition emit (e : Event) (o : SSHConnectionOrchestrator)
  : SSHConnectionOrchestrator :=
  set_trace (trace o ++ [e]) o.

(** Takes the next random draw. *)
Definition draw (o : SSHConnectionOrchestrator)
  : (nat -> byte) * SSHConnectionOrchestrator :=
  (entropy (draws o), set_draws (S (draws o)) o).

Definition send (data : Uint8Array) (o : SSHConnectionOrchestrator)
  : SSHConnectionOrchestrator :=
  if wsOpen o then emit (WsSend data) o else o.

Definition start (o : SSHConnectionOrchestrator) : SSHConnectionOrchestrator :=
  send (TextEncoder_encode (CLIENT_IDENT ++ String "013" (String "010" ""))) o.

Definition setFatal (msg : string) (o : SSHConnectionOrchestrator)
  : SSHConnectionOrchestrator :=
  if negb (fatalError o) then
    let o := set_fatalError true o in
    if onError (config o) then emit (OnError msg) o else o
  else o.

Definition sendEncrypted (payload : Uint8Array) (o : SSHConnectionOrchestrator)
  : SSHConnectionOrchestrator :=
  match cipher (connState o) with
  | None => o
  | Some c =>
      let '(rnd, o) := draw o in
      let '(ciphertext, c') := encrypt rnd payload c in
      let o := set_cipher (Some c') o in
      if wsOpen o then emit (WsSend ciphertext) o else o
  end.

Definition flushBuf (o : SSHConnectionOrchestrator) : SSHConnectionOrchestrator :=
  if (0 <? len (dataBuffer o)) && dataCallback o then
    let s := TextDecoder_decode (dataBuffer o) in
    let o := set_flushCount (flushCount o + 1) o in
    let o := emit (DataCallback s) o in
    set_dataBuffer [] o
  else o.

(** [combined.findIndex((_, i) => f(i))] over indices below [n]; [None] is
    the result [-1]. *)
Definition findIndex (f : nat -> bool) (n : nat) : option nat :=
  find f (seq 0 n).

Definition byteAt (a : Uint8Array) (i : nat) (v : Z) : bool :=
  match at_ a i with
  | Some x => x =? v
  | None => false
  end.

(** Returns the bytes that follow the identification line, or [None]. *)
Definition extractServerIdent (d : Uint8Array) (o : SSHConnectionOrchestrator)
  : option Uint8Array * SSHConnectionOrchestrator :=
  let combined := concat [identBuf o; d] in
  let sshStart :=
    findIndex
      (fun i => (Z.of_nat i <=? len combined - 4)
                && byteAt combined i 83 && byteAt combined (i + 1) 83
                && byteAt combined (i + 2) 72 && byteAt combined (i + 3) 45)
      (length combined) in
  match sshStart with
  | None => (None, set_identBuf combined o)
  | Some sshStart =>
      let afterIdent := subarrayFrom combined (Z.of_nat sshStart) in
      let crlf :=
        findIndex
          (fun i => (Z.of_nat i <? len afterIdent - 1)
                    && byteAt afterIdent i 13 && byteAt afterIdent (i + 1) 10)
          (length afterIdent) in
      let endTerm :=
        match crlf with
        | Some e => Some (e, 2)
        | None =>
            match findIndex (fun i => byteAt afterIdent i 10) (length afterIdent) with
            | Some e => Some (e, 1)
            | None => None
            end
        end in
      match endTerm with
      | None => (None, set_identBuf combined o)
      | Some (e, termLen) =>
          let o :=
            set_serverIdent
              (TextDecoder_decode (subarray afterIdent 0 (Z.of_nat e))) o in
          let o := set_identBuf [] o in
          let restStart := Z.of_nat sshStart + Z.of_nat e + termLen in
          if restStart <? len combined
          then (Some (subarrayFrom combined restStart), o)
          else (Some [], o)
      end
  end.

(** The signed [USERAUTH_REQUEST] that the [SERVICE_ACCEPT] and
    [USERAUTH_PK_OK] branches both build.  [writeBytes(this.sessionId!)]
    raises a [TypeError] when no session identifier is set. *)
Definition signedAuthRequest (o : SSHConnectionOrchestrator) : option Uint8Array :=
  match sessionId o with
  | None => None
  | Some sid =>
      let cfg := config o in
      let signData :=
        concat [writeBytes sid; [byte.of_Z SSH_MSG_USERAUTH_REQUEST];
                writeString (username cfg); writeString "ssh-connection";
                writeString "publickey"; [byte.of_Z 1];
                writeString (certKeyType cfg); writeBytes (certBlob cfg)] in
      let sig := ed25519Sign (privKey cfg) signData in
      let sigAlg :=
        if String.prefix "ssh-ed25519" (certKeyType cfg)
        then "ssh-ed25519"%string else certKeyType cfg in
      let sigBlob := concat [writeString sigAlg; writeBytes sig] in
      Some (concat [[byte.of_Z SSH_MSG_USERAUTH_REQUEST];
                    writeString (username cfg); writeString "ssh-connection";
                    writeString "publickey"; [byte.of_Z 1];
                    writeString (certKeyType cfg); writeBytes (certBlob cfg);
                    writeBytes sigBlob])
  end.

(** The body of the [KEXINIT] branch. *)
Definition onKexInit (p : Uint8Array) (o : SSHConnectionOrchestrator)
  : Completion * SSHConnectionOrchestrator :=
  let o := set_kexInitS (Some p) o in
  let off := 1 + 16 in
  match readString p off with
  | None => (Normal, setFatal "kex init parse" o)
  | Some serverKex =>
  let off := off + stringConsumed serverKex in
  let o := set_serverKexList (splitList (stringValue serverKex)) o in
  match readString p off with
  | None => (Normal, setFatal "kex init server_host_key" o)
  | Some serverHostKey =>
  let off := off + stringConsumed serverHostKey in
  match readString p off with
  | None => (Normal, setFatal "kex init cipher_ctos" o)
  | Some cipherCtos =>
  let off := off + stringConsumed cipherCtos in
  match readString p off with
  | None => (Normal, setFatal "kex init cipher_stoc" o)
  | Some cipherStoc =>
  let off := off + stringConsumed cipherStoc in
  match readString p off with
  | None => (Normal, setFatal "kex init mac_ctos" o)
  | Some macCtos =>
  let off := off + stringConsumed macCtos in
  match readString p off with
  | None => (Normal, setFatal "kex init mac_stoc" o)
  | Some macStoc =>
  let serverMacList := splitList (stringValue macStoc) in
  let ourMacList := splitList PREFERRED_MAC in
  let o := set_negotiatedMac (find (fun a => includes serverMacList a) ourMacList) o in
  if falsy (negotiatedMac o) then
    (Normal,
     setFatal ("MAC negotiation failed: server supports "
               ++ join (firstn 3 serverMacList)
               ++ "... we need hmac-sha2-256 or hmac-sha2-256-etm@openssh.com") o)
  else
  let ourKexList := splitList PREFERRED_KEX in
  let negotiated := find (fun a => includes (serverKexList o) a) ourKexList in
  let isDH :=
    match negotiated with
    | Some n => String.eqb n "diffie-hellman-group14-sha256"
    | None => false
    end in
  let isCurve :=
    match negotiated with
    | Some n => String.eqb n "curve25519-sha256"
                || String.eqb n "curve25519-sha256@libssh.org"
    | None => false
    end in
  if falsy negotiated || (negb isDH && negb isCurve) then
    (Normal,
     setFatal ("KEX negotiation failed: server supports "
               ++ join (firstn 3 (serverKexList o))
               ++ "... we need curve25519 or diffie-hellman-group14-sha256") o)
  else
  let '(rnd, o) := draw o in
  let kexInit := buildKexInit rnd in
  let o := set_kexInitC (Some kexInit) o in
  let '(rnd, o) := draw o in
  let o := send (buildPacket rnd kexInit false) o in
  let o :=
    if isDH then
      let '(x, e) := generateDHPrivate (draws o) in
      let o := set_draws (S (draws o)) o in
      let o := set_dhE (Some e) (set_dhX (Some x) o) in
      let initPayload := concat [[byte.of_Z SSH_MSG_KEXDH_INIT]; writeBigintMpint e] in
      let '(rnd, o) := draw o in
      send (buildPacket rnd initPayload false) o
    else
      let '(publicKey, privateKey) := generateX25519KeyPair (draws o) in
      let o := set_draws (S (draws o)) o in
      let o := set_qc (Some publicKey) (set_ephemeralPriv (Some privateKey) o) in
      let initPayload := concat [[byte.of_Z SSH_MSG_KEX_ECDH_INIT]; writeBytes publicKey] in
      let '(rnd, o) := draw o in
      send (buildPacket rnd initPayload false) o in
  (Normal, emit (SetTimeout KEX_TIMEOUT_MS) (set_kexTimeoutId true o))
  end end end end end end.

(** The steps the two key-exchange reply branches share once the shared
    secret [kEncoded] and the exchange hash [h] are known: record the
    session identifier, derive the keys, create the cipher, send
    [NEWKEYS]. *)
Definition installKeys (kEncoded h : Uint8Array) (o : SSHConnectionOrchestrator)
  : SSHConnectionOrchestrator :=
  let o := set_sessionId (Some h) o in
  let o := set_cs_sessionId (Some h) o in
  let keys := deriveKeys kEncoded h h in
  let macEtm :=
    match negotiatedMac o with
    | Some m => String.eqb m "hmac-sha2-256-etm@openssh.com"
    | None => false
    end in
  let cipher :=
    createTransportCipher (dk_ivC keys) (dk_keyC keys) (dk_macC keys)
      (dk_ivS keys) (dk_keyS keys) (dk_macS keys) 3 3 macEtm in
  let o := set_cipher (Some cipher) o in
  let '(rnd, o) := draw o in
  send (buildPacket rnd (concat [[byte.of_Z SSH_MSG_NEWKEYS]]) false) o.

Definition clearKexTimeout (o : SSHConnectionOrchestrator) : SSHConnectionOrchestrator :=
  let o := if kexTimeoutId o then emit ClearTimeout o else o in
  set_kexTimeoutId false o.

(** The body of the [KEXDH_REPLY] branch. *)
Definition onKexDHReply (x e : Z) (kexInitC kexInitS p : Uint8Array)
  (o : SSHConnectionOrchestrator) : Completion * SSHConnectionOrchestrator :=
  let o := clearKexTimeout o in
  let off := 1 in
  match readBytes p off with
  | None => (Normal, setFatal "kex dh reply parse" o)
  | Some ks =>
  let off := off + bytesConsumed ks in
  let serverHostKey := bytesValue ks in
  match readMpint p off with
  | None => (Normal, setFatal "kex dh reply f" o)
  | Some fMpint =>
  let f := bigintValue fMpint in
  let k := computeDHSharedSecret f x in
  let vc := CLIENT_IDENT in
  let vs := stripLineEnd (serverIdent (connState o)) in
  let h :=
    computeSHA256
      (concat [writeString vc; writeString vs; writeBytes kexInitC;
               writeBytes kexInitS; writeBytes serverHostKey;
               writeBigintMpint e; writeBigintMpint f; writeBigintMpint k]) in
  let kEncoded := writeBigintMpint k in
  (Normal, installKeys kEncoded h o)
  end end.

(** The body of the [KEX_ECDH_REPLY] branch. *)
Definition onKexECDHReply (ephemeralPriv : CryptoKey) (qc kexInitC kexInitS p : Uint8Array)
  (o : SSHConnectionOrchestrator) : Completion * SSHConnectionOrchestrator :=
  let o := clearKexTimeout o in
  let off := 1 in
  match readBytes p off with
  | None => (Normal, setFatal "kex reply parse" o)
  | Some ks =>
  let off := off + bytesConsumed ks in
  let serverHostKey := bytesValue ks in
  match readBytes p off with
  | None => (Normal, setFatal "kex reply qs" o)
  | Some qsBytes =>
  let qs := bytesValue qsBytes in
  match computeX25519SharedSecret ephemeralPriv qs with
  | None => (Abrupt (platformMessage (KeyAgreementError ephemeralPriv qs)), o)
  | Some k =>
  let vc := CLIENT_IDENT in
  let vs := stripLineEnd (serverIdent (connState o)) in
  let h :=
    computeSHA256
      (concat [writeString vc; writeString vs; writeBytes kexInitC;
               writeBytes kexInitS; writeBytes serverHostKey;
               writeBytes qc; writeBytes qs; writeByteMpint k]) in
  let kEncoded := writeByteMpint k in
  (Normal, installKeys kEncoded h o)
  end end end.

(** The guard of the [KEXDH_REPLY] branch with the values it tests. *)
Definition dhContext (o : SSHConnectionOrchestrator)
  : option (Z * Z * Uint8Array * Uint8Array) :=
  match dhX o, dhE o, kexInitC o, kexInitS o with
  | Some x, Some e, Some ic, Some is_ => Some (x, e, ic, is_)
  | _, _, _, _ => None
  end.

(** The guard of the [KEX_ECDH_REPLY] branch with the values it tests. *)
Definition ecdhContext (o : SSHConnectionOrchestrator)
  : option (CryptoKey * Uint8Array * Uint8Array * Uint8Array) :=
  match ephemeralPriv o, qc o, kexInitC o, kexInitS o with
  | Some priv, Some q, Some ic, Some is_ => Some (priv, q, ic, is_)
  | _, _, _, _ => None
  end.

(** The body shared by [CHANNEL_DATA] (offset 5) and
    [CHANNEL_EXTENDED_DATA] (offset 9). *)
Definition onChannelData (offset : Z) (p : Uint8Array) (o : SSHConnectionOrchestrator)
  : SSHConnectionOrchestrator :=
  match readBytes p offset with
  | None => o
  | Some data =>
      let o := set_dataBuffer (dataBuffer o ++ bytesValue data) o in
      let o := flushBuf o in
      if 0 <? len (bytesValue data) then
        sendEncrypted
          (concat [[byte.of_Z SSH_MSG_CHANNEL_WINDOW_ADJUST]; peerChannelId o;
                   writeUint32 (len (bytesValue data))]) o
      else o
  end.

Definition isNone {A} (x : option A) : bool :=
  match x with
  | None => true
  | Some _ => false
  end.

(** [processPayload(p)].  [p] is the payload and [behind] the bytes that
    follow it in its [ArrayBuffer]: none behind the copy that
    [parsePacket] makes with [slice], the rest of the decrypted packet
    behind the [subarray] view that [decrypt] returns.  The readers test
    the length of [p] before they build a [DataView]; the
    [CHANNEL_OPEN_CONFIRMATION] branch builds one on [p.buffer] without a
    test, and so can read [behind]. *)
Definition processPayload (p behind : Uint8Array) (o : SSHConnectionOrchestrator)
  : Completion * SSHConnectionOrchestrator :=
  match at_ p 0 with
  | None => (Normal, o)
  | Some msgType =>
  if msgType =? 2 then (Normal, o)
  else if msgType =? 1 then
    let reasonCode := if 5 <=? len p then getUint32 p 1 else 0 in
    let msg :=
      match readString p 5 with
      | Some desc => stringValue desc
      | None => ("reason_code=" ++ showZ reasonCode)%string
      end in
    (Normal, setFatal ("Server disconnected: " ++ msg) o)
  else if msgType =? 3 then (Normal, o)
  else if msgType =? 4 then (Normal, o)
  else if msgType =? SSH_MSG_EXT_INFO then (Normal, o)
  else if msgType =? SSH_MSG_GLOBAL_REQUEST then
    match readString p 1 with
    | None => (Normal, o)
    | Some reqName =>
        let wantReply :=
          (1 + stringConsumed reqName <? len p)
          && negb (byteAt p (Z.to_nat (1 + stringConsumed reqName)) 0) in
        if wantReply then
          let ok := String.eqb (stringValue reqName) "keepalive@openssh.com" in
          let reply :=
            [byte.of_Z (if ok then SSH_MSG_REQUEST_SUCCESS else SSH_MSG_REQUEST_FAILURE)] in
          (Normal, sendEncrypted reply o)
        else (Normal, o)
    end
  else if (msgType =? SSH_MSG_KEXINIT) && isNone (kexInitS o) then onKexInit p o
  else
  match (if msgType =? SSH_MSG_KEXDH_REPLY then dhContext o else None) with
  | Some (x, e, ic, is_) => onKexDHReply x e ic is_ p o
  | None =>
  match (if msgType =? SSH_MSG_KEX_ECDH_REPLY then ecdhContext o else None) with
  | Some (priv, q, ic, is_) => onKexECDHReply priv q ic is_ p o
  | None =>
  if msgType =? SSH_MSG_NEWKEYS then
    let o := set_useEncrypted true o in
    let serviceReq :=
      concat [[byte.of_Z SSH_MSG_SERVICE_REQUEST]; writeString "ssh-userauth"] in
    (Normal, sendEncrypted serviceReq o)
  else if msgType =? SSH_MSG_SERVICE_ACCEPT then
    match signedAuthRequest o with
    | None => (Abrupt (platformMessage NullTypeError), o)
    | Some authReq => (Normal, sendEncrypted authReq o)
    end
  else if msgType =? SSH_MSG_USERAUTH_FAILURE then
    let methods := readString p 1 in
    let hint :=
      if receivedPKOk o then "signature verification failed"%string
      else "server rejected key/cert"%string in
    let msg :=
      match methods with
      | Some m =>
          ("Auth failed (" ++ hint ++ "): "
           ++ (if String.eqb (stringValue m) "" then "publickey" else stringValue m))%string
      | None => ("Auth failed (" ++ hint ++ ")")%string
      end in
    (Normal, setFatal msg o)
  else if msgType =? SSH_MSG_USERAUTH_PK_OK then
    let o := set_receivedPKOk true o in
    match signedAuthRequest o with
    | None => (Abrupt (platformMessage NullTypeError), o)
    | Some authReq2 => (Normal, sendEncrypted authReq2 o)
    end
  else if msgType =? SSH_MSG_USERAUTH_SUCCESS then
    let chOpen :=
      concat [[byte.of_Z SSH_MSG_CHANNEL_OPEN]; writeString "session";
              map byte.of_Z [0; 0; 0; 1]; map byte.of_Z [0; 0; 128; 0];
              map byte.of_Z [0; 0; 32; 0]] in
    (Normal, sendEncrypted chOpen o)
  else if msgType =? SSH_MSG_CHANNEL_OPEN_CONFIRMATION then
    (* [new DataView(p.buffer, p.byteOffset + 1, 4)] raises a RangeError
       when fewer than four bytes of the buffer follow the first byte of
       [p]; the bytes it reads may lie behind [p]. *)
    if len p + len behind <? 5 then (Abrupt (platformMessage DataViewRangeError), o)
    else
      let o := set_channelId (getUint32 (p ++ behind) 1) o in
      let o := set_peerChannelId (slice p 5 9) o in
      let cols :=
        match options_cols (config o) with
        | Some c => c
        | None => DEFAULT_TERMINAL_COLS
        end in
      let rows :=
        match options_rows (config o) with
        | Some r => r
        | None => DEFAULT_TERMINAL_ROWS
        end in
      let ptyReq :=
        concat [[byte.of_Z SSH_MSG_CHANNEL_REQUEST]; peerChannelId o;
                writeString "pty-req"; [byte.of_Z 1];
                writeString DEFAULT_TERMINAL_TYPE; writeUint32 cols;
                writeUint32 rows; writeUint32 0; writeUint32 0;
                writeBytes [Byte.x00]] in
      (Normal, sendEncrypted ptyReq o)
  else if ((msgType =? SSH_MSG_CHANNEL_SUCCESS) || (msgType =? SSH_MSG_CHANNEL_FAILURE))
          && negb (shellSent o) then
    let o :=
      if msgType =? SSH_MSG_CHANNEL_FAILURE then
        let o :=
          if onError (config o) then
            emit (OnError "PTY request denied — shell may have no prompt or echo. Check cert has permit-pty.") o
          else o in
        if onPtyDenied (config o) then emit OnPtyDenied o else o
      else o in
    let shellReq :=
      concat [[byte.of_Z SSH_MSG_CHANNEL_REQUEST]; peerChannelId o;
              writeString "shell"; [byte.of_Z 1]] in
    let o := sendEncrypted shellReq o in
    (Normal, set_shellSent true o)
  else if msgType =? SSH_MSG_CHANNEL_DATA then (Normal, onChannelData 5 p o)
  else if msgType =? SSH_MSG_CHANNEL_EXTENDED_DATA then (Normal, onChannelData 9 p o)
  else (Normal, o)
  end end
  end.

(** The [while (true)] loop of [processEncryptedPackets].  Every round
    that continues removes a whole packet from [encryptedBuf], so
    [fuel] above the buffer length never runs out.  [r.payload] is a view
    into the decrypted packet, and reaches [processPayload] with the
    bytes that lie behind it there. *)
Fixpoint drainLoop (fuel : nat) (o : SSHConnectionOrchestrator)
  : Completion * SSHConnectionOrchestrator :=
  match fuel with
  | O => (Normal, o)
  | S fuel' =>
      match cipher (connState o) with
      | None => (Normal, o)
      | Some c =>
          match decrypt c (encryptedBuf o) with
          | (Throws err, c') =>
              let o := set_cipher (Some c') o in
              if isMacVerificationError err
              then (Normal, setFatal "SSH MAC verification failed" o)
              else (Normal, o)
          | (NeedMore, c') => (Normal, set_cipher (Some c') o)
          | (Decrypted r, c') =>
              let behind := behindPayload c (encryptedBuf o) in
              let o := set_cipher (Some c') o in
              let o := set_encryptedBuf (subarrayFrom (encryptedBuf o) (consumed r)) o in
              match processPayload (payload r) behind o with
              | (Abrupt m, o) => (Abrupt m, o)
              | (Normal, o) => drainLoop fuel' o
              end
          end
      end
  end.

Definition processEncryptedPackets (o : SSHConnectionOrchestrator)
  : Completion * SSHConnectionOrchestrator :=
  if draining o then (Normal, o)
  else
    let o := set_draining true o in
    let '(r, o) := drainLoop (S (length (encryptedBuf o))) o in
    (r, set_draining false o).

(** The [while (offset < d.length)] loop of [processUnencryptedPackets].
    [result.payload] is the copy that [parsePacket] made with [slice]: it
    fills its buffer, and nothing lies behind it. *)
Fixpoint plainLoop (fuel : nat) (d : Uint8Array) (offset : Z)
  (o : SSHConnectionOrchestrator) : Completion * SSHConnectionOrchestrator :=
  match fuel with
  | O => (Normal, o)
  | S fuel' =>
      if offset <? len d then
        match parsePacket (subarrayFrom d offset) with
        | None => (Normal, o)
        | Some result =>
            let offset := offset + consumed result in
            match processPayload (payload result) [] o with
            | (Abrupt m, o) => (Abrupt m, o)
            | (Normal, o) =>
                if useEncrypted o then
                  let o :=
                    set_encryptedBuf
                      (concat [encryptedBuf o; subarrayFrom d offset]) o in
                  processEncryptedPackets o
                else plainLoop fuel' d offset o
            end
        end
      else (Normal, o)
  end.

Definition processUnencryptedPackets (d : Uint8Array) (o : SSHConnectionOrchestrator)
  : Completion * SSHConnectionOrchestrator :=
  plainLoop (S (length d)) d 0 o.

(** The first step of [handleRawData]: while no server identification is
    recorded the chunk goes through [extractServerIdent], afterwards it is
    protocol data as it stands.  [None] is the early [return]. *)
Definition identStage (d : Uint8Array) (o : SSHConnectionOrchestrator)
  : option Uint8Array * SSHConnectionOrchestrator :=
  if String.eqb (serverIdent (connState o)) ""
  then extractServerIdent d o
  else (Some d, o).

(** The second step: protocol data goes to the plain or to the encrypted
    packet loop. *)
Definition packetStage (d : Uint8Array) (o : SSHConnectionOrchestrator)
  : Completion * SSHConnectionOrchestrator :=
  if negb (useEncrypted o) then processUnencryptedPackets d o
  else
    let o := set_encryptedBuf (concat [encryptedBuf o; d]) o in
    processEncryptedPackets o.

Definition handleRawData (d : Uint8Array) (o : SSHConnectionOrchestrator)
  : Completion * SSHConnectionOrchestrator :=
  if fatalError o then (Normal, o)
  else
    let '(d', o) := identStage d o in
    match d' with
    | None => (Normal, o)
    | Some d => packetStage d o
    end.

(** [ws.onmessage] for a binary frame: a rejection of [handleRawData]
    becomes a fatal error. *)
Definition handleMessage (d : Uint8Array) (o : SSHConnectionOrchestrator)
  : SSHConnectionOrchestrator :=
  match handleRawData d o with
  | (Normal, o) => o
  | (Abrupt m, o) => setFatal m o
  end.

(** [ws.onclose] *)
Definition handleClose (code : Z) (reason : string) (wasClean : bool)
  (o : SSHConnectionOrchestrator) : SSHConnectionOrchestrator :=
  if negb (fatalError o) && (code =? 1000) && String.eqb reason "session ended" then
    setFatal "Session ended by server" o
  else if negb (fatalError o) && negb wasClean then
    setFatal ("Connection closed: "
              ++ (if String.eqb reason "" then "code " ++ showZ code else reason)) o
  else o.

(** The public API returned by [getPublicAPI]: [write] with its argument
    already encoded to bytes, [onData], [resize]. *)
Definition api_write (b : Uint8Array) (o : SSHConnectionOrchestrator)
  : SSHConnectionOrchestrator :=
  if negb (shellSent o) then o
  else
    (* [payload.set(this.peerChannelId, 1)] on the zero-filled array: a
       channel id shorter than four bytes leaves zeros behind it.  The id
       never has more than four bytes: it starts as four and is only
       assigned [p.slice(5, 9)]. *)
    sendEncrypted
      (concat [[byte.of_Z SSH_MSG_CHANNEL_DATA];
               firstn 4 (peerChannelId o ++ repeat Byte.x00 4);
               writeUint32 (len b); b]) o.

Definition api_onData (o : SSHConnectionOrchestrator) : SSHConnectionOrchestrator :=
  flushBuf (set_dataCallback true o).

Definition api_resize (cols rows : Z) (o : SSHConnectionOrchestrator)
  : SSHConnectionOrchestrator :=
  if channelId o =? 0 then o
  else
    sendEncrypted
      (concat [[byte.of_Z SSH_MSG_CHANNEL_REQUEST]; peerChannelId o;
               writeString "window-change"; [Byte.x00]; writeUint32 cols;
               writeUint32 rows; writeUint32 0; writeUint32 0]) o.

(** ** Vocabulary of the statements

    Functions and predicates that the theorems below are stated with: what
    a decrypt call reads from its buffer, how an encrypted packet is
    tampered with, and how a sequence of chunks is fed to the
    orchestrator. *)

(** The block loop as a function of the bytes still to be processed. *)
Fixpoint ctrStream (blocks : nat) (key : CryptoKey) (iv data : Uint8Array)
  : Uint8Array * Uint8Array :=
  match blocks with
  | O => ([], iv)
  | S k =>
      let r := ctrStream k key (incrementCounter iv 1) (skipn 16 data) in
      (subtleAesCtr key iv (firstn 16 data) ++ fst r, snd r)
  end.

(** Bytes a call needs before it can read the packet length. *)
Definition headerSize (c : TransportCipher) : Z :=
  if macEtm c then 4 else AES_BLOCK_SIZE.

(** The packet length on the wire: in the clear in ETM mode, in the
    decrypted first block in MtE mode. *)
Definition wirePacketLength (c : TransportCipher) (data : Uint8Array) : Z :=
  if macEtm c then getUint32 data 0
  else
    getUint32
      (fst (decryptAES128CTR (keyDec c) (ivDec c) (subarray data 0 AES_BLOCK_SIZE))) 0.

Definition bufferTooShort (c : TransportCipher) (data : Uint8Array) : Prop :=
  len data < headerSize c + HMAC_SHA256_SIZE
  \/ len data < 4 + wirePacketLength c data + HMAC_SHA256_SIZE.

Definition packetLengthInvalid (c : TransportCipher) (data : Uint8Array) : Prop :=
  wirePacketLength c data < 5 \/ MAX_PACKET_SIZE < wirePacketLength c data.

(** The encrypted bytes of the packet, and their decryption under the
    inbound key and counter. *)
Definition receivedCiphertext (c : TransportCipher) (data : Uint8Array) : Uint8Array :=
  if macEtm c then subarray data 4 (4 + wirePacketLength c data)
  else subarray data 0 (4 + wirePacketLength c data).

Definition receivedPlaintext (c : TransportCipher) (data : Uint8Array) : Uint8Array :=
  fst (decryptAES128CTR (keyDec c) (ivDec c) (receivedCiphertext c data)).

Definition ivAfterPacket (c : TransportCipher) (data : Uint8Array) : Uint8Array :=
  snd (decryptAES128CTR (keyDec c) (ivDec c) (receivedCiphertext c data)).

(** Offset of the padding-length byte in the plaintext. *)
Definition padOffset (c : TransportCipher) : nat :=
  if macEtm c then 0%nat else 4%nat.

Definition receivedPadLen (c : TransportCipher) (data : Uint8Array) : Z :=
  byte.unsigned (nth (padOffset c) (receivedPlaintext c data) Byte.x00).

Definition paddingInvalid (c : TransportCipher) (data : Uint8Array) : Prop :=
  receivedPadLen c data < 4 \/ wirePacketLength c data - 1 < receivedPadLen c data.

Definition receivedMac (c : TransportCipher) (data : Uint8Array) : Uint8Array :=
  subarray data (4 + wirePacketLength c data)
    (4 + wirePacketLength c data + HMAC_SHA256_SIZE).

(** The bytes the MAC is computed over: the sequence number, then the
    length field and the ciphertext in ETM mode, the plaintext in MtE
    mode. *)
Definition authenticatedBytes (c : TransportCipher) (data : Uint8Array) : Uint8Array :=
  if macEtm c
  then concat [writeUint32 (seqIn c); subarray data 0 4; receivedCiphertext c data]
  else concat [writeUint32 (seqIn c); receivedPlaintext c data].

Definition expectedMac (c : TransportCipher) (data : Uint8Array) : Uint8Array :=
  computeHMACSHA256 (macS c) (authenticatedBytes c data).

Definition macMismatch (c : TransportCipher) (data : Uint8Array) : Prop :=
  receivedMac c data <> expectedMac c data.

(** The result of a successful call. *)
Definition decryptedPacket (c : TransportCipher) (data : Uint8Array) : DecryptResult :=
  let start := Z.of_nat (padOffset c) + 1 in
  mkParsedPacket
    (subarray (receivedPlaintext c data) start
       (start + (wirePacketLength c data - 1 - receivedPadLen c data)))
    (4 + wirePacketLength c data + HMAC_SHA256_SIZE).

(** [s] decrypts what [c] encrypts: the inbound key, counter, MAC key and
    sequence number of [s] are the outbound ones of [c], in the same MAC
    mode. *)
Definition mirror (c s : TransportCipher) : Prop :=
  ivDec s = ivEnc c /\ keyDec s = keyEnc c /\ macS s = macC c
  /\ seqIn s = seqOut c /\ macEtm s = macEtm c.

(** [data[i] ^= 1 << bit] *)
Definition flipBit (data : Uint8Array) (i bit : nat) : Uint8Array :=
  match nth_error data i with
  | Some b =>
      firstn i data ++ byte.xor b (byte.of_Z (2 ^ Z.of_nat bit)) :: skipn (S i) data
  | None => data
  end.

(** First byte of an encrypted packet that lies behind the fields read
    before the MAC is verified: the length field in ETM mode, the length
    field and the padding length in MtE mode. *)
Definition bodyStart (c : TransportCipher) : nat :=
  if macEtm c then 4%nat else 5%nat.

(** The unsigned big-endian value of a byte string. *)
Definition beValue (b : Uint8Array) : Z :=
  fold_left (fun n x => n * 256 + byte.unsigned x) b 0.


(** The frames given to the socket, in order. *)
Definition framesSent (t : list Event) : list Uint8Array :=
  flat_map (fun e => match e with WsSend d => [d] | _ => [] end) t.

(** [o'] has the socket in the state it has in [o], and if that state is
    not open, the same frames given to it. *)
Definition quiet (o o' : SSHConnectionOrchestrator) : Prop :=
  wsOpen o' = wsOpen o
  /\ (wsOpen o = false -> framesSent (trace o') = framesSent (trace o)).

(** [o'] has the receive buffers, the drain flag and the configuration
    of [o]. *)
Definition sameBuffers (o o' : SSHConnectionOrchestrator) : Prop :=
  encryptedBuf o' = encryptedBuf o /\ identBuf o' = identBuf o
  /\ draining o' = draining o /\ config o' = config o.

(** The ways into the orchestrator: [start], the socket's message and
    close events, and the calls of the public API. *)
Inductive Call :=
| Start
| Message (d : Uint8Array)
| Close (code : Z) (reason : string) (wasClean : bool)
| Write (b : Uint8Array)
| Resize (cols rows : Z)
| OnData.

Definition perform (o : SSHConnectionOrchestrator) (c : Call)
  : SSHConnectionOrchestrator :=
  match c with
  | Start => start o
  | Message d => handleMessage d o
  | Close code reason wasClean => handleClose code reason wasClean o
  | Write b => api_write b o
  | Resize cols rows => api_resize cols rows o
  | OnData => api_onData o
  end.

(** The three numbers that the [KEXDH_REPLY] branch hands to
    [writeBigintMpint], in the order of the calls: [dhE], then [f] as
    [readMpint] returned it, then [k = computeDHSharedSecret(f, dhX)].
    [None] where the branch stops at a parse error. *)
Definition kexDHMpints (x e : Z) (p : Uint8Array) : option (Z * Z * Z) :=
  match readBytes p 1 with
  | None => None
  | Some ks =>
      match readMpint p (1 + bytesConsumed ks) with
      | None => None
      | Some fMpint =>
          let f := bigintValue fMpint in
          Some (e, f, computeDHSharedSecret f x)
      end
  end.

(** What can reach a trapped orchestrator from outside: an inbound chunk,
    a close event, or another fatal condition. *)
Inductive Stimulus :=
| Chunk (d : Uint8Array)
| Closed (code : Z) (reason : string) (wasClean : bool)
| Fatal (msg : string).

Definition react (o : SSHConnectionOrchestrator) (e : Stimulus)
  : SSHConnectionOrchestrator :=
  match e with
  | Chunk d => handleMessage d o
  | Closed code reason wasClean => handleClose code reason wasClean o
  | Fatal msg => setFatal msg o
  end.

(** Number of [onError] calls in a trace. *)
Definition onErrorCalls (t : list Event) : nat :=
  length (filter (fun e => match e with OnError _ => true | _ => false end) t).

(** The two chunks of the scenario and the byte stream they form. *)
Definition identChunk1 : Uint8Array := bytesOf "garbage-before-".
Definition identChunk2 : Uint8Array :=
  bytesOf "SSH-2.0-server" ++ [Byte.x0d; Byte.x0a] ++ bytesOf "MORE".
Definition identStream : Uint8Array := identChunk1 ++ identChunk2.

(** The search of [extractServerIdent] as a function of the combined
    buffer: the identification bytes and the bytes after the terminator. *)
Definition scanIdent (combined : Uint8Array) : option (Uint8Array * Uint8Array) :=
  match
    findIndex
      (fun i => (Z.of_nat i <=? len combined - 4)
                && byteAt combined i 83 && byteAt combined (i + 1) 83
                && byteAt combined (i + 2) 72 && byteAt combined (i + 3) 45)
      (length combined)
  with
  | None => None
  | Some sshStart =>
      let afterIdent := subarrayFrom combined (Z.of_nat sshStart) in
      let crlf :=
        findIndex
          (fun i => (Z.of_nat i <? len afterIdent - 1)
                    && byteAt afterIdent i 13 && byteAt afterIdent (i + 1) 10)
          (length afterIdent) in
      let endTerm :=
        match crlf with
        | Some e => Some (e, 2)
        | None =>
            match findIndex (fun i => byteAt afterIdent i 10) (length afterIdent) with
            | Some e => Some (e, 1)
            | None => None
            end
        end in
      match endTerm with
      | None => None
      | Some (e, termLen) =>
          let restStart := Z.of_nat sshStart + Z.of_nat e + termLen in
          Some (subarray afterIdent 0 (Z.of_nat e),
                if restStart <? len combined
                then subarrayFrom combined restStart else [])
      end
  end.

(** The protocol bytes that [handleRawData] hands to the packet stage
    for one chunk. *)
Definition routedBytes (d : Uint8Array) (o : SSHConnectionOrchestrator) : Uint8Array :=
  if fatalError o then []
  else
    match fst (identStage d o) with
    | Some r => r
    | None => []
    end.

(** Feeds the chunks in order; returns the protocol bytes routed to the
    packet stage and the final state. *)
Fixpoint feed (chunks : list Uint8Array) (o : SSHConnectionOrchestrator)
  : Uint8Array * SSHConnectionOrchestrator :=
  match chunks with
  | [] => ([], o)
  | d :: rest =>
      let r := feed rest (handleMessage d o) in
      (routedBytes d o ++ fst r, snd r)
  end.

(** * Verification *)

(** ** Arrays and the packet codec *)

Lemma len_app (a b : Uint8Array) : len (a ++ b) = len a + len b.
Proof. unfold len. rewrite length_app. lia. Qed.

Lemma len_nonneg (a : Uint8Array) : 0 <= len a.
Proof. unfold len. lia. Qed.

Lemma len_writeUint32 (n : Z) : len (writeUint32 n) = 4.
Proof. reflexivity. Qed.

Lemma unsigned_of_Z_small (z : Z) :
  0 <= z < 256 -> byte.unsigned (byte.of_Z z) = z.
Proof.
  intros H. rewrite byte.unsigned_of_Z. unfold byte.wrap.
  apply Z.mod_small. lia.
Qed.

Lemma getUint32_writeUint32 (n : Z) (rest : Uint8Array) :
  0 <= n < 2 ^ 32 -> getUint32 (writeUint32 n ++ rest) 0 = n.
Proof.
  intros H. unfold getUint32, writeUint32. cbn [nth app Nat.add].
  rewrite (Z.mod_small n) by lia.
  rewrite !byte.unsigned_of_Z. unfold byte.wrap.
  change (2 ^ 8) with 256. change (2 ^ 16) with 65536.
  change (2 ^ 24) with 16777216. change (2 ^ 32) with 4294967296 in H.
  clear - H. Z.div_mod_to_equations. lia.
Qed.

Lemma calculatePadding_range (l : Z) (etm : bool) :
  4 <= calculatePadding l etm <= 19.
Proof.
  unfold calculatePadding, MIN_PADDING, AES_BLOCK_SIZE.
  destruct etm.
  - pose proof (Z.mod_pos_bound (16 - (1 + l + 4) mod 16) 16 ltac:(lia)). lia.
  - pose proof (Z.mod_pos_bound (16 - (5 + l + 4) mod 16) 16 ltac:(lia)). lia.
Qed.

Lemma len_getRandomValues (rnd : nat -> byte) (n : nat) :
  len (getRandomValues rnd n) = Z.of_nat n.
Proof. unfold len, getRandomValues. now rewrite length_map, length_seq. Qed.

Lemma len_buildPacket (rnd : nat -> byte) (p : Uint8Array) (etm : bool) :
  len (buildPacket rnd p etm) = 4 + (1 + len p + calculatePadding (len p) etm).
Proof.
  pose proof (calculatePadding_range (len p) etm).
  unfold buildPacket. rewrite !len_app, len_getRandomValues, len_writeUint32.
  change (len [byte.of_Z (calculatePadding (len p) etm)]) with 1. lia.
Qed.

(** Slicing out the middle of three concatenated arrays. *)
Lemma slice_middle (a b c : Uint8Array) :
  slice (a ++ b ++ c) (len a) (len a + len b) = b.
Proof.
  unfold slice, relIndex.
  pose proof (len_nonneg a). pose proof (len_nonneg b). pose proof (len_nonneg c).
  rewrite !len_app.
  destruct (Z.ltb_spec (len a) 0); [lia|].
  destruct (Z.ltb_spec (len a + len b) 0); [lia|].
  rewrite !Z.min_l by lia.
  replace (len a + len b - len a) with (len b) by lia.
  unfold len. rewrite !Nat2Z.id.
  rewrite skipn_app, skipn_all, Nat.sub_diag. cbn [app skipn].
  rewrite firstn_app, firstn_all, Nat.sub_diag. cbn [firstn]. apply app_nil_r.
Qed.

(** C4: for every payload of at most MAX_PACKET_SIZE - 256 bytes and both
    values of [etm], parsing the packet built from the payload succeeds,
    returns the payload and consumes the whole packet. *)
Theorem parsePacket_buildPacket (rnd : nat -> byte) (p : Uint8Array) (etm : bool) :
  len p <= MAX_PACKET_SIZE - 256 ->
  parsePacket (buildPacket rnd p etm)
  = Some (mkParsedPacket p (len (buildPacket rnd p etm))).
Proof.
  intros Hp. unfold MAX_PACKET_SIZE in Hp.
  pose proof (calculatePadding_range (len p) etm) as Hpad.
  pose proof (len_nonneg p) as Hnn.
  pose proof (len_buildPacket rnd p etm) as Hlen.
  unfold parsePacket.
  destruct (Z.ltb_spec (len (buildPacket rnd p etm)) 5) as [Hlt|_]; [lia|].
  assert (Hplen : getUint32 (buildPacket rnd p etm) 0
                  = 1 + len p + calculatePadding (len p) etm).
  { unfold buildPacket. apply getUint32_writeUint32.
    change (2 ^ 32) with 4294967296. lia. }
  rewrite Hplen.
  destruct (Z.ltb_spec (len (buildPacket rnd p etm))
              (4 + (1 + len p + calculatePadding (len p) etm))) as [Hlt|_]; [lia|].
  assert (Hpb : nth 4 (buildPacket rnd p etm) Byte.x00
                = byte.of_Z (calculatePadding (len p) etm)) by reflexivity.
  rewrite Hpb, unsigned_of_Z_small by lia.
  rewrite Hlen. f_equal. f_equal.
  replace (1 + len p + calculatePadding (len p) etm - 1
           - calculatePadding (len p) etm) with (len p) by lia.
  unfold buildPacket.
  set (hd := writeUint32 (1 + len p + calculatePadding (len p) etm)).
  set (pb := byte.of_Z (calculatePadding (len p) etm)).
  set (tl := getRandomValues rnd (Z.to_nat (calculatePadding (len p) etm))).
  change (hd ++ [pb] ++ p ++ tl) with ((hd ++ [pb]) ++ p ++ tl).
  apply (slice_middle (hd ++ [pb]) p tl).
Qed.

(** ** Multi-precision integers *)

Lemma writeBigintMpint_opp (n : Z) :
  n < 0 -> writeBigintMpint n = writeBigintMpint (- n).
Proof.
  intros Hn. unfold writeBigintMpint.
  destruct (Z.eqb_spec n 0) as [?|_]; [lia|].
  destruct (Z.eqb_spec (- n) 0) as [?|_]; [lia|].
  destruct (Z.ltb_spec n 0) as [_|?]; [|lia].
  destruct (Z.ltb_spec (- n) 0) as [?|_]; [lia|].
  reflexivity.
Qed.

(** The mpint scenarios of the spec, and the encoding of [-1]: the sign is
    dropped where two's complement would give the single byte [ff]. *)
Example writeBigintMpint_256 :
  writeBigintMpint 256 = map byte.of_Z [0; 0; 0; 2; 1; 0].
Proof. reflexivity. Qed.

Example writeBigintMpint_128 :
  writeBigintMpint 128 = map byte.of_Z [0; 0; 0; 2; 0; 128].
Proof. reflexivity. Qed.

Example writeBigintMpint_0 : writeBigintMpint 0 = map byte.of_Z [0; 0; 0; 0].
Proof. reflexivity. Qed.

Example writeBigintMpint_minus_1 :
  writeBigintMpint (-1) = map byte.of_Z [0; 0; 0; 1; 1].
Proof. reflexivity. Qed.

(** ** Algorithm negotiation *)

Lemma includes_In (l : list string) (a : string) : includes l a = true <-> In a l.
Proof.
  unfold includes. rewrite existsb_exists. split.
  - intros [x [Hin Heq]]. apply String.eqb_eq in Heq. now subst.
  - intros Hin. exists a. split; [assumption | apply String.eqb_refl].
Qed.

Lemma selectAlgorithm_Some (ours server : list string) (a : string) :
  selectAlgorithm ours server = Some a <->
  exists before after,
    ours = before ++ a :: after /\ In a server
    /\ forall x, In x before -> ~ In x server.
Proof.
  unfold selectAlgorithm. induction ours as [|o rest IH]; cbn [find].
  - split; [discriminate|]. intros (b & t & H & _). now destruct b.
  - destruct (includes server o) eqn:Ho.
    + split.
      * intros [= <-]. exists [], rest. repeat split.
        -- now apply includes_In.
        -- intros x [].
      * intros (b & t & H & Hin & Hfirst). destruct b as [|b0 b].
        -- now injection H as ->.
        -- injection H as <- _. exfalso. apply (Hfirst o); [now left|].
           now apply includes_In.
    + rewrite IH. split.
      * intros (b & t & -> & Hin & Hfirst). exists (o :: b), t. repeat split; auto.
        intros x [<-|Hx]; [|now apply Hfirst].
        intros Hin'. apply includes_In in Hin'. congruence.
      * intros (b & t & H & Hin & Hfirst). destruct b as [|b0 b].
        -- injection H as <- _. apply includes_In in Hin. congruence.
        -- injection H as _ ->. exists b, t. repeat split; auto.
           intros x Hx. apply Hfirst. now right.
Qed.

Lemma selectAlgorithm_None (ours server : list string) :
  selectAlgorithm ours server = None <-> forall x, In x ours -> ~ In x server.
Proof.
  unfold selectAlgorithm. split.
  - intros H x Hx Hs.
    apply (find_none _ _ H) in Hx. apply includes_In in Hs. congruence.
  - intros H. destruct (find _ ours) eqn:E; [|reflexivity].
    apply find_some in E. destruct E as [Hin Hinc].
    apply includes_In in Hinc. now elim (H s).
Qed.

Lemma falsy_false (x : option string) :
  falsy x = false <-> exists s, x = Some s /\ s <> ""%string.
Proof.
  destruct x as [s|]; cbn.
  - rewrite String.eqb_neq. split.
    + intros H. now exists s.
    + now intros (s' & [= <-] & H).
  - split; [discriminate|]. now intros (s & H & _).
Qed.

(** C7 (amended): [selectAlgorithm] returns the first element of the
    client's list that occurs in the server's list, and [null] when there
    is none; [negotiateAlgorithms] returns the triple of the three
    selections exactly when each selection yields a non-empty name, and
    [null] otherwise. *)
Theorem negotiation_first_match
  (preferredKex preferredCipher preferredMac serverKex serverCipher serverMac : list string) :
  (forall ours server a,
      selectAlgorithm ours server = Some a <->
      exists before after,
        ours = before ++ a :: after /\ In a server
        /\ forall x, In x before -> ~ In x server)
  /\ (forall ours server,
         selectAlgorithm ours server = None <->
         forall x, In x ours -> ~ In x server)
  /\ (forall t,
         negotiateAlgorithms preferredKex preferredCipher preferredMac
           serverKex serverCipher serverMac = Some t <->
         selectAlgorithm preferredKex serverKex = Some (neg_kex t)
         /\ selectAlgorithm preferredCipher serverCipher = Some (neg_cipher t)
         /\ selectAlgorithm preferredMac serverMac = Some (neg_mac t)
         /\ neg_kex t <> ""%string /\ neg_cipher t <> ""%string
         /\ neg_mac t <> ""%string).
Proof.
  split; [exact selectAlgorithm_Some|].
  split; [exact selectAlgorithm_None|].
  intros t. unfold negotiateAlgorithms.
  destruct (selectAlgorithm preferredKex serverKex) as [k|] eqn:Ek;
    destruct (selectAlgorithm preferredCipher serverCipher) as [c|] eqn:Ec;
    destruct (selectAlgorithm preferredMac serverMac) as [m|] eqn:Em;
    cbn [falsy orb];
    try (rewrite ?orb_true_r; split; [discriminate | intros (? & ? & ? & _); discriminate]).
  destruct (String.eqb_spec k ""), (String.eqb_spec c ""), (String.eqb_spec m "");
    cbn [orb];
    try (split; [discriminate | intros ([= <-] & [= <-] & [= <-] & ? & ? & ?); congruence]).
  split.
  - intros [= <-]. cbn. repeat split; assumption.
  - intros ([= ->] & [= ->] & [= ->] & _). now destruct t.
Qed.

(** ** Bytes: exclusive or and constant-time comparison *)

Lemma lxor_byte_range (a b : Z) :
  0 <= a < 256 -> 0 <= b < 256 -> 0 <= Z.lxor a b < 256.
Proof.
  intros Ha Hb. split; [apply Z.lxor_nonneg; lia|].
  destruct (Z.eq_dec (Z.lxor a b) 0) as [->|Hne]; [lia|].
  assert (Hpos : 0 < Z.lxor a b).
  { pose proof (proj2 (Z.lxor_nonneg a b) ltac:(lia)). lia. }
  change 256 with (2 ^ 8). apply Z.log2_lt_pow2; [assumption|].
  pose proof (Z.log2_lxor a b ltac:(lia) ltac:(lia)) as Hl.
  assert (Hla : Z.log2 a < 8).
  { destruct (Z.eq_dec a 0) as [->|]; [reflexivity|].
    apply Z.log2_lt_pow2; [lia|]. change (2 ^ 8) with 256. lia. }
  assert (Hlb : Z.log2 b < 8).
  { destruct (Z.eq_dec b 0) as [->|]; [reflexivity|].
    apply Z.log2_lt_pow2; [lia|]. change (2 ^ 8) with 256. lia. }
  lia.
Qed.

Lemma unsigned_range_256 (b : byte) : 0 <= byte.unsigned b < 256.
Proof. exact (byte.unsigned_range b). Qed.

Lemma unsigned_xor (a b : byte) :
  byte.unsigned (byte.xor a b) = Z.lxor (byte.unsigned a) (byte.unsigned b).
Proof.
  unfold byte.xor. apply unsigned_of_Z_small.
  apply lxor_byte_range; apply unsigned_range_256.
Qed.

Lemma xor_involutive (a k : byte) : byte.xor (byte.xor a k) k = a.
Proof.
  apply byte.unsigned_inj. rewrite !unsigned_xor.
  now rewrite Z.lxor_assoc, Z.lxor_nilpotent, Z.lxor_0_r.
Qed.

Lemma xor_changes (b m : byte) : m <> Byte.x00 -> byte.xor b m <> b.
Proof.
  intros Hm Heq. apply Hm. apply byte.unsigned_inj.
  apply (f_equal byte.unsigned) in Heq. rewrite unsigned_xor in Heq.
  change (byte.unsigned Byte.x00) with 0.
  apply (f_equal (Z.lxor (byte.unsigned b))) in Heq.
  now rewrite <- Z.lxor_assoc, Z.lxor_nilpotent, Z.lxor_0_l in Heq.
Qed.

Lemma diff_fold_zero (l : list (byte * byte)) (d : Z) :
  fold_left
    (fun diff xy => Z.lor diff (Z.lxor (byte.unsigned (fst xy)) (byte.unsigned (snd xy))))
    l d = 0
  <-> d = 0 /\ Forall (fun xy => fst xy = snd xy) l.
Proof.
  revert d. induction l as [|[x y] l IH]; intros d; cbn [fold_left fst snd].
  - split; [intros ->; now split | now intros [-> _]].
  - rewrite IH, Z.lor_eq_0_iff, Z.lxor_eq_0_iff. split.
    + intros [[-> Hxy] Hl]. split; [reflexivity|].
      constructor; [now apply byte.unsigned_inj | assumption].
    + intros [-> Hl]. inversion Hl; subst. cbn in *. subst. now repeat split.
Qed.

Lemma combine_eq_Forall (a b : Uint8Array) :
  length a = length b ->
  Forall (fun xy => fst xy = snd xy) (combine a b) <-> a = b.
Proof.
  revert b. induction a as [|x a IH]; intros [|y b] Hlen; try discriminate.
  - split; [reflexivity | constructor].
  - cbn [combine]. injection Hlen as Hlen. split.
    + intros H. inversion H; subst. cbn in *. subst. f_equal. now apply IH.
    + intros [= -> ->]. constructor; [reflexivity | now apply IH].
Qed.

(** The comparison loop decides equality of the two arrays. *)
Lemma constantTimeEqual_iff (a b : Uint8Array) :
  constantTimeEqual a b = true <-> a = b.
Proof.
  unfold constantTimeEqual.
  destruct (Nat.eqb_spec (length a) (length b)) as [Hlen|Hlen]; cbn [negb].
  - rewrite Z.eqb_eq, diff_fold_zero. rewrite combine_eq_Forall by assumption.
    split; [now intros [_ H] | now split].
  - split; [discriminate | intros ->; contradiction].
Qed.

(** ** AES-CTR *)

Lemma length_subtleAesCtr (key : CryptoKey) (counter data : Uint8Array) :
  length (subtleAesCtr key counter data) = length data.
Proof.
  unfold subtleAesCtr. rewrite length_map, length_combine, length_seq.
  apply Nat.min_id.
Qed.

Lemma subtleAesCtr_involutive (key : CryptoKey) (counter data : Uint8Array) :
  subtleAesCtr key counter (subtleAesCtr key counter data) = data.
Proof.
  unfold subtleAesCtr. rewrite length_map, length_combine, length_seq, Nat.min_id.
  generalize 0%nat as s.
  induction data as [|b data IH]; intros s; [reflexivity|].
  cbn [length seq combine map fst snd]. rewrite xor_involutive. f_equal. apply IH.
Qed.

Lemma subtleAesCtr_firstn (key : CryptoKey) (counter data : Uint8Array) (k : nat) :
  subtleAesCtr key counter (firstn k data) = firstn k (subtleAesCtr key counter data).
Proof.
  unfold subtleAesCtr. generalize 0%nat as s. revert k.
  induction data as [|b data IH]; intros k s.
  - now rewrite !firstn_nil.
  - destruct k as [|k]; [reflexivity|].
    cbn [firstn length seq combine map fst snd]. f_equal. apply IH.
Qed.

(** [slice] and [subarray] on natural-number bounds. *)
Lemma slice_nat (a : Uint8Array) (s e : nat) :
  slice a (Z.of_nat s) (Z.of_nat e) = firstn (e - s) (skipn s a).
Proof.
  unfold slice, relIndex, len.
  destruct (Z.ltb_spec (Z.of_nat s) 0); [lia|].
  destruct (Z.ltb_spec (Z.of_nat e) 0); [lia|].
  destruct (Nat.le_gt_cases (length a) s) as [Hs|Hs].
  - rewrite (Z.min_r (Z.of_nat s)) by lia. rewrite Nat2Z.id.
    rewrite !skipn_all2 by lia. now rewrite !firstn_nil.
  - rewrite (Z.min_l (Z.of_nat s)) by lia. rewrite Nat2Z.id.
    destruct (Nat.le_gt_cases e (length a)) as [He|He].
    + rewrite Z.min_l by lia. f_equal. lia.
    + rewrite Z.min_r by lia.
      rewrite !firstn_all2; [reflexivity | rewrite length_skipn; lia
                            | rewrite length_skipn; lia].
Qed.

Lemma subarray_nat (a : Uint8Array) (s e : nat) :
  subarray a (Z.of_nat s) (Z.of_nat e) = firstn (e - s) (skipn s a).
Proof. apply slice_nat. Qed.

Lemma subarrayFrom_nat (a : Uint8Array) (s : nat) :
  subarrayFrom a (Z.of_nat s) = skipn s a.
Proof.
  unfold subarrayFrom, len. rewrite subarray_nat.
  apply firstn_all2. rewrite length_skipn. lia.
Qed.

Lemma ctrBlocks_stream (blocks : nat) (key : CryptoKey) (iv input : Uint8Array)
  (off : nat) (out : Uint8Array) :
  (off <= length input)%nat ->
  ctrBlocks blocks key iv input (Z.of_nat off) out
  = (out ++ fst (ctrStream blocks key iv (skipn off input)),
     snd (ctrStream blocks key iv (skipn off input))).
Proof.
  revert iv off out. induction blocks as [|k IH]; intros iv off out Hoff.
  - cbn. now rewrite app_nil_r.
  - cbn [ctrBlocks ctrStream fst snd]. unfold AES_BLOCK_SIZE, len.
    set (bl := Z.min 16 (Z.of_nat (length input) - Z.of_nat off)).
    assert (Hbl : bl = Z.of_nat (Nat.min 16 (length input - off))) by lia.
    rewrite Hbl, <- Nat2Z.inj_add.
    rewrite subarray_nat, IH by lia.
    replace (off + Nat.min 16 (length input - off) - off)%nat
      with (Nat.min 16 (length input - off)) by lia.
    assert (Hfirst : firstn (Nat.min 16 (length input - off)) (skipn off input)
                     = firstn 16 (skipn off input)).
    { destruct (Nat.le_gt_cases 16 (length input - off)).
      - now rewrite Nat.min_l by lia.
      - rewrite Nat.min_r by lia.
        rewrite !firstn_all2; [reflexivity | rewrite length_skipn; lia
                              | rewrite length_skipn; lia]. }
    assert (Hskip : skipn (off + Nat.min 16 (length input - off)) input
                    = skipn 16 (skipn off input)).
    { rewrite skipn_skipn.
      destruct (Nat.le_gt_cases 16 (length input - off)).
      - rewrite Nat.min_l by lia. f_equal. lia.
      - rewrite Nat.min_r by lia. rewrite !skipn_all2; [reflexivity | lia | lia]. }
    rewrite Hfirst, Hskip, <- app_assoc. reflexivity.
Qed.

Lemma decryptAES128CTR_stream (key : CryptoKey) (iv data : Uint8Array) :
  decryptAES128CTR key iv data = ctrStream (blockCount (len data)) key iv data.
Proof.
  unfold decryptAES128CTR.
  rewrite (ctrBlocks_stream _ key iv data 0 []) by lia.
  cbn [skipn app]. now destruct (ctrStream _ key iv data).
Qed.

Lemma encryptAES128CTR_stream (key : CryptoKey) (iv data : Uint8Array) :
  encryptAES128CTR key iv data = ctrStream (blockCount (len data)) key iv data.
Proof. apply decryptAES128CTR_stream. Qed.

Lemma blockCount_bound (n : nat) :
  (n <= 16 * blockCount (Z.of_nat n))%nat.
Proof.
  unfold blockCount, AES_BLOCK_SIZE.
  assert (H : Z.of_nat n <= 16 * ((Z.of_nat n + 16 - 1) / 16)).
  { clear. Z.div_mod_to_equations. lia. }
  assert (0 <= (Z.of_nat n + 16 - 1) / 16) by (apply Z.div_pos; lia).
  lia.
Qed.

Lemma blockCount_succ (n : Z) :
  0 < n -> blockCount (16 + n) = S (blockCount n).
Proof.
  intros Hn. unfold blockCount, AES_BLOCK_SIZE.
  replace (16 + n + 16 - 1) with (1 * 16 + (n + 16 - 1)) by lia.
  rewrite Z.div_add_l by lia.
  assert (0 <= (n + 16 - 1) / 16) by (apply Z.div_pos; lia).
  rewrite Z2Nat.inj_add by lia. reflexivity.
Qed.

Lemma blockCount_one (n : Z) : 0 < n <= 16 -> blockCount n = 1%nat.
Proof.
  intros Hn. unfold blockCount, AES_BLOCK_SIZE.
  replace ((n + 16 - 1) / 16) with 1; [reflexivity|].
  clear - Hn. Z.div_mod_to_equations. lia.
Qed.

Lemma length_ctrStream (blocks : nat) (key : CryptoKey) (iv data : Uint8Array) :
  length (fst (ctrStream blocks key iv data)) = Nat.min (16 * blocks) (length data).
Proof.
  revert iv data. induction blocks as [|k IH]; intros iv data.
  - reflexivity.
  - cbn [ctrStream fst]. rewrite length_app, length_subtleAesCtr, IH.
    rewrite length_firstn, length_skipn. lia.
Qed.

Lemma len_decryptAES128CTR (key : CryptoKey) (iv data : Uint8Array) :
  len (fst (decryptAES128CTR key iv data)) = len data.
Proof.
  rewrite decryptAES128CTR_stream. unfold len at 1 3.
  rewrite length_ctrStream. pose proof (blockCount_bound (length data)).
  unfold len. lia.
Qed.

(** Decrypting with the key and counter that encrypted gives the data back,
    and both runs leave the counter at the same value. *)
Lemma ctrStream_involutive (blocks : nat) (key : CryptoKey) (iv data : Uint8Array) :
  (length data <= 16 * blocks)%nat ->
  ctrStream blocks key iv (fst (ctrStream blocks key iv data))
  = (data, snd (ctrStream blocks key iv data)).
Proof.
  revert iv data. induction blocks as [|k IH]; intros iv data Hlen.
  - destruct data; [reflexivity | cbn in Hlen; lia].
  - cbn [ctrStream fst snd].
    set (r := ctrStream k key (incrementCounter iv 1) (skipn 16 data)).
    assert (Hr : ctrStream k key (incrementCounter iv 1) (fst r)
                 = (skipn 16 data, snd r)).
    { apply IH. rewrite length_skipn. lia. }
    destruct (Nat.le_gt_cases 16 (length data)) as [Hge|Hlt].
    + assert (Hl : length (subtleAesCtr key iv (firstn 16 data)) = 16%nat).
      { rewrite length_subtleAesCtr, length_firstn. lia. }
      rewrite firstn_app, skipn_app, Hl, Nat.sub_diag.
      rewrite firstn_all2 by lia. rewrite skipn_all2 by lia.
      rewrite firstn_O, skipn_O, app_nil_r, app_nil_l, Hr. cbn [fst snd].
      rewrite subtleAesCtr_involutive. now rewrite firstn_skipn.
    + assert (Hnil : skipn 16 data = []) by (apply skipn_all2; lia).
      assert (Hfr : fst r = []).
      { apply length_zero_iff_nil. unfold r.
        rewrite length_ctrStream, Hnil. cbn [length]. lia. }
      rewrite Hfr in *. rewrite app_nil_r.
      rewrite (firstn_all2 (n := 16) data) by lia.
      rewrite firstn_all2 by (rewrite length_subtleAesCtr; lia).
      rewrite skipn_all2 by (rewrite length_subtleAesCtr; lia).
      rewrite Hr, Hnil. cbn [fst snd]. rewrite subtleAesCtr_involutive.
      now rewrite app_nil_r.
Qed.

Lemma decrypt_encrypt_CTR (key : CryptoKey) (iv data : Uint8Array) :
  decryptAES128CTR key iv (fst (encryptAES128CTR key iv data))
  = (data, snd (encryptAES128CTR key iv data)).
Proof.
  rewrite decryptAES128CTR_stream, encryptAES128CTR_stream.
  assert (Hl : len (fst (ctrStream (blockCount (len data)) key iv data)) = len data).
  { rewrite <- decryptAES128CTR_stream. apply len_decryptAES128CTR. }
  rewrite Hl. apply ctrStream_involutive.
  unfold len. apply blockCount_bound.
Qed.

(** A first full block is processed on its own, the rest with the
    incremented counter. *)
Lemma decryptAES128CTR_split (key : CryptoKey) (iv a b : Uint8Array) :
  length a = 16%nat -> b <> [] ->
  decryptAES128CTR key iv (a ++ b)
  = (fst (decryptAES128CTR key iv a)
       ++ fst (decryptAES128CTR key (snd (decryptAES128CTR key iv a)) b),
     snd (decryptAES128CTR key (snd (decryptAES128CTR key iv a)) b)).
Proof.
  intros Ha Hb. rewrite !decryptAES128CTR_stream.
  assert (Hlb : 0 < len b).
  { unfold len. destruct b; [contradiction | cbn; lia]. }
  rewrite len_app. replace (len a) with 16 by (unfold len; lia).
  rewrite blockCount_succ by assumption.
  rewrite (blockCount_one 16) by lia.
  cbn [ctrStream fst snd].
  rewrite firstn_app, skipn_app, Ha, Nat.sub_diag.
  rewrite (firstn_all2 (n := 16) a) by lia.
  rewrite (skipn_all2 (n := 16) a) by lia.
  rewrite firstn_O, skipn_O, app_nil_l. now rewrite !app_nil_r.
Qed.

Lemma decryptAES128CTR_one_block (key : CryptoKey) (iv a : Uint8Array) :
  (0 < length a <= 16)%nat ->
  decryptAES128CTR key iv a = (subtleAesCtr key iv a, incrementCounter iv 1).
Proof.
  intros Ha. rewrite decryptAES128CTR_stream.
  rewrite blockCount_one by (unfold len; lia).
  cbn [ctrStream fst snd].
  rewrite firstn_all2 by lia. now rewrite app_nil_r.
Qed.

Lemma subarray_Z (a : Uint8Array) (s e : Z) :
  0 <= s -> 0 <= e ->
  subarray a s e = firstn (Z.to_nat e - Z.to_nat s) (skipn (Z.to_nat s) a).
Proof.
  intros Hs He. rewrite <- (Z2Nat.id s) at 1 by assumption.
  rewrite <- (Z2Nat.id e) at 1 by assumption. apply subarray_nat.
Qed.

Lemma len_subarray (a : Uint8Array) (s e : Z) :
  0 <= s <= e -> e <= len a -> len (subarray a s e) = e - s.
Proof.
  intros Hse He. rewrite subarray_Z by lia. unfold len in *.
  rewrite length_firstn, length_skipn. lia.
Qed.

(** ** The transport cipher: what a decrypt call reads and decides *)

Lemma constantTimeEqual_false (a b : Uint8Array) :
  constantTimeEqual a b = false <-> a <> b.
Proof.
  rewrite <- constantTimeEqual_iff. now destruct (constantTimeEqual a b).
Qed.

(** In MtE mode the plaintext assembled from the first block and the rest
    is the decryption of the whole packet. *)
Lemma standard_fullRaw (key : CryptoKey) (iv data : Uint8Array) (totalEnc : Z) :
  9 <= totalEnc -> totalEnc <= len data -> 16 <= len data ->
  (if totalEnc <=? AES_BLOCK_SIZE then
     (subarray (fst (decryptAES128CTR key iv (subarray data 0 AES_BLOCK_SIZE))) 0 totalEnc,
      snd (decryptAES128CTR key iv (subarray data 0 AES_BLOCK_SIZE)))
   else
     let '(raw, ivAfterRest) :=
       decryptAES128CTR key
         (snd (decryptAES128CTR key iv (subarray data 0 AES_BLOCK_SIZE)))
         (subarray data AES_BLOCK_SIZE totalEnc) in
     (concat [fst (decryptAES128CTR key iv (subarray data 0 AES_BLOCK_SIZE)); raw],
      ivAfterRest))
  = decryptAES128CTR key iv (subarray data 0 totalEnc).
Proof.
  intros Hlo Hhi Hlen. unfold AES_BLOCK_SIZE, len in *.
  rewrite !subarray_Z by lia. change (Z.to_nat 0) with 0%nat.
  change (Z.to_nat 16) with 16%nat. rewrite !Nat.sub_0_r.
  change (skipn 0 data) with data.
  set (t := Z.to_nat totalEnc). assert (Ht : (9 <= t <= length data)%nat) by lia.
  assert (H16 : length (firstn 16 data) = 16%nat) by (rewrite length_firstn; lia).
  rewrite (decryptAES128CTR_one_block key iv (firstn 16 data)) by lia.
  cbn [fst snd].
  destruct (Z.leb_spec totalEnc 16) as [Hle|Hgt].
  - rewrite (decryptAES128CTR_one_block key iv (firstn t data))
      by (rewrite length_firstn; lia).
    rewrite skipn_O. f_equal. rewrite <- subtleAesCtr_firstn. f_equal.
    rewrite firstn_firstn. f_equal. lia.
  - assert (Hsplit : firstn t data = firstn 16 data ++ firstn (t - 16) (skipn 16 data)).
    { rewrite <- (firstn_skipn 16 data) at 1.
      rewrite firstn_app, H16. rewrite firstn_all2 by lia. reflexivity. }
    rewrite Hsplit.
    rewrite (decryptAES128CTR_split key iv (firstn 16 data)); [| assumption |].
    + rewrite (decryptAES128CTR_one_block key iv (firstn 16 data)) by lia.
      cbn [fst snd].
      destruct (decryptAES128CTR key (incrementCounter iv 1)
                  (firstn (t - 16) (skipn 16 data))) as [raw ivr].
      cbn [fst snd]. unfold concat. cbn [List.concat]. now rewrite app_nil_r.
    + intros Hnil. apply (f_equal (@length byte)) in Hnil.
      rewrite length_firstn, length_skipn in Hnil. cbn in Hnil. lia.
Qed.

Lemma decrypt_short (c : TransportCipher) (data : Uint8Array) :
  bufferTooShort c data \/ packetLengthInvalid c data ->
  decrypt c data = (NeedMore, c).
Proof.
  unfold bufferTooShort, packetLengthInvalid, wirePacketLength, headerSize,
    decrypt, decryptEtm, decryptStandard.
  destruct (macEtm c); intros H.
  - destruct (Z.ltb_spec (len data) (4 + HMAC_SHA256_SIZE)); [reflexivity|].
    destruct (Z.ltb_spec (getUint32 data 0) 5); [reflexivity|].
    destruct (Z.ltb_spec MAX_PACKET_SIZE (getUint32 data 0)); [reflexivity|].
    cbn [orb].
    destruct (Z.ltb_spec (len data) (4 + getUint32 data 0 + HMAC_SHA256_SIZE));
      [reflexivity|]. lia.
  - destruct (Z.ltb_spec (len data) (AES_BLOCK_SIZE + HMAC_SHA256_SIZE));
      [reflexivity|].
    destruct (decryptAES128CTR (keyDec c) (ivDec c) (subarray data 0 AES_BLOCK_SIZE))
      as [first ivAfterFirst]. cbn [fst] in H.
    destruct (Z.ltb_spec (getUint32 first 0) 5); [reflexivity|].
    destruct (Z.ltb_spec MAX_PACKET_SIZE (getUint32 first 0)); [reflexivity|].
    cbn [orb].
    destruct (Z.ltb_spec (len data) (4 + getUint32 first 0 + HMAC_SHA256_SIZE));
      [reflexivity|]. lia.
Qed.

(** The decision a call makes once a whole packet with a valid length is
    in the buffer, in the order the code makes it. *)
Lemma decrypt_whole_packet (c : TransportCipher) (data : Uint8Array) :
  ~ bufferTooShort c data -> ~ packetLengthInvalid c data ->
  decrypt c data
  = let plen := wirePacketLength c data in
    let padLen := receivedPadLen c data in
    let ok := (Decrypted (decryptedPacket c data), advanceIn c (ivAfterPacket c data)) in
    if macEtm c then
      if negb (constantTimeEqual (receivedMac c data) (expectedMac c data)) then
        (Throws (MacVerificationError "MAC verification failed (EtM mode)"), c)
      else if padLen <? 4 then
        (Throws (ProtocolError
           ("Invalid padding length: " ++ showZ padLen
              ++ " (seq=" ++ showZ (seqIn c) ++ ")")), c)
      else if plen - 1 <? padLen then
        (Throws (ProtocolError
           ("Padding exceeds packet length (seq=" ++ showZ (seqIn c) ++ ")")), c)
      else ok
    else
      if padLen <? 4 then
        (Throws (ProtocolError
           ("Invalid padding length: " ++ showZ padLen
              ++ " (seq=" ++ showZ (seqIn c) ++ ")")), c)
      else if plen - 1 - padLen <? 0 then
        (Throws (ProtocolError
           ("Invalid payload length: " ++ showZ (plen - 1 - padLen)
              ++ " (seq=" ++ showZ (seqIn c) ++ ")")), c)
      else if negb (constantTimeEqual (receivedMac c data) (expectedMac c data)) then
        (Throws (MacVerificationError "MAC verification failed"), c)
      else ok.
Proof.
  unfold bufferTooShort, packetLengthInvalid, decryptedPacket, ivAfterPacket,
    receivedMac, expectedMac, authenticatedBytes, receivedPadLen, receivedPlaintext,
    receivedCiphertext, padOffset, wirePacketLength, headerSize,
    decrypt, decryptEtm, decryptStandard.
  intros Hshort Hlen. cbv zeta.
  destruct (macEtm c).
  - set (plen := getUint32 data 0) in *.
    unfold HMAC_SHA256_SIZE, MAX_PACKET_SIZE in *.
    destruct (Z.ltb_spec (len data) (4 + 32)); [lia|].
    destruct (Z.ltb_spec plen 5); [lia|].
    destruct (Z.ltb_spec 35000 plen); [lia|]. cbn [orb].
    destruct (Z.ltb_spec (len data) (4 + plen + 32)); [lia|].
    destruct (negb (constantTimeEqual _ _)); [reflexivity|].
    pose proof (len_decryptAES128CTR (keyDec c) (ivDec c)
                  (subarray data 4 (4 + plen))) as Hl.
    rewrite len_subarray in Hl by lia.
    destruct (decryptAES128CTR (keyDec c) (ivDec c) (subarray data 4 (4 + plen)))
      as [inner nextIv]. cbn [fst snd] in *.
    set (padLen := byte.unsigned (nth 0 inner Byte.x00)).
    pose proof (unsigned_range_256 (nth 0 inner Byte.x00)) as Hpr.
    fold padLen in Hpr.
    destruct (Z.ltb_spec padLen 4); [reflexivity|].
    destruct (Z.ltb_spec 255 padLen); [lia|]. cbn [orb].
    destruct (Z.ltb_spec (plen - 1) padLen); [reflexivity|].
    destruct (Z.ltb_spec (plen - 1 - padLen) 0); [lia|].
    destruct (Z.ltb_spec (len inner) (1 + (plen - 1 - padLen))); [lia|].
    reflexivity.
  - unfold HMAC_SHA256_SIZE, MAX_PACKET_SIZE in *.
    change AES_BLOCK_SIZE with 16 in Hshort, Hlen |- *.
    destruct (Z.ltb_spec (len data) (16 + 32)); [lia|].
    pose proof (standard_fullRaw (keyDec c) (ivDec c) data) as Hraw.
    change AES_BLOCK_SIZE with 16 in Hraw.
    destruct (decryptAES128CTR (keyDec c) (ivDec c) (subarray data 0 16))
      as [first ivAfterFirst]. cbn [fst snd] in *.
    set (plen := getUint32 first 0) in *.
    destruct (Z.ltb_spec plen 5); [lia|].
    destruct (Z.ltb_spec 35000 plen); [lia|]. cbn [orb].
    destruct (Z.ltb_spec (len data) (4 + plen + 32)); [lia|].
    rewrite (Hraw (4 + plen)) by lia.
    pose proof (len_decryptAES128CTR (keyDec c) (ivDec c)
                  (subarray data 0 (4 + plen))) as Hl.
    rewrite len_subarray in Hl by lia.
    destruct (decryptAES128CTR (keyDec c) (ivDec c) (subarray data 0 (4 + plen)))
      as [fullRaw ivAfterDecrypt]. cbn [fst snd] in *.
    set (padLen := byte.unsigned (nth 4 fullRaw Byte.x00)).
    pose proof (unsigned_range_256 (nth 4 fullRaw Byte.x00)) as Hpr.
    fold padLen in Hpr.
    destruct (Z.ltb_spec padLen 4); [reflexivity|].
    destruct (Z.ltb_spec 255 padLen); [lia|]. cbn [orb].
    destruct (Z.ltb_spec (plen - 1 - padLen) 0); [reflexivity|].
    destruct (Z.ltb_spec (len fullRaw) (5 + (plen - 1 - padLen))); [lia|].
    cbn [orb].
    destruct (negb (constantTimeEqual _ _)); reflexivity.
Qed.

Lemma whole_packet_dec (c : TransportCipher) (data : Uint8Array) :
  {bufferTooShort c data \/ packetLengthInvalid c data}
  + {~ bufferTooShort c data /\ ~ packetLengthInvalid c data}.
Proof.
  unfold bufferTooShort, packetLengthInvalid.
  destruct (Z_lt_dec (len data) (headerSize c + HMAC_SHA256_SIZE)) as [H1|H1];
    [left; left; left; exact H1|].
  destruct (Z_lt_dec (len data) (4 + wirePacketLength c data + HMAC_SHA256_SIZE))
    as [H2|H2]; [left; left; right; exact H2|].
  destruct (Z_lt_dec (wirePacketLength c data) 5) as [H3|H3];
    [left; right; left; exact H3|].
  destruct (Z_lt_dec MAX_PACKET_SIZE (wirePacketLength c data)) as [H4|H4];
    [left; right; right; exact H4|].
  right. split; intros [H|H]; contradiction.
Qed.

(** Every call either leaves the cipher as it was, or returns a packet
    whose MAC and padding were accepted and advances the inbound state. *)
Lemma decrypt_state (c : TransportCipher) (data : Uint8Array) :
  ((forall r, fst (decrypt c data) <> Decrypted r) /\ snd (decrypt c data) = c)
  \/ (decrypt c data
      = (Decrypted (decryptedPacket c data), advanceIn c (ivAfterPacket c data))
      /\ ~ bufferTooShort c data /\ ~ packetLengthInvalid c data
      /\ receivedMac c data = expectedMac c data
      /\ ~ paddingInvalid c data).
Proof.
  destruct (whole_packet_dec c data) as [Hs|[Hs Hl]].
  - left. rewrite (decrypt_short c data Hs). split; [discriminate | reflexivity].
  - rewrite (decrypt_whole_packet c data Hs Hl). cbv zeta.
    unfold paddingInvalid.
    destruct (constantTimeEqual (receivedMac c data) (expectedMac c data)) eqn:Hmac;
      cbn [negb];
      destruct (macEtm c);
      destruct (Z.ltb_spec (receivedPadLen c data) 4);
      try destruct (Z.ltb_spec (wirePacketLength c data - 1) (receivedPadLen c data));
      try destruct (Z.ltb_spec (wirePacketLength c data - 1 - receivedPadLen c data) 0);
      try (left; split; [discriminate | reflexivity]);
      right; apply constantTimeEqual_iff in Hmac;
      (repeat split; [assumption | assumption | assumption | lia]).
Qed.

(** C5: a call that returns NeedMore leaves [seqIn] and [ivDec] as they
    were; [seqIn] changes only in a call that returns a payload, after the
    received MAC matched the expected one and the padding was accepted,
    and then it grows by one. *)
Theorem decrypt_NeedMore_frame (c : TransportCipher) (data : Uint8Array) :
  (fst (decrypt c data) = NeedMore ->
   seqIn (snd (decrypt c data)) = seqIn c /\ ivDec (snd (decrypt c data)) = ivDec c)
  /\ (seqIn (snd (decrypt c data)) <> seqIn c ->
      fst (decrypt c data) = Decrypted (decryptedPacket c data)
      /\ receivedMac c data = expectedMac c data
      /\ ~ paddingInvalid c data
      /\ seqIn (snd (decrypt c data)) = seqIn c + 1).
Proof.
  destruct (decrypt_state c data) as [[Hno Hsame]|(Heq & _ & _ & Hmac & Hpad)].
  - split.
    + intros _. now rewrite Hsame.
    + intros Hne. now rewrite Hsame in Hne.
  - rewrite Heq. cbn [fst snd]. split; [discriminate|].
    intros _. repeat split; assumption.
Qed.

(** C1 (amended): a call returns NeedMore exactly when the buffer is too
    short or the packet length lies outside [5, MAX_PACKET_SIZE]; with a
    whole packet of valid length in the buffer, an invalid padding length
    or a MAC mismatch makes the call throw, and the cipher is unchanged. *)
Theorem decrypt_NeedMore_iff (c : TransportCipher) (data : Uint8Array) :
  (fst (decrypt c data) = NeedMore <->
   bufferTooShort c data \/ packetLengthInvalid c data)
  /\ (~ bufferTooShort c data -> ~ packetLengthInvalid c data ->
      paddingInvalid c data \/ macMismatch c data ->
      exists e, decrypt c data = (Throws e, c)).
Proof.
  split.
  - split.
    + intros Hnm. destruct (whole_packet_dec c data) as [Hs|[Hs Hl]]; [assumption|].
      exfalso. revert Hnm. rewrite (decrypt_whole_packet c data Hs Hl). cbv zeta.
      repeat match goal with
             | |- context [if ?b then _ else _] => destruct b
             end; discriminate.
    + intros Hs. now rewrite (decrypt_short c data Hs).
  - intros Hs Hl Hbad. destruct (decrypt_state c data) as [[Hno Hsame]|(_ & _ & _ & Hmac & Hpad)].
    + destruct (decrypt c data) as [[| r | e] c'] eqn:E; cbn [fst snd] in *.
      * exfalso. revert E. rewrite (decrypt_whole_packet c data Hs Hl). cbv zeta.
        repeat match goal with
               | |- context [if ?b then _ else _] => destruct b
               end; discriminate.
      * now elim (Hno r).
      * subst c'. now exists e.
    + exfalso. unfold macMismatch in Hbad.
      destruct Hbad as [Hbad|Hbad]; contradiction.
Qed.

(** ** Tampering with an encrypted packet *)

Lemma createTransportCipher_mirror
  (ivC keyC macC ivS keyS macS : Uint8Array) (seqC seqS : Z) (etm : bool) :
  mirror (createTransportCipher ivC keyC macC ivS keyS macS seqC seqS etm)
         (createTransportCipher ivS keyS macS ivC keyC macC seqS seqC etm).
Proof. repeat split. Qed.

Lemma flipBit_head (x : byte) (a : Uint8Array) (bit : nat) :
  flipBit (x :: a) 0 bit = byte.xor x (byte.of_Z (2 ^ Z.of_nat bit)) :: a.
Proof. reflexivity. Qed.

Lemma flipBit_tail (x : byte) (a : Uint8Array) (i bit : nat) :
  flipBit (x :: a) (S i) bit = x :: flipBit a i bit.
Proof.
  unfold flipBit. cbn [nth_error]. now destruct (nth_error a i).
Qed.

Lemma flipBit_nil (i bit : nat) : flipBit [] i bit = [].
Proof. now destruct i. Qed.

Lemma flipBit_beyond (a : Uint8Array) (i bit : nat) :
  (length a <= i)%nat -> flipBit a i bit = a.
Proof.
  intros H. unfold flipBit. now rewrite (proj2 (nth_error_None a i) H).
Qed.

Lemma length_flipBit (a : Uint8Array) (i bit : nat) :
  length (flipBit a i bit) = length a.
Proof.
  revert i. induction a as [|x a IH]; intros [|i]; try reflexivity.
  rewrite flipBit_tail. cbn [length]. now rewrite IH.
Qed.

Lemma flipBit_app_l (a b : Uint8Array) (i bit : nat) :
  (i < length a)%nat -> flipBit (a ++ b) i bit = flipBit a i bit ++ b.
Proof.
  revert i. induction a as [|x a IH]; intros i Hi; [cbn in Hi; lia|].
  destruct i as [|i]; [reflexivity|].
  cbn [app]. rewrite !flipBit_tail. cbn [app]. rewrite IH; [reflexivity|].
  cbn in Hi. lia.
Qed.

Lemma flipBit_app_r (a b : Uint8Array) (i bit : nat) :
  (length a <= i)%nat ->
  flipBit (a ++ b) i bit = a ++ flipBit b (i - length a) bit.
Proof.
  revert i. induction a as [|x a IH]; intros i Hi.
  - cbn [app length]. now rewrite Nat.sub_0_r.
  - destruct i as [|i]; [cbn in Hi; lia|].
    cbn [app length Nat.sub]. rewrite flipBit_tail, IH; [reflexivity|].
    cbn in Hi. lia.
Qed.

Lemma firstn_flipBit_lt (a : Uint8Array) (i k bit : nat) :
  (i < k)%nat -> firstn k (flipBit a i bit) = flipBit (firstn k a) i bit.
Proof.
  revert i k. induction a as [|x a IH]; intros i k Hi.
  - rewrite ?flipBit_nil, ?firstn_nil, ?skipn_nil, ?flipBit_nil; reflexivity.
  - destruct k as [|k]; [lia|]. destruct i as [|i]; [reflexivity|].
    rewrite flipBit_tail. cbn [firstn]. rewrite flipBit_tail, IH; [reflexivity | lia].
Qed.

Lemma firstn_flipBit_ge (a : Uint8Array) (i k bit : nat) :
  (k <= i)%nat -> firstn k (flipBit a i bit) = firstn k a.
Proof.
  revert i k. induction a as [|x a IH]; intros i k Hi; [rewrite ?flipBit_nil, ?firstn_nil, ?skipn_nil, ?flipBit_nil; reflexivity|].
  destruct k as [|k]; [reflexivity|]. destruct i as [|i]; [lia|].
  rewrite flipBit_tail. cbn [firstn]. rewrite IH; [reflexivity | lia].
Qed.

Lemma skipn_flipBit_lt (a : Uint8Array) (i k bit : nat) :
  (i < k)%nat -> skipn k (flipBit a i bit) = skipn k a.
Proof.
  revert i k. induction a as [|x a IH]; intros i k Hi; [rewrite ?flipBit_nil, ?firstn_nil, ?skipn_nil, ?flipBit_nil; reflexivity|].
  destruct k as [|k]; [lia|]. destruct i as [|i]; [reflexivity|].
  rewrite flipBit_tail. cbn [skipn]. apply IH. lia.
Qed.

Lemma skipn_flipBit_ge (a : Uint8Array) (i k bit : nat) :
  (k <= i)%nat -> skipn k (flipBit a i bit) = flipBit (skipn k a) (i - k) bit.
Proof.
  revert i k. induction a as [|x a IH]; intros i k Hi.
  - rewrite ?flipBit_nil, ?firstn_nil, ?skipn_nil, ?flipBit_nil; reflexivity.
  - destruct k as [|k]; [now rewrite Nat.sub_0_r|]. destruct i as [|i]; [lia|].
    rewrite flipBit_tail. cbn [skipn Nat.sub]. apply IH. lia.
Qed.

Lemma nth_flipBit_other (a : Uint8Array) (i j bit : nat) (d : byte) :
  i <> j -> nth j (flipBit a i bit) d = nth j a d.
Proof.
  revert i j. induction a as [|x a IH]; intros i j Hij; [now rewrite flipBit_nil|].
  destruct i as [|i].
  - destruct j as [|j]; [contradiction | reflexivity].
  - rewrite flipBit_tail. destruct j as [|j]; [reflexivity|].
    cbn [nth]. apply IH. congruence.
Qed.

Lemma getUint32_flipBit (a : Uint8Array) (i bit : nat) :
  (4 <= i)%nat -> getUint32 (flipBit a i bit) 0 = getUint32 a 0.
Proof.
  intros Hi. unfold getUint32. cbn [Nat.add].
  now rewrite !nth_flipBit_other by lia.
Qed.

Lemma bit_mask_nonzero (bit : nat) :
  (bit < 8)%nat -> byte.of_Z (2 ^ Z.of_nat bit) <> Byte.x00.
Proof.
  intros Hb.
  do 8 (destruct bit as [|bit]; [discriminate|]). lia.
Qed.

Lemma flipBit_changes (a : Uint8Array) (i bit : nat) :
  (i < length a)%nat -> (bit < 8)%nat -> flipBit a i bit <> a.
Proof.
  revert i. induction a as [|x a IH]; intros i Hi Hb; [cbn in Hi; lia|].
  destruct i as [|i].
  - rewrite flipBit_head. intros [= H].
    now apply (xor_changes x _ (bit_mask_nonzero bit Hb)).
  - rewrite flipBit_tail. intros [= H]. revert H. apply IH; [cbn in Hi; lia | assumption].
Qed.

Lemma xor_swap (x m k : byte) :
  byte.xor (byte.xor x m) k = byte.xor (byte.xor x k) m.
Proof.
  apply byte.unsigned_inj. rewrite !unsigned_xor.
  rewrite !Z.lxor_assoc. f_equal. apply Z.lxor_comm.
Qed.

(** CTR is malleable: a flipped ciphertext bit flips the same plaintext
    bit and nothing else. *)
Lemma subtleAesCtr_flipBit (key : CryptoKey) (counter a : Uint8Array) (i bit : nat) :
  subtleAesCtr key counter (flipBit a i bit)
  = flipBit (subtleAesCtr key counter a) i bit.
Proof.
  unfold subtleAesCtr. rewrite length_flipBit. generalize 0%nat as s. revert i.
  induction a as [|x a IH]; intros i s; [now rewrite !flipBit_nil|].
  destruct i as [|i].
  - rewrite flipBit_head. cbn [length seq combine map fst snd].
    rewrite flipBit_head. f_equal. apply xor_swap.
  - rewrite flipBit_tail. cbn [length seq combine map fst snd].
    rewrite flipBit_tail. f_equal. apply IH.
Qed.

Lemma ctrStream_flipBit (blocks : nat) (key : CryptoKey) (iv a : Uint8Array) (i bit : nat) :
  ctrStream blocks key iv (flipBit a i bit)
  = (flipBit (fst (ctrStream blocks key iv a)) i bit,
     snd (ctrStream blocks key iv a)).
Proof.
  revert iv a i. induction blocks as [|k IH]; intros iv a i.
  { cbn [ctrStream fst snd]. now rewrite flipBit_nil. }
  destruct (Nat.le_gt_cases (length a) i) as [Hout|Hin].
  - rewrite flipBit_beyond by assumption.
    rewrite flipBit_beyond; [now destruct (ctrStream (S k) key iv a)|].
    rewrite length_ctrStream. lia.
  - cbn [ctrStream fst snd].
    destruct (Nat.lt_ge_cases i 16) as [Hlt|Hge].
    + rewrite firstn_flipBit_lt, skipn_flipBit_lt by assumption.
      rewrite subtleAesCtr_flipBit. f_equal.
      rewrite flipBit_app_l; [reflexivity|].
      rewrite length_subtleAesCtr, length_firstn. lia.
    + rewrite firstn_flipBit_ge, skipn_flipBit_ge by assumption.
      rewrite IH. cbn [fst snd]. f_equal.
      rewrite flipBit_app_r; rewrite length_subtleAesCtr, length_firstn;
        replace (Nat.min 16 (length a)) with 16%nat by lia; [reflexivity | lia].
Qed.

Lemma decryptAES128CTR_flipBit (key : CryptoKey) (iv a : Uint8Array) (i bit : nat) :
  decryptAES128CTR key iv (flipBit a i bit)
  = (flipBit (fst (decryptAES128CTR key iv a)) i bit,
     snd (decryptAES128CTR key iv a)).
Proof.
  rewrite !decryptAES128CTR_stream. unfold len. rewrite length_flipBit.
  apply ctrStream_flipBit.
Qed.

(** Decrypting the first block alone gives the first block of the
    decryption of the whole. *)
Lemma decrypt_first_block (key : CryptoKey) (iv a : Uint8Array) :
  (16 <= length a)%nat ->
  fst (decryptAES128CTR key iv (firstn 16 a))
  = firstn 16 (fst (decryptAES128CTR key iv a)).
Proof.
  intros Hlen. rewrite (decryptAES128CTR_stream key iv a).
  pose proof (blockCount_bound (length a)) as Hb. fold (len a) in Hb.
  destruct (blockCount (len a)) as [|k]; [lia|].
  cbn [ctrStream fst].
  assert (Hl : length (subtleAesCtr key iv (firstn 16 a)) = 16%nat).
  { rewrite length_subtleAesCtr, length_firstn. lia. }
  rewrite firstn_app, Hl, Nat.sub_diag, firstn_O, app_nil_r.
  rewrite (@firstn_all2 _ 16 (subtleAesCtr key iv (firstn 16 a))) by lia.
  rewrite decryptAES128CTR_one_block by (rewrite length_firstn; lia).
  reflexivity.
Qed.

Lemma getUint32_firstn (a : Uint8Array) (k : nat) :
  (4 <= k)%nat -> getUint32 (firstn k a) 0 = getUint32 a 0.
Proof.
  intros Hk. unfold getUint32. cbn [Nat.add].
  assert (H : forall i, (i < 4)%nat -> nth i (firstn k a) Byte.x00 = nth i a Byte.x00).
  { intros i Hi. rewrite <- (firstn_skipn k a) at 2.
    destruct (Nat.lt_ge_cases i (length (firstn k a))) as [Hlt|Hge].
    - now rewrite app_nth1.
    - rewrite nth_overflow by assumption.
      rewrite length_firstn in Hge.
      assert (length a <= i)%nat by lia.
      rewrite firstn_skipn. now rewrite nth_overflow. }
  now rewrite !H by lia.
Qed.

Lemma padded_length_multiple (l : Z) :
  0 <= l -> (4 + (1 + l + calculatePadding l false)) mod 16 = 0.
Proof.
  intros Hl. unfold calculatePadding, MIN_PADDING, AES_BLOCK_SIZE.
  clear - Hl. Z.div_mod_to_equations. lia.
Qed.

Lemma slice_prefix (a b : Uint8Array) (n : Z) :
  n = len a -> slice (a ++ b) 0 n = a.
Proof.
  intros ->. pose proof (slice_middle [] a b) as H.
  change (len []) with 0 in H. now rewrite Z.add_0_l in H.
Qed.

Lemma slice_suffix (a b : Uint8Array) (s e : Z) :
  s = len a -> e = len a + len b -> slice (a ++ b) s e = b.
Proof.
  intros -> ->. pose proof (slice_middle a b []) as H.
  now rewrite app_nil_r in H.
Qed.

Lemma slice_inner (a b c : Uint8Array) (s e : Z) :
  s = len a -> e = len a + len b -> slice (a ++ b ++ c) s e = b.
Proof. intros -> ->. apply slice_middle. Qed.

(** The decision once the padding is known to be acceptable, or is not
    looked at before the MAC. *)
Lemma decrypt_mac_mismatch (s : TransportCipher) (data : Uint8Array) :
  ~ bufferTooShort s data -> ~ packetLengthInvalid s data ->
  (macEtm s = false -> ~ paddingInvalid s data) ->
  receivedMac s data <> expectedMac s data ->
  exists m, decrypt s data = (Throws (MacVerificationError m), s).
Proof.
  intros Hs Hl Hpad Hne.
  rewrite (decrypt_whole_packet s data Hs Hl). cbv zeta.
  rewrite (proj2 (constantTimeEqual_false _ _) Hne). cbn [negb].
  destruct (macEtm s); [eauto|].
  specialize (Hpad eq_refl). unfold paddingInvalid in Hpad.
  destruct (Z.ltb_spec (receivedPadLen s data) 4); [lia|].
  destruct (Z.ltb_spec (wirePacketLength s data - 1 - receivedPadLen s data) 0); [lia|].
  eauto.
Qed.

Lemma decrypt_accepts (s : TransportCipher) (data : Uint8Array) :
  ~ bufferTooShort s data -> ~ packetLengthInvalid s data ->
  ~ paddingInvalid s data -> receivedMac s data = expectedMac s data ->
  decrypt s data
  = (Decrypted (decryptedPacket s data), advanceIn s (ivAfterPacket s data)).
Proof.
  intros Hs Hl Hpad Heq.
  rewrite (decrypt_whole_packet s data Hs Hl). cbv zeta.
  rewrite (proj2 (constantTimeEqual_iff _ _) Heq). cbn [negb].
  unfold paddingInvalid in Hpad.
  destruct (Z.ltb_spec (receivedPadLen s data) 4); [lia|].
  destruct (Z.ltb_spec (wirePacketLength s data - 1) (receivedPadLen s data)); [lia|].
  destruct (Z.ltb_spec (wirePacketLength s data - 1 - receivedPadLen s data) 0); [lia|].
  now destruct (macEtm s).
Qed.

(** *** Encrypt-then-MAC *)

(** The bytes [encrypt] emits in ETM mode: the length field in the clear,
    the encrypted rest of the packet, and the MAC over sequence number,
    length field and ciphertext. *)
Lemma encrypt_etm_layout (rnd : nat -> byte) (p : Uint8Array) (c : TransportCipher) :
  macEtm c = true ->
  exists ct,
    len ct = 1 + len p + calculatePadding (len p) true
    /\ fst (decryptAES128CTR (keyEnc c) (ivEnc c) ct)
       = [byte.of_Z (calculatePadding (len p) true)] ++ p
         ++ getRandomValues rnd (Z.to_nat (calculatePadding (len p) true))
    /\ fst (encrypt rnd p c)
       = writeUint32 (1 + len p + calculatePadding (len p) true) ++ ct
         ++ computeHMACSHA256 (macC c)
              (concat [writeUint32 (seqOut c);
                       writeUint32 (1 + len p + calculatePadding (len p) true); ct]).
Proof.
  intros Hetm. unfold encrypt. rewrite Hetm.
  pose proof (calculatePadding_range (len p) true) as Hpad.
  set (padLen := calculatePadding (len p) true) in *.
  set (plen := 1 + len p + padLen).
  set (inner := [byte.of_Z padLen] ++ p ++ getRandomValues rnd (Z.to_nat padLen)).
  assert (Hraw : buildPacket rnd p true = writeUint32 plen ++ inner) by reflexivity.
  assert (Hinner : len inner = plen).
  { unfold inner. rewrite !len_app, len_getRandomValues.
    change (len [byte.of_Z padLen]) with 1. lia. }
  rewrite Hraw.
  assert (Hpl : subarray (writeUint32 plen ++ inner) 0 4 = writeUint32 plen)
    by (now apply slice_prefix).
  assert (Hin : subarrayFrom (writeUint32 plen ++ inner) 4 = inner).
  { unfold subarrayFrom, subarray. apply slice_suffix; [reflexivity|].
    now rewrite len_app. }
  rewrite Hpl, Hin.
  pose proof (len_decryptAES128CTR (keyEnc c) (ivEnc c) inner) as Hct.
  pose proof (decrypt_encrypt_CTR (keyEnc c) (ivEnc c) inner) as Hrt.
  change (encryptAES128CTR (keyEnc c) (ivEnc c) inner)
    with (decryptAES128CTR (keyEnc c) (ivEnc c) inner) in *.
  destruct (decryptAES128CTR (keyEnc c) (ivEnc c) inner) as [ct nextIv].
  cbn [fst snd] in *. exists ct.
  split; [lia|]. split; [now rewrite Hrt|].
  unfold concat. cbn [List.concat]. now rewrite !app_nil_r.
Qed.

(** What an ETM decrypter reads in a buffer made of a length field,
    [plen] further bytes and 32 more. *)
Lemma received_etm (s : TransportCipher) (plen : Z) (ct tag : Uint8Array) :
  macEtm s = true -> 5 <= plen <= MAX_PACKET_SIZE ->
  len ct = plen -> len tag = 32 ->
  ~ bufferTooShort s (writeUint32 plen ++ ct ++ tag)
  /\ ~ packetLengthInvalid s (writeUint32 plen ++ ct ++ tag)
  /\ wirePacketLength s (writeUint32 plen ++ ct ++ tag) = plen
  /\ receivedCiphertext s (writeUint32 plen ++ ct ++ tag) = ct
  /\ receivedMac s (writeUint32 plen ++ ct ++ tag) = tag
  /\ authenticatedBytes s (writeUint32 plen ++ ct ++ tag)
     = concat [writeUint32 (seqIn s); writeUint32 plen; ct].
Proof.
  intros Hmode Hplen Hct Htag. unfold MAX_PACKET_SIZE in Hplen.
  set (data := writeUint32 plen ++ ct ++ tag).
  assert (Hw : wirePacketLength s data = plen).
  { unfold wirePacketLength. rewrite Hmode.
    apply getUint32_writeUint32. change (2 ^ 32) with 4294967296. lia. }
  assert (Hlen : len data = 4 + plen + 32).
  { unfold data. rewrite !len_app. change (len (writeUint32 plen)) with 4. lia. }
  assert (Hrc : receivedCiphertext s data = ct).
  { unfold receivedCiphertext. rewrite Hmode, Hw.
    apply slice_inner; [reflexivity | now rewrite Hct]. }
  unfold bufferTooShort, packetLengthInvalid, headerSize, HMAC_SHA256_SIZE,
    MAX_PACKET_SIZE.
  rewrite Hw, Hlen, Hmode.
  split; [lia|]. split; [lia|]. split; [reflexivity|]. split; [exact Hrc|].
  split.
  - unfold receivedMac. rewrite Hw. unfold data. rewrite app_assoc.
    apply slice_suffix.
    + rewrite len_app. now rewrite Hct.
    + rewrite len_app, Hct, Htag. reflexivity.
  - unfold authenticatedBytes. rewrite Hmode, Hrc.
    replace (subarray data 0 4) with (writeUint32 plen); [reflexivity|].
    symmetry. now apply slice_prefix.
Qed.

(** *** MAC-then-encrypt *)

(** The bytes [encrypt] emits in MtE mode: the encrypted packet and the
    MAC over sequence number and plaintext packet. *)
Lemma encrypt_standard_layout (rnd : nat -> byte) (p : Uint8Array) (c : TransportCipher) :
  macEtm c = false ->
  exists ct,
    len ct = 4 + (1 + len p + calculatePadding (len p) false)
    /\ fst (decryptAES128CTR (keyEnc c) (ivEnc c) ct) = buildPacket rnd p false
    /\ fst (encrypt rnd p c)
       = ct ++ computeHMACSHA256 (macC c)
                 (concat [writeUint32 (seqOut c); buildPacket rnd p false]).
Proof.
  intros Hetm. unfold encrypt. rewrite Hetm.
  pose proof (len_decryptAES128CTR (keyEnc c) (ivEnc c) (buildPacket rnd p false)) as Hct.
  pose proof (decrypt_encrypt_CTR (keyEnc c) (ivEnc c) (buildPacket rnd p false)) as Hrt.
  change (encryptAES128CTR (keyEnc c) (ivEnc c) (buildPacket rnd p false))
    with (decryptAES128CTR (keyEnc c) (ivEnc c) (buildPacket rnd p false)) in *.
  destruct (decryptAES128CTR (keyEnc c) (ivEnc c) (buildPacket rnd p false))
    as [ct nextIv].
  cbn [fst snd] in *. rewrite len_buildPacket in Hct. exists ct.
  split; [exact Hct|]. split; [now rewrite Hrt|].
  unfold concat. cbn [List.concat]. now rewrite !app_nil_r.
Qed.

(** What an MtE decrypter reads in a buffer of [4 + plen] encrypted bytes
    and 32 more, when the first four decrypted bytes encode [plen]. *)
Lemma received_standard (s : TransportCipher) (plen : Z) (ct tag : Uint8Array) :
  macEtm s = false -> 5 <= plen <= MAX_PACKET_SIZE -> 16 <= 4 + plen ->
  len ct = 4 + plen -> len tag = 32 ->
  getUint32 (fst (decryptAES128CTR (keyDec s) (ivDec s) ct)) 0 = plen ->
  ~ bufferTooShort s (ct ++ tag)
  /\ ~ packetLengthInvalid s (ct ++ tag)
  /\ wirePacketLength s (ct ++ tag) = plen
  /\ receivedPlaintext s (ct ++ tag) = fst (decryptAES128CTR (keyDec s) (ivDec s) ct)
  /\ receivedMac s (ct ++ tag) = tag
  /\ authenticatedBytes s (ct ++ tag)
     = concat [writeUint32 (seqIn s); fst (decryptAES128CTR (keyDec s) (ivDec s) ct)].
Proof.
  intros Hmode Hplen H16 Hct Htag Hread. unfold MAX_PACKET_SIZE in Hplen.
  assert (Hf16 : subarray (ct ++ tag) 0 AES_BLOCK_SIZE = firstn 16 ct).
  { unfold AES_BLOCK_SIZE.
    change (subarray (ct ++ tag) 0 16)
      with (subarray (ct ++ tag) (Z.of_nat 0) (Z.of_nat 16)).
    rewrite (subarray_nat (ct ++ tag) 0 16).
    rewrite skipn_O, Nat.sub_0_r, firstn_app.
    replace (16 - length ct)%nat with 0%nat by (unfold len in Hct; lia).
    now rewrite firstn_O, app_nil_r. }
  assert (Hw : wirePacketLength s (ct ++ tag) = plen).
  { unfold wirePacketLength. rewrite Hmode, Hf16.
    rewrite decrypt_first_block by (unfold len in Hct; lia).
    now rewrite getUint32_firstn by lia. }
  assert (Hlen : len (ct ++ tag) = 4 + plen + 32) by (rewrite len_app; lia).
  assert (Hrc : receivedCiphertext s (ct ++ tag) = ct).
  { unfold receivedCiphertext. rewrite Hmode, Hw. apply slice_prefix. now rewrite Hct. }
  assert (Hrp : receivedPlaintext s (ct ++ tag)
                = fst (decryptAES128CTR (keyDec s) (ivDec s) ct)).
  { unfold receivedPlaintext. now rewrite Hrc. }
  unfold bufferTooShort, packetLengthInvalid, headerSize, HMAC_SHA256_SIZE,
    MAX_PACKET_SIZE, AES_BLOCK_SIZE.
  rewrite Hw, Hlen, Hmode.
  split; [lia|]. split; [lia|]. split; [reflexivity|]. split; [exact Hrp|].
  split.
  - unfold receivedMac. rewrite Hw. apply slice_suffix.
    + now rewrite Hct.
    + rewrite Hct, Htag. reflexivity.
  - unfold authenticatedBytes. now rewrite Hmode, Hrp.
Qed.

(** The fields of a packet built by [buildPacket]. *)
Lemma buildPacket_fields (rnd : nat -> byte) (p : Uint8Array) (etm : bool) :
  1 + len p + calculatePadding (len p) etm <= MAX_PACKET_SIZE ->
  getUint32 (buildPacket rnd p etm) 0 = 1 + len p + calculatePadding (len p) etm
  /\ byte.unsigned (nth 4 (buildPacket rnd p etm) Byte.x00)
     = calculatePadding (len p) etm
  /\ subarray (buildPacket rnd p etm) 5 (5 + len p) = p.
Proof.
  intros Hmax. unfold MAX_PACKET_SIZE in Hmax.
  pose proof (calculatePadding_range (len p) etm) as Hpad.
  pose proof (len_nonneg p) as Hp.
  unfold buildPacket. cbv zeta. split; [|split].
  - apply getUint32_writeUint32. change (2 ^ 32) with 4294967296. lia.
  - change (nth 4 _ Byte.x00) with (byte.of_Z (calculatePadding (len p) etm)).
    apply unsigned_of_Z_small. lia.
  - rewrite (app_assoc (writeUint32 _) [_]).
    apply slice_inner; reflexivity.
Qed.

(** *** One flipped bit *)

Lemma etm_tampered (rnd : nat -> byte) (p : Uint8Array) (c s : TransportCipher)
  (i bit : nat) :
  mirror c s -> macEtm c = true ->
  1 + len p + calculatePadding (len p) true <= MAX_PACKET_SIZE ->
  (bit < 8)%nat ->
  ((length (fst (encrypt rnd p c)) - 32 <= i < length (fst (encrypt rnd p c)))%nat ->
   exists m,
     decrypt s (flipBit (fst (encrypt rnd p c)) i bit)
     = (Throws (MacVerificationError m), s))
  /\ ((4 <= i < length (fst (encrypt rnd p c)) - 32)%nat ->
      authenticatedBytes s (flipBit (fst (encrypt rnd p c)) i bit)
      <> authenticatedBytes s (fst (encrypt rnd p c))
      /\ (expectedMac s (flipBit (fst (encrypt rnd p c)) i bit)
          <> expectedMac s (fst (encrypt rnd p c)) ->
          exists m,
            decrypt s (flipBit (fst (encrypt rnd p c)) i bit)
            = (Throws (MacVerificationError m), s))).
Proof.
  intros (Hiv & Hkey & Hmac & Hseq & Hmode) Hetm Hmax Hbit.
  rewrite Hetm in Hmode.
  destruct (encrypt_etm_layout rnd p c Hetm) as (ct & Hct & _ & Hout).
  pose proof (calculatePadding_range (len p) true) as Hpad.
  pose proof (len_nonneg p) as Hp.
  set (plen := 1 + len p + calculatePadding (len p) true) in *.
  rewrite <- Hmac, <- Hseq in Hout.
  set (mac := computeHMACSHA256 (macS s)
                (concat [writeUint32 (seqIn s); writeUint32 plen; ct])) in *.
  rewrite Hout.
  assert (Hr : 5 <= plen <= MAX_PACKET_SIZE) by lia.
  assert (Hml : len mac = 32) by reflexivity.
  assert (Hlc : length ct = Z.to_nat plen) by (unfold len in Hct; lia).
  assert (Hlm : length mac = 32%nat) by reflexivity.
  assert (Hlp : length (writeUint32 plen) = 4%nat) by reflexivity.
  assert (Hlo : length (writeUint32 plen ++ ct ++ mac) = (4 + Z.to_nat plen + 32)%nat).
  { rewrite !length_app, Hlc, Hlm, Hlp. lia. }
  destruct (received_etm s plen ct mac Hmode Hr Hct Hml) as (_ & _ & _ & _ & _ & Hab0).
  rewrite Hlo. split; intros Hi.
  - rewrite app_assoc, flipBit_app_r by (rewrite length_app, Hlc, Hlp; lia).
    rewrite <- app_assoc.
    set (tag := flipBit mac (i - length (writeUint32 plen ++ ct)) bit).
    assert (Htl : len tag = 32).
    { unfold len, tag. now rewrite length_flipBit, Hlm. }
    destruct (received_etm s plen ct tag Hmode Hr Hct Htl) as (Hs & Hl & _ & _ & Hrm & Hab).
    apply decrypt_mac_mismatch; [assumption | assumption | intros Hf; congruence |].
    rewrite Hrm. unfold expectedMac. rewrite Hab. fold mac.
    apply flipBit_changes; [|assumption].
    rewrite length_app, Hlc, Hlp, Hlm. lia.
  - rewrite flipBit_app_r by (rewrite Hlp; lia).
    rewrite flipBit_app_l by (rewrite Hlp, Hlc; lia).
    rewrite Hlp.
    set (ct' := flipBit ct (i - 4) bit).
    assert (Hne : ct' <> ct) by (apply flipBit_changes; [lia | assumption]).
    assert (Hct' : len ct' = plen).
    { unfold len, ct'. rewrite length_flipBit. exact Hct. }
    destruct (received_etm s plen ct' mac Hmode Hr Hct' Hml) as (Hs & Hl & _ & _ & Hrm & Hab).
    split.
    + rewrite Hab, Hab0. unfold concat. cbn [List.concat]. intros Heq.
      do 2 apply app_inv_head in Heq. apply app_inv_tail in Heq. contradiction.
    + intros Hd. apply decrypt_mac_mismatch; [assumption | assumption | intros Hf; congruence |].
      rewrite Hrm. intros Heq. apply Hd. rewrite <- Heq.
      unfold expectedMac. now rewrite Hab0.
Qed.

Lemma standard_tampered (rnd : nat -> byte) (p : Uint8Array) (c s : TransportCipher)
  (i bit : nat) :
  mirror c s -> macEtm c = false ->
  1 + len p + calculatePadding (len p) false <= MAX_PACKET_SIZE ->
  (bit < 8)%nat ->
  ((length (fst (encrypt rnd p c)) - 32 <= i < length (fst (encrypt rnd p c)))%nat ->
   exists m,
     decrypt s (flipBit (fst (encrypt rnd p c)) i bit)
     = (Throws (MacVerificationError m), s))
  /\ ((5 <= i < length (fst (encrypt rnd p c)) - 32)%nat ->
      authenticatedBytes s (flipBit (fst (encrypt rnd p c)) i bit)
      <> authenticatedBytes s (fst (encrypt rnd p c))
      /\ (expectedMac s (flipBit (fst (encrypt rnd p c)) i bit)
          <> expectedMac s (fst (encrypt rnd p c)) ->
          exists m,
            decrypt s (flipBit (fst (encrypt rnd p c)) i bit)
            = (Throws (MacVerificationError m), s))).
Proof.
  intros (Hiv & Hkey & Hmac & Hseq & Hmode) Hetm Hmax Hbit.
  rewrite Hetm in Hmode.
  destruct (encrypt_standard_layout rnd p c Hetm) as (ct & Hct & Hdec & Hout).
  destruct (buildPacket_fields rnd p false Hmax) as (Hg & Hn4 & _).
  pose proof (calculatePadding_range (len p) false) as Hpad.
  pose proof (len_nonneg p) as Hp.
  pose proof (padded_length_multiple (len p) Hp) as Hmul.
  set (plen := 1 + len p + calculatePadding (len p) false) in *.
  set (raw := buildPacket rnd p false) in *.
  rewrite <- Hkey, <- Hiv in Hdec. rewrite <- Hmac, <- Hseq in Hout.
  set (mac := computeHMACSHA256 (macS s) (concat [writeUint32 (seqIn s); raw])) in *.
  rewrite Hout.
  assert (Hr : 5 <= plen <= MAX_PACKET_SIZE) by lia.
  assert (H16 : 16 <= 4 + plen).
  { clear - Hmul Hpad Hp. Z.div_mod_to_equations. lia. }
  assert (Hml : len mac = 32) by reflexivity.
  assert (Hlm : length mac = 32%nat) by reflexivity.
  assert (Hlc : length ct = Z.to_nat (4 + plen)) by (unfold len in Hct; lia).
  assert (Hlo : length (ct ++ mac) = (Z.to_nat (4 + plen) + 32)%nat).
  { now rewrite length_app, Hlc, Hlm. }
  assert (Hgood : forall ct' tag plain,
             len ct' = 4 + plen -> len tag = 32 ->
             fst (decryptAES128CTR (keyDec s) (ivDec s) ct') = plain ->
             getUint32 plain 0 = plen ->
             byte.unsigned (nth 4 plain Byte.x00) = calculatePadding (len p) false ->
             ~ bufferTooShort s (ct' ++ tag) /\ ~ packetLengthInvalid s (ct' ++ tag)
             /\ ~ paddingInvalid s (ct' ++ tag)
             /\ receivedMac s (ct' ++ tag) = tag
             /\ authenticatedBytes s (ct' ++ tag) = concat [writeUint32 (seqIn s); plain]).
  { intros ct' tag plain Hl' Ht' Hpl Hgl Hpd. subst plain.
    destruct (received_standard s plen ct' tag Hmode Hr H16 Hl' Ht' Hgl)
      as (Hs & Hl & Hw & Hrp & Hrm & Hab).
    repeat split; try assumption.
    unfold paddingInvalid, receivedPadLen, padOffset.
    rewrite Hmode, Hrp, Hpd, Hw. unfold plen. lia. }
  destruct (Hgood ct mac raw Hct Hml Hdec Hg Hn4) as (_ & _ & _ & _ & Hab0).
  rewrite Hlo. split; intros Hi.
  - rewrite flipBit_app_r by lia.
    set (tag := flipBit mac (i - length ct) bit).
    assert (Htl : len tag = 32).
    { unfold len, tag. now rewrite length_flipBit, Hlm. }
    destruct (Hgood ct tag raw Hct Htl Hdec Hg Hn4) as (Hs & Hl & Hpv & Hrm & Hab).
    apply decrypt_mac_mismatch; [assumption | assumption | intros _; assumption |].
    rewrite Hrm. unfold expectedMac. rewrite Hab. fold mac.
    apply flipBit_changes; [|assumption]. rewrite Hlm. lia.
  - rewrite flipBit_app_l by lia.
    set (ct' := flipBit ct i bit).
    assert (Hct' : len ct' = 4 + plen).
    { unfold len, ct'. rewrite length_flipBit. exact Hct. }
    assert (Hdec' : fst (decryptAES128CTR (keyDec s) (ivDec s) ct') = flipBit raw i bit).
    { unfold ct'. rewrite decryptAES128CTR_flipBit. cbn [fst]. now rewrite Hdec. }
    assert (Hlr : length raw = Z.to_nat (4 + plen)).
    { pose proof (len_buildPacket rnd p false) as H. fold raw plen in H.
      unfold len in H. lia. }
    assert (Hne : flipBit raw i bit <> raw) by (apply flipBit_changes; [lia | assumption]).
    destruct (Hgood ct' mac (flipBit raw i bit) Hct' Hml Hdec') as (Hs & Hl & Hpv & Hrm & Hab).
    { rewrite getUint32_flipBit by lia. exact Hg. }
    { rewrite nth_flipBit_other by lia. exact Hn4. }
    split.
    + rewrite Hab, Hab0. unfold concat. cbn [List.concat]. intros Heq.
      apply app_inv_head in Heq. apply app_inv_tail in Heq. contradiction.
    + intros Hd. apply decrypt_mac_mismatch; [assumption | assumption | intros _; assumption |].
      rewrite Hrm. intros Heq. apply Hd. rewrite <- Heq.
      unfold expectedMac. now rewrite Hab0.
Qed.

(** The mirror cipher decrypts what [encrypt] produced and advances. *)
Lemma decrypt_encrypt (rnd : nat -> byte) (p : Uint8Array) (c s : TransportCipher) :
  mirror c s ->
  1 + len p + calculatePadding (len p) (macEtm c) <= MAX_PACKET_SIZE ->
  fst (decrypt s (fst (encrypt rnd p c)))
  = Decrypted (mkParsedPacket p (len (fst (encrypt rnd p c))))
  /\ seqIn (snd (decrypt s (fst (encrypt rnd p c)))) = seqIn s + 1.
Proof.
  intros (Hiv & Hkey & Hmac & Hseq & Hmode) Hmax.
  pose proof (calculatePadding_range (len p) (macEtm c)) as Hpad.
  pose proof (len_nonneg p) as Hp.
  destruct (macEtm c) eqn:Hetm.
  - destruct (encrypt_etm_layout rnd p c Hetm) as (ct & Hct & Hdec & Hout).
    set (plen := 1 + len p + calculatePadding (len p) true) in *.
    rewrite <- Hkey, <- Hiv in Hdec. rewrite <- Hmac, <- Hseq in Hout.
    set (mac := computeHMACSHA256 (macS s)
                  (concat [writeUint32 (seqIn s); writeUint32 plen; ct])) in *.
    rewrite Hout. unfold MAX_PACKET_SIZE in Hmax.
    assert (Hr : 5 <= plen <= MAX_PACKET_SIZE) by (unfold MAX_PACKET_SIZE; lia).
    destruct (received_etm s plen ct mac Hmode Hr Hct eq_refl)
      as (Hs & Hl & Hw & Hrc & Hrm & Hab).
    assert (Hrp : receivedPlaintext s (writeUint32 plen ++ ct ++ mac)
                  = [byte.of_Z (calculatePadding (len p) true)] ++ p
                    ++ getRandomValues rnd (Z.to_nat (calculatePadding (len p) true))).
    { unfold receivedPlaintext. now rewrite Hrc. }
    assert (Hrpad : receivedPadLen s (writeUint32 plen ++ ct ++ mac)
                    = calculatePadding (len p) true).
    { unfold receivedPadLen, padOffset. rewrite Hrp, Hmode.
      change (nth 0 _ Byte.x00) with (byte.of_Z (calculatePadding (len p) true)).
      apply unsigned_of_Z_small. lia. }
    rewrite decrypt_accepts; try assumption.
    + cbn [fst snd advanceIn seqIn]. split; [|reflexivity]. f_equal.
      unfold decryptedPacket, padOffset.
      rewrite Hw, Hrpad, Hrp, Hmode. unfold HMAC_SHA256_SIZE. f_equal.
      * apply slice_inner; [reflexivity|].
        change (len [byte.of_Z (calculatePadding (len p) true)]) with 1.
        unfold plen. cbn [Z.of_nat]. lia.
      * rewrite !len_app, Hct, len_writeUint32. change (len mac) with 32. lia.
    + unfold paddingInvalid. rewrite Hrpad, Hw. unfold plen. lia.
    + rewrite Hrm. unfold expectedMac. now rewrite Hab.
  - destruct (encrypt_standard_layout rnd p c Hetm) as (ct & Hct & Hdec & Hout).
    destruct (buildPacket_fields rnd p false Hmax) as (Hg & Hn4 & Hpay).
    pose proof (padded_length_multiple (len p) Hp) as Hmul.
    set (plen := 1 + len p + calculatePadding (len p) false) in *.
    set (raw := buildPacket rnd p false) in *.
    rewrite <- Hkey, <- Hiv in Hdec. rewrite <- Hmac, <- Hseq in Hout.
    set (mac := computeHMACSHA256 (macS s) (concat [writeUint32 (seqIn s); raw])) in *.
    rewrite Hout. unfold MAX_PACKET_SIZE in Hmax.
    assert (Hr : 5 <= plen <= MAX_PACKET_SIZE) by (unfold MAX_PACKET_SIZE; lia).
    assert (H16 : 16 <= 4 + plen).
    { clear - Hmul Hpad Hp. Z.div_mod_to_equations. lia. }
    rewrite <- Hdec in Hg.
    destruct (received_standard s plen ct mac Hmode Hr H16 Hct eq_refl Hg)
      as (Hs & Hl & Hw & Hrp & Hrm & Hab).
    rewrite Hdec in Hrp, Hab.
    assert (Hrpad : receivedPadLen s (ct ++ mac) = calculatePadding (len p) false).
    { unfold receivedPadLen, padOffset. now rewrite Hrp, Hmode. }
    rewrite decrypt_accepts; try assumption.
    + cbn [fst snd advanceIn seqIn]. split; [|reflexivity]. f_equal.
      unfold decryptedPacket, padOffset.
      rewrite Hw, Hrpad, Hrp, Hmode. unfold HMAC_SHA256_SIZE. f_equal.
      * cbn [Z.of_nat]. rewrite <- Hpay at 2. f_equal. unfold plen. lia.
      * rewrite len_app, Hct. change (len mac) with 32. lia.
    + unfold paddingInvalid. rewrite Hrpad, Hw. unfold plen. lia.
    + rewrite Hrm. unfold expectedMac. now rewrite Hab.
Qed.

(** C2 (amended): between mirror ciphers, for a packet whose length fits
    MAX_PACKET_SIZE and in both MAC modes: flipping one bit of the
    trailing MAC bytes makes [decrypt] throw MacVerificationError; flipping
    one bit of the encrypted bytes behind the length field (ETM) or behind
    the length field and the padding length (MtE) changes the bytes the
    MAC is computed over, and [decrypt] throws MacVerificationError unless
    the HMAC of the changed bytes equals that of the original ones; the
    cipher is unchanged by these failures, and by every call, whatever
    its input, that returns no payload. *)
Theorem tampered_packet_rejected (rnd : nat -> byte) (p : Uint8Array)
  (c s : TransportCipher) (i bit : nat) :
  mirror c s ->
  1 + len p + calculatePadding (len p) (macEtm c) <= MAX_PACKET_SIZE ->
  (bit < 8)%nat ->
  ((length (fst (encrypt rnd p c)) - 32 <= i < length (fst (encrypt rnd p c)))%nat ->
   exists m,
     decrypt s (flipBit (fst (encrypt rnd p c)) i bit)
     = (Throws (MacVerificationError m), s))
  /\ ((bodyStart c <= i < length (fst (encrypt rnd p c)) - 32)%nat ->
      authenticatedBytes s (flipBit (fst (encrypt rnd p c)) i bit)
      <> authenticatedBytes s (fst (encrypt rnd p c))
      /\ (expectedMac s (flipBit (fst (encrypt rnd p c)) i bit)
          <> expectedMac s (fst (encrypt rnd p c)) ->
          exists m,
            decrypt s (flipBit (fst (encrypt rnd p c)) i bit)
            = (Throws (MacVerificationError m), s)))
  /\ (forall data,
         (forall r, fst (decrypt s data) <> Decrypted r) -> snd (decrypt s data) = s).
Proof.
  intros Hm Hmax Hbit.
  assert (Hflip :
    ((length (fst (encrypt rnd p c)) - 32 <= i < length (fst (encrypt rnd p c)))%nat ->
     exists m,
       decrypt s (flipBit (fst (encrypt rnd p c)) i bit)
       = (Throws (MacVerificationError m), s))
    /\ ((bodyStart c <= i < length (fst (encrypt rnd p c)) - 32)%nat ->
        authenticatedBytes s (flipBit (fst (encrypt rnd p c)) i bit)
        <> authenticatedBytes s (fst (encrypt rnd p c))
        /\ (expectedMac s (flipBit (fst (encrypt rnd p c)) i bit)
            <> expectedMac s (fst (encrypt rnd p c)) ->
            exists m,
              decrypt s (flipBit (fst (encrypt rnd p c)) i bit)
              = (Throws (MacVerificationError m), s)))).
  { unfold bodyStart. destruct (macEtm c) eqn:Hetm.
    - now apply etm_tampered.
    - now apply standard_tampered. }
  destruct Hflip as [Htail Hbody]. split; [exact Htail|]. split; [exact Hbody|].
  intros data Hno.
  destruct (decrypt_state s data) as [[_ Hsame]|(Heq & _)]; [assumption|].
  exfalso. apply (Hno (decryptedPacket s data)). now rewrite Heq.
Qed.

(** ** The orchestrator *)

(** *** The fatal-error trap *)

Lemma setFatal_trapped (msg : string) (o : SSHConnectionOrchestrator) :
  fatalError o = true -> setFatal msg o = o.
Proof. intros H. unfold setFatal. now rewrite H. Qed.

Lemma react_trapped (o : SSHConnectionOrchestrator) (e : Stimulus) :
  fatalError o = true -> react o e = o.
Proof.
  intros H. destruct e as [d|code reason wasClean|msg]; cbn [react].
  - unfold handleMessage, handleRawData. now rewrite H.
  - unfold handleClose. rewrite H. reflexivity.
  - now apply setFatal_trapped.
Qed.

Lemma onErrorCalls_app (a b : list Event) :
  onErrorCalls (a ++ b) = (onErrorCalls a + onErrorCalls b)%nat.
Proof. unfold onErrorCalls. now rewrite filter_app, length_app. Qed.

(** C3 (amended): at the first fatal condition [setFatal] sets the
    orchestrator's [fatalError] flag and calls [onError] exactly once,
    leaving the connection state (its phase included) as it was; from
    then on every further fatal condition, close event and inbound chunk
    leaves the orchestrator unchanged, so [onError] is not called again
    and no byte is processed.  [setFatalError], the helper that sets
    phase [error], is not called by the orchestrator. *)
Theorem fatal_trap (msg : string) (o : SSHConnectionOrchestrator) :
  fatalError o = false -> onError (config o) = true ->
  fatalError (setFatal msg o) = true
  /\ trace (setFatal msg o) = trace o ++ [OnError msg]
  /\ onErrorCalls (trace (setFatal msg o)) = S (onErrorCalls (trace o))
  /\ connState (setFatal msg o) = connState o
  /\ (forall later, fold_left react later (setFatal msg o) = setFatal msg o)
  /\ (forall d, handleRawData d (setFatal msg o) = (Normal, setFatal msg o))
  /\ phase (setFatalError (connState o) msg) = error.
Proof.
  intros Hf He.
  assert (Hs : setFatal msg o = emit (OnError msg) (set_fatalError true o)).
  { unfold setFatal. rewrite Hf. cbn [negb]. cbn. now rewrite He. }
  assert (Ht : fatalError (setFatal msg o) = true) by (now rewrite Hs).
  assert (Htr : trace (setFatal msg o) = trace o ++ [OnError msg]) by (now rewrite Hs).
  split; [assumption|]. split; [assumption|].
  split; [rewrite Htr, onErrorCalls_app; cbn; lia|].
  split; [now rewrite Hs|]. split; [|split; [|reflexivity]].
  - intros later. induction later as [|e later IH]; [reflexivity|].
    cbn [fold_left]. now rewrite react_trapped.
  - intros d. unfold handleRawData. now rewrite Ht.
Qed.

(** *** The KEXINIT guard *)

(** C10: once a server KEXINIT payload is saved, a further KEXINIT message
    leaves the whole orchestrator state unchanged: negotiation results,
    saved KEXINIT payloads and cipher included. *)
Theorem second_KEXINIT_ignored (p behind saved : Uint8Array)
  (o : SSHConnectionOrchestrator) :
  at_ p 0 = Some SSH_MSG_KEXINIT -> kexInitS o = Some saved ->
  processPayload p behind o = (Normal, o).
Proof.
  intros Hp Hs. unfold processPayload. rewrite Hp, Hs. reflexivity.
Qed.

(** *** Cipher creation *)

Lemma installKeys_cipher (kEncoded h : Uint8Array) (o : SSHConnectionOrchestrator) :
  exists ivC keyC macC ivS keyS macS etm,
    cipher (connState (installKeys kEncoded h o))
    = Some (createTransportCipher ivC keyC macC ivS keyS macS 3 3 etm).
Proof.
  unfold installKeys, send, draw. cbv zeta.
  set (keys := deriveKeys kEncoded h h).
  exists (dk_ivC keys), (dk_keyC keys), (dk_macC keys),
    (dk_ivS keys), (dk_keyS keys), (dk_macS keys).
  eexists. destruct (wsOpen _); reflexivity.
Qed.

(** The sequence number heads the bytes that the MAC of an outbound packet
    covers, and the bytes that the expected MAC of an inbound packet
    covers. *)
Lemma encrypt_mac_seq (rnd : nat -> byte) (pl : Uint8Array) (c : TransportCipher) :
  exists body signed,
    fst (encrypt rnd pl c)
    = body ++ computeHMACSHA256 (macC c) (writeUint32 (seqOut c) ++ signed).
Proof.
  unfold encrypt. destruct (macEtm c).
  - destruct (encryptAES128CTR _ _ _) as [ct nextIv]. cbn [fst].
    exists (subarray (buildPacket rnd pl true) 0 4 ++ ct),
      (subarray (buildPacket rnd pl true) 0 4 ++ ct).
    unfold concat. cbn [List.concat]. now rewrite !app_nil_r, <- !app_assoc.
  - destruct (encryptAES128CTR _ _ _) as [ct nextIv]. cbn [fst].
    exists ct, (buildPacket rnd pl false).
    unfold concat. cbn [List.concat]. now rewrite !app_nil_r.
Qed.

Lemma expectedMac_seq (c : TransportCipher) (data : Uint8Array) :
  exists signed,
    expectedMac c data
    = computeHMACSHA256 (macS c) (writeUint32 (seqIn c) ++ signed).
Proof.
  unfold expectedMac, authenticatedBytes. destruct (macEtm c).
  - exists (subarray data 0 4 ++ receivedCiphertext c data).
    unfold concat. cbn [List.concat]. now rewrite app_nil_r.
  - exists (receivedPlaintext c data).
    unfold concat. cbn [List.concat]. now rewrite app_nil_r.
Qed.

(** C6: a KEXDH_REPLY or KEX_ECDH_REPLY that the dispatcher accepts and
    parses makes it install a transport cipher created with outbound and
    inbound sequence numbers 3, so that the MAC of the first packet this
    cipher encrypts, and the MAC it expects on the first packet it
    decrypts, are computed over sequence number 3. *)
Theorem kex_reply_cipher_seq_3 (p behind : Uint8Array) (o : SSHConnectionOrchestrator) :
  at_ p 0 = Some SSH_MSG_KEXDH_REPLY ->
  (exists ks f, readBytes p 1 = Some ks
                /\ readMpint p (1 + bytesConsumed ks) = Some f
                /\ dhContext o <> None)
  \/ (exists ks qs priv q ic is_ k,
         readBytes p 1 = Some ks
         /\ readBytes p (1 + bytesConsumed ks) = Some qs
         /\ dhContext o = None
         /\ ecdhContext o = Some (priv, q, ic, is_)
         /\ computeX25519SharedSecret priv (bytesValue qs) = Some k) ->
  exists c,
    cipher (connState (snd (processPayload p behind o))) = Some c
    /\ seqOut c = 3 /\ seqIn c = 3
    /\ (forall rnd pl, exists body signed,
           fst (encrypt rnd pl c)
           = body ++ computeHMACSHA256 (macC c) (writeUint32 3 ++ signed))
    /\ (forall data, exists signed,
           expectedMac c data
           = computeHMACSHA256 (macS c) (writeUint32 3 ++ signed)).
Proof.
  intros Hp Hcase.
  assert (Hgoal : forall kEncoded h o',
             exists c, cipher (connState (installKeys kEncoded h o')) = Some c
                       /\ seqOut c = 3 /\ seqIn c = 3
                       /\ (forall rnd pl, exists body signed,
                              fst (encrypt rnd pl c)
                              = body ++ computeHMACSHA256 (macC c) (writeUint32 3 ++ signed))
                       /\ (forall data, exists signed,
                              expectedMac c data
                              = computeHMACSHA256 (macS c) (writeUint32 3 ++ signed))).
  { intros kEncoded h o'.
    destruct (installKeys_cipher kEncoded h o')
      as (ivC & keyC & macC & ivS & keyS & macS & etm & Hc).
    eexists. split; [exact Hc|]. split; [reflexivity|]. split; [reflexivity|].
    split.
    - intros rnd pl. apply encrypt_mac_seq.
    - intros data. apply expectedMac_seq. }
  unfold processPayload. rewrite Hp.
  change (SSH_MSG_KEXDH_REPLY =? 2) with false.
  change (SSH_MSG_KEXDH_REPLY =? 1) with false.
  change (SSH_MSG_KEXDH_REPLY =? 3) with false.
  change (SSH_MSG_KEXDH_REPLY =? 4) with false.
  change (SSH_MSG_KEXDH_REPLY =? SSH_MSG_EXT_INFO) with false.
  change (SSH_MSG_KEXDH_REPLY =? SSH_MSG_GLOBAL_REQUEST) with false.
  change (SSH_MSG_KEXDH_REPLY =? SSH_MSG_KEXINIT) with false.
  change (SSH_MSG_KEXDH_REPLY =? SSH_MSG_KEXDH_REPLY) with true.
  change (SSH_MSG_KEXDH_REPLY =? SSH_MSG_KEX_ECDH_REPLY) with true.
  cbn [andb].
  destruct Hcase as [(ks & f & Hks & Hf & Hctx)
                    |(ks & qs & priv & q & ic & is_ & k & Hks & Hqs & Hno & Hctx & Hk)].
  - destruct (dhContext o) as [[[[x e] ic] is_]|]; [|contradiction].
    unfold onKexDHReply. rewrite Hks, Hf. cbn [snd]. apply Hgoal.
  - rewrite Hno, Hctx. unfold onKexECDHReply. rewrite Hks, Hqs, Hk.
    cbn [snd]. apply Hgoal.
Qed.

(** *** Version-line extraction *)

Lemma extractServerIdent_scan (d : Uint8Array) (o : SSHConnectionOrchestrator) :
  extractServerIdent d o
  = match scanIdent (identBuf o ++ d) with
    | None => (None, set_identBuf (identBuf o ++ d) o)
    | Some (ident, rest) =>
        (Some rest, set_identBuf [] (set_serverIdent (TextDecoder_decode ident) o))
    end.
Proof.
  unfold extractServerIdent, scanIdent, concat. cbn [List.concat].
  rewrite app_nil_r. set (combined := identBuf o ++ d).
  destruct (findIndex _ (length combined)) as [sshStart|]; [|reflexivity].
  cbv zeta.
  destruct (findIndex _ (length (subarrayFrom combined (Z.of_nat sshStart)))) as [e|].
  - destruct (_ <? len combined); reflexivity.
  - destruct (findIndex _ (length (subarrayFrom combined (Z.of_nat sshStart)))) as [e|];
      [|reflexivity].
    destruct (_ <? len combined); reflexivity.
Qed.

(** The search on every prefix of the stream: nothing is found before the
    line feed (byte 30) has arrived. *)
Lemma scanIdent_prefix (m : nat) :
  (m <= 35)%nat ->
  scanIdent (firstn m identStream)
  = if (m <=? 30)%nat then None
    else Some (bytesOf "SSH-2.0-server", skipn 31 (firstn m identStream)).
Proof.
  intros Hm.
  do 36 (destruct m as [|m]; [vm_compute; reflexivity|]). lia.
Qed.

Lemma short_chunk_no_packet (d : Uint8Array) (o : SSHConnectionOrchestrator) :
  len d < 5 -> processUnencryptedPackets d o = (Normal, o).
Proof.
  intros Hd. unfold processUnencryptedPackets. cbn [plainLoop].
  destruct (0 <? len d); [|reflexivity].
  unfold parsePacket.
  assert (Hl : len (subarrayFrom d 0) = len d).
  { change (subarrayFrom d 0) with (subarrayFrom d (Z.of_nat 0)).
    now rewrite subarrayFrom_nat, skipn_O. }
  rewrite Hl. destruct (Z.ltb_spec (len d) 5); [reflexivity | lia].
Qed.

Lemma firstn_add_skipn {A} (l : list A) (n k : nat) :
  firstn n l ++ firstn k (skipn n l) = firstn (n + k) l.
Proof.
  revert l. induction n as [|n IH]; intros l; [reflexivity|].
  destruct l as [|x l]; [now rewrite !firstn_nil|].
  cbn [firstn skipn Nat.add app]. now rewrite IH.
Qed.

Lemma chunk_of_stream {A} (d rest l : list A) (n : nat) :
  d ++ rest = skipn n l ->
  d = firstn (length d) (skipn n l) /\ rest = skipn (n + length d) l.
Proof.
  intros H. split.
  - rewrite <- H, firstn_app, Nat.sub_diag, firstn_all, firstn_O.
    now rewrite app_nil_r.
  - rewrite Nat.add_comm, <- skipn_skipn, <- H, skipn_app, Nat.sub_diag.
    now rewrite skipn_all, skipn_O.
Qed.

Section IdentExchange.

(** The text decoder maps bytes below 128 to the characters with these
    codes. *)
Hypothesis decode_ascii :
  forall bs, forallb (fun b => byte.unsigned b <? 128) bs = true ->
             TextDecoder_decode bs = string_of_list_byte bs.

Variable cfg : Config.
Variable ws : bool.

Let o0 := newOrchestrator cfg ws.
Let oF := set_identBuf [] (set_serverIdent "SSH-2.0-server" o0).

Lemma identStage_waiting (n k : nat) :
  (n <= 30)%nat -> (n + k <= 35)%nat ->
  identStage (firstn k (skipn n identStream))
    (set_identBuf (firstn n identStream) o0)
  = if (n + k <=? 30)%nat
    then (None, set_identBuf (firstn (n + k) identStream) o0)
    else (Some (skipn 31 (firstn (n + k) identStream)), oF).
Proof using Type decode_ascii.
  intros Hn Hm. unfold identStage.
  change (serverIdent (connState (set_identBuf (firstn n identStream) o0)))
    with ""%string.
  cbn [String.eqb]. rewrite extractServerIdent_scan.
  change (identBuf (set_identBuf (firstn n identStream) o0))
    with (firstn n identStream).
  rewrite !firstn_add_skipn, scanIdent_prefix by assumption.
  destruct (n + k <=? 30)%nat; [reflexivity|].
  rewrite decode_ascii by reflexivity. reflexivity.
Qed.

Lemma handle_after_ident (d : Uint8Array) :
  len d < 5 -> handleMessage d oF = oF /\ routedBytes d oF = d.
Proof.
  intros Hd. unfold handleMessage, routedBytes, handleRawData, identStage, packetStage.
  change (fatalError oF) with false.
  change (serverIdent (connState oF)) with "SSH-2.0-server"%string.
  change (useEncrypted oF) with false. cbn [String.eqb Ascii.eqb Bool.eqb negb fst].
  now rewrite short_chunk_no_packet.
Qed.

Lemma feed_from (chunks : list Uint8Array) :
  forall (n : nat) (o : SSHConnectionOrchestrator),
    (n <= 35)%nat ->
    List.concat chunks = skipn n identStream ->
    ((n <= 30)%nat /\ o = set_identBuf (firstn n identStream) o0)
    \/ ((31 <= n)%nat /\ o = oF) ->
    feed chunks o = (skipn (Nat.max n 31) identStream, oF).
Proof using Type decode_ascii.
  induction chunks as [|d rest IH]; intros n o Hn Hcat Hinv.
  - cbn [List.concat] in Hcat.
    assert (Hlen : length (skipn n identStream) = 0%nat) by (now rewrite <- Hcat).
    rewrite length_skipn in Hlen. change (length identStream) with 35%nat in Hlen.
    assert (n = 35%nat) by lia. subst n.
    destruct Hinv as [[Hle _]|[_ ->]]; [lia | reflexivity].
  - cbn [List.concat] in Hcat.
    destruct (chunk_of_stream d (List.concat rest) identStream n Hcat) as [Hd Hrest].
    assert (Hk : (n + length d <= 35)%nat).
    { apply (f_equal (@length byte)) in Hcat.
      rewrite length_app, length_skipn in Hcat.
      change (length identStream) with 35%nat in Hcat. lia. }
    cbn [feed]. remember (length d) as k eqn:Ek. subst d.
    destruct Hinv as [[Hle ->]|[Hge ->]].
    + pose proof (identStage_waiting n k Hle Hk) as Hst.
      unfold handleMessage, routedBytes, handleRawData.
      change (fatalError (set_identBuf (firstn n identStream) o0)) with false.
      cbv iota. rewrite Hst.
      destruct (Nat.leb_spec (n + k) 30) as [Hm|Hm].
      * cbn [fst].
        rewrite (IH (n + k)%nat _ Hk Hrest (or_introl (conj Hm eq_refl))).
        cbn [fst snd app]. f_equal. f_equal. lia.
      * cbn [fst].
        assert (Hshort : len (skipn 31 (firstn (n + k) identStream)) < 5).
        { unfold len. rewrite length_skipn, length_firstn.
          change (length identStream) with 35%nat. lia. }
        unfold packetStage. change (useEncrypted oF) with false. cbn [negb].
        rewrite short_chunk_no_packet by assumption.
        rewrite (IH (n + k)%nat _ Hk Hrest (or_intror (conj Hm eq_refl))).
        cbn [fst snd]. f_equal.
        rewrite Nat.max_l, Nat.max_r by lia.
        rewrite <- (firstn_skipn (n + k) identStream) at 3.
        rewrite skipn_app.
        replace (31 - length (firstn (n + k) identStream))%nat with 0%nat
          by (rewrite length_firstn; change (length identStream) with 35%nat; lia).
        now rewrite skipn_O.
    + assert (Hshort : len (firstn k (skipn n identStream)) < 5).
      { unfold len. rewrite <- Ek. lia. }
      destruct (handle_after_ident _ Hshort) as [Hh Hr]. rewrite Hh, Hr.
      assert (Hge' : (31 <= n + k)%nat) by lia.
      rewrite (IH (n + k)%nat _ Hk Hrest (or_intror (conj Hge' eq_refl))).
      cbn [fst snd]. f_equal. rewrite !Nat.max_l by lia.
      rewrite Hrest in Hcat. exact Hcat.
Qed.

(** C8: however the scenario's bytes are split into chunks (the two
    chunks of the scenario included), once all have arrived the recorded
    server version is the identification line without its terminator,
    the accumulator is empty, and the bytes handed to the packet stage are
    exactly the residual [MORE]. *)
Theorem server_ident_extracted (chunks : list Uint8Array) :
  List.concat chunks = identStream ->
  feed chunks (newOrchestrator cfg ws)
  = (bytesOf "MORE",
     set_identBuf [] (set_serverIdent "SSH-2.0-server" (newOrchestrator cfg ws)))
  /\ serverIdent (connState (snd (feed chunks (newOrchestrator cfg ws))))
     = "SSH-2.0-server"%string
  /\ identStage identChunk1 (newOrchestrator cfg ws)
     = (None, set_identBuf identChunk1 (newOrchestrator cfg ws))
  /\ identStage identChunk2 (set_identBuf identChunk1 (newOrchestrator cfg ws))
     = (Some (bytesOf "MORE"),
        set_identBuf [] (set_serverIdent "SSH-2.0-server" (newOrchestrator cfg ws))).
Proof using Type decode_ascii.
  intros Hcat.
  assert (Hfeed : feed chunks o0 = (skipn (Nat.max 0 31) identStream, oF)).
  { apply (feed_from chunks 0 o0); [lia | exact Hcat |].
    left. split; [lia | reflexivity]. }
  fold o0. fold oF. rewrite Hfeed. split; [reflexivity|]. split; [reflexivity|].
  split.
  - apply (identStage_waiting 0 15); lia.
  - apply (identStage_waiting 15 20); lia.
Qed.

End IdentExchange.

(** * Further properties of the code *)

(** ** Readers and writers of protocol/serialization.ts and
       protocol/deserialization.ts *)

Lemma getUint32_shift (pre a : Uint8Array) :
  getUint32 (pre ++ a) (length pre) = getUint32 a 0.
Proof.
  unfold getUint32. cbn [Nat.add]. now rewrite !app_nth2_plus.
Qed.

Lemma readBytes_at (pre b rest : Uint8Array) :
  len b < 2 ^ 32 ->
  readBytes (pre ++ writeBytes b ++ rest) (len pre)
  = Some (mkBytesValue b (4 + len b)).
Proof.
  intros Hb. pose proof (len_nonneg pre) as Hp. pose proof (len_nonneg b) as Hnb.
  pose proof (len_nonneg rest) as Hr.
  unfold readBytes, writeBytes.
  assert (Hl : len (pre ++ (writeUint32 (len b) ++ b) ++ rest)
               = len pre + 4 + len b + len rest).
  { rewrite !len_app, len_writeUint32. lia. }
  rewrite Hl. destruct (Z.ltb_spec (len pre + 4 + len b + len rest) (len pre + 4)); [lia|].
  replace (Z.to_nat (len pre)) with (length pre) by (unfold len; lia).
  rewrite getUint32_shift, <- app_assoc.
  rewrite getUint32_writeUint32 by lia.
  destruct (Z.ltb_spec (len pre + 4 + len b + len rest) (len pre + 4 + len b)); [lia|].
  do 2 f_equal. rewrite (app_assoc pre).
  apply slice_inner; rewrite len_app, len_writeUint32; lia.
Qed.

Lemma readBytes_short (pre b : Uint8Array) (k : nat) :
  len b < 2 ^ 32 -> (k < length (writeBytes b))%nat ->
  readBytes (pre ++ firstn k (writeBytes b)) (len pre) = None.
Proof.
  intros Hb Hk. pose proof (len_nonneg pre) as Hp. pose proof (len_nonneg b) as Hnb.
  unfold readBytes, writeBytes in *.
  assert (Hl : len (pre ++ firstn k (writeUint32 (len b) ++ b)) = len pre + Z.of_nat k).
  { rewrite len_app. unfold len at 2. rewrite length_firstn. lia. }
  rewrite Hl.
  destruct (Z.ltb_spec (len pre + Z.of_nat k) (len pre + 4)); [reflexivity|].
  replace (Z.to_nat (len pre)) with (length pre) by (unfold len; lia).
  rewrite getUint32_shift.
  rewrite getUint32_firstn by lia. rewrite getUint32_writeUint32 by lia.
  rewrite length_app in Hk. change (length (writeUint32 (len b))) with 4%nat in Hk.
  destruct (Z.ltb_spec (len pre + Z.of_nat k) (len pre + 4 + len b)); [reflexivity|].
  unfold len in *. lia.
Qed.

(** [readBytes] reads back what [writeBytes] wrote, wherever the field
    lies in the buffer and whatever follows it, and reports the bytes it
    consumed; on any proper prefix of the field it returns [null]. *)
Theorem readBytes_writeBytes (pre b rest : Uint8Array) (k : nat) :
  len b < 2 ^ 32 ->
  readBytes (pre ++ writeBytes b ++ rest) (len pre)
  = Some (mkBytesValue b (len (writeBytes b)))
  /\ ((k < length (writeBytes b))%nat ->
      readBytes (pre ++ firstn k (writeBytes b)) (len pre) = None).
Proof.
  intros Hb. split.
  - rewrite readBytes_at by assumption. unfold writeBytes.
    now rewrite len_app, len_writeUint32.
  - intros Hk. now apply readBytes_short.
Qed.

Lemma readString_at (pre rest : Uint8Array) (s : string) :
  len (TextEncoder_encode s) < 2 ^ 32 ->
  readString (pre ++ writeString s ++ rest) (len pre)
  = Some (mkStringValue (TextDecoder_decode (TextEncoder_encode s))
            (4 + len (TextEncoder_encode s))).
Proof.
  intros Hb. set (b := TextEncoder_encode s) in *.
  pose proof (len_nonneg pre) as Hp. pose proof (len_nonneg b) as Hnb.
  pose proof (len_nonneg rest) as Hr.
  unfold readString, writeString. fold b.
  assert (Hl : len (pre ++ (writeUint32 (len b) ++ b) ++ rest)
               = len pre + 4 + len b + len rest).
  { rewrite !len_app, len_writeUint32. lia. }
  rewrite Hl. destruct (Z.ltb_spec (len pre + 4 + len b + len rest) (len pre + 4)); [lia|].
  replace (Z.to_nat (len pre)) with (length pre) by (unfold len; lia).
  rewrite getUint32_shift, <- app_assoc.
  rewrite getUint32_writeUint32 by lia.
  destruct (Z.ltb_spec (len pre + 4 + len b + len rest) (len pre + 4 + len b)); [lia|].
  do 3 f_equal. rewrite (app_assoc pre).
  apply slice_inner; rewrite len_app, len_writeUint32; lia.
Qed.

(** For a string that the text codec takes to bytes and back unchanged,
    [readString] reads back what [writeString] wrote, wherever the field
    lies in the buffer, and consumes the length field and the encoded
    bytes; on any proper prefix of the field it returns [null]. *)
Theorem readString_writeString (pre rest : Uint8Array) (s : string) (k : nat) :
  TextDecoder_decode (TextEncoder_encode s) = s ->
  len (TextEncoder_encode s) < 2 ^ 32 ->
  readString (pre ++ writeString s ++ rest) (len pre)
  = Some (mkStringValue s (len (writeString s)))
  /\ ((k < length (writeString s))%nat ->
      readString (pre ++ firstn k (writeString s)) (len pre) = None).
Proof.
  intros Hrt Hb. split.
  - rewrite readString_at by assumption. rewrite Hrt. unfold writeString.
    now rewrite len_app, len_writeUint32.
  - intros Hk. set (b := TextEncoder_encode s) in *.
    pose proof (len_nonneg pre) as Hp. pose proof (len_nonneg b) as Hnb.
    unfold readString, writeString in *. fold b in Hk |- *.
    assert (Hl : len (pre ++ firstn k (writeUint32 (len b) ++ b)) = len pre + Z.of_nat k).
    { rewrite len_app. unfold len at 2. rewrite length_firstn. lia. }
    rewrite Hl.
    destruct (Z.ltb_spec (len pre + Z.of_nat k) (len pre + 4)); [reflexivity|].
    replace (Z.to_nat (len pre)) with (length pre) by (unfold len; lia).
  rewrite getUint32_shift.
    rewrite getUint32_firstn by lia. rewrite getUint32_writeUint32 by lia.
    rewrite length_app in Hk. change (length (writeUint32 (len b))) with 4%nat in Hk.
    destruct (Z.ltb_spec (len pre + Z.of_nat k) (len pre + 4 + len b)); [reflexivity|].
    unfold len in *. lia.
Qed.

(** ** Multi-precision integers: protocol/serialization.ts,
       protocol/deserialization.ts and crypto/arithmetic.ts *)

Lemma lor_shiftl_byte (n x : Z) :
  0 <= n -> 0 <= x < 256 -> Z.lor (Z.shiftl n 8) x = n * 256 + x.
Proof.
  intros Hn Hx. rewrite Z.shiftl_mul_pow2 by lia. change (2 ^ 8) with 256.
  assert (Hland : Z.land (n * 256) x = 0).
  { apply Z.bits_inj'. intros i Hi. rewrite Z.land_spec, Z.bits_0.
    destruct (Z.lt_ge_cases i 8) as [Hlt|Hge].
    - change 256 with (2 ^ 8). now rewrite Z.mul_pow2_bits_low.
    - rewrite <- (Z.mod_small x (2 ^ 8)) by (change (2 ^ 8) with 256; lia).
      rewrite Z.mod_pow2_bits_high by lia. apply andb_false_r. }
  rewrite <- Z.lxor_lor by assumption. symmetry. now apply Z.add_nocarry_lxor.
Qed.

Lemma beValue_from (l : Uint8Array) (acc : Z) :
  fold_left (fun n x => n * 256 + byte.unsigned x) l acc
  = acc * 256 ^ len l + beValue l.
Proof.
  unfold beValue. revert acc. induction l as [|x l IH]; intros acc.
  - cbn. lia.
  - cbn [fold_left]. rewrite IH, (IH (0 * 256 + byte.unsigned x)).
    unfold len. cbn [length]. rewrite Nat2Z.inj_succ, Z.pow_succ_r by lia. lia.
Qed.

Lemma beValue_cons (x : byte) (l : Uint8Array) :
  beValue (x :: l) = byte.unsigned x * 256 ^ len l + beValue l.
Proof.
  unfold beValue at 1. cbn [fold_left]. rewrite beValue_from. lia.
Qed.

Lemma beValue_snoc (l : Uint8Array) (x : byte) :
  beValue (l ++ [x]) = beValue l * 256 + byte.unsigned x.
Proof. unfold beValue. now rewrite fold_left_app. Qed.

Lemma beValue_bound (l : Uint8Array) : 0 <= beValue l < 256 ^ len l.
Proof.
  induction l as [|x l IH].
  - cbn. lia.
  - rewrite beValue_cons. pose proof (unsigned_range_256 x) as Hx.
    unfold len in *. cbn [length]. rewrite Nat2Z.inj_succ, Z.pow_succ_r by lia.
    nia.
Qed.

Lemma shift_fold_beValue (l : Uint8Array) (acc : Z) :
  0 <= acc ->
  fold_left (fun n x => Z.lor (Z.shiftl n 8) (byte.unsigned x)) l acc
  = fold_left (fun n x => n * 256 + byte.unsigned x) l acc.
Proof.
  revert acc. induction l as [|x l IH]; intros acc Hacc; [reflexivity|].
  cbn [fold_left]. pose proof (unsigned_range_256 x) as Hx.
  rewrite lor_shiftl_byte by lia. apply IH. lia.
Qed.

Lemma msbSet_cons (x : byte) (l : Uint8Array) :
  msbSet (x :: l) = (128 <=? byte.unsigned x).
Proof. unfold msbSet, at_. cbn [nth_error option_map]. now destruct x. Qed.

Lemma bytesToBigint_value (b : Uint8Array) :
  bytesToBigint b
  = if (0 <? len b) && msbSet b then beValue b - 256 ^ len b else beValue b.
Proof.
  unfold bytesToBigint. rewrite shift_fold_beValue by lia. fold (beValue b).
  rewrite Z.shiftl_1_l, (Z.mul_comm (len b) 8).
  rewrite Z.pow_mul_r by (pose proof (len_nonneg b); lia).
  reflexivity.
Qed.

(** [bytesToBigint] reads a non-empty byte string as a big-endian
    two's-complement number: the result lies in the signed range of the
    width and is congruent to the unsigned value. *)
Theorem bytesToBigint_twos_complement (b : Uint8Array) :
  b <> [] ->
  - (256 ^ len b / 2) <= bytesToBigint b < 256 ^ len b / 2
  /\ bytesToBigint b mod 256 ^ len b = beValue b.
Proof.
  intros Hne. destruct b as [|x l]; [contradiction|].
  rewrite bytesToBigint_value, msbSet_cons.
  pose proof (beValue_bound l) as Hl. pose proof (unsigned_range_256 x) as Hx.
  pose proof (beValue_bound (x :: l)) as Hb.
  rewrite beValue_cons in *.
  assert (Hlen : len (x :: l) = Z.succ (len l)).
  { unfold len. cbn [length]. lia. }
  rewrite Hlen in *. rewrite Z.pow_succ_r in * by apply len_nonneg.
  set (M := 256 ^ len l) in *.
  assert (Hhalf : 256 * M / 2 = 128 * M).
  { replace (256 * M) with (128 * M * 2) by lia. apply Z.div_mul. lia. }
  rewrite Hhalf.
  destruct (Z.ltb_spec 0 (Z.succ (len l))) as [_|H0]; [|pose proof (len_nonneg l); lia].
  cbn [andb]. destruct (Z.leb_spec 128 (byte.unsigned x)) as [Hm|Hm].
  - split; [nia|].
    replace (byte.unsigned x * M + beValue l - 256 * M)
      with (byte.unsigned x * M + beValue l + (-1) * (256 * M)) by lia.
    rewrite Z.mod_add by lia. apply Z.mod_small. lia.
  - split; [nia|]. apply Z.mod_small. lia.
Qed.

(** *** [bigintToBytes] *)

Lemma hex_snoc (l : list Z) (d : Z) :
  fold_left (fun n d => n * 16 + d) (l ++ [d]) 0
  = fold_left (fun n d => n * 16 + d) l 0 * 16 + d.
Proof. now rewrite fold_left_app. Qed.

Lemma toString16_value (fuel : nat) (n : Z) :
  0 <= n < 16 ^ Z.of_nat fuel ->
  fold_left (fun n d => n * 16 + d) (toString16 fuel n) 0 = n.
Proof.
  revert n. induction fuel as [|f IH]; intros n Hn.
  - cbn in *. lia.
  - cbn [toString16]. destruct (Z.leb_spec n 0) as [H0|Hpos]; [cbn; lia|].
    rewrite hex_snoc, IH.
    + clear - Hpos. Z.div_mod_to_equations. lia.
    + rewrite Nat2Z.inj_succ, Z.pow_succ_r in Hn by lia.
      clear - Hn Hpos. split; [apply Z.div_pos; lia|].
      apply Z.div_lt_upper_bound; lia.
Qed.

Lemma toString16_digits (fuel : nat) (n : Z) :
  Forall (fun d => 0 <= d < 16) (toString16 fuel n).
Proof.
  revert n. induction fuel as [|f IH]; intros n; [constructor|].
  cbn [toString16]. destruct (n <=? 0); [constructor|].
  apply Forall_app. split; [apply IH|].
  constructor; [|constructor]. apply Z.mod_pos_bound. lia.
Qed.

Lemma toString16_head (fuel : nat) (n : Z) :
  0 < n < 16 ^ Z.of_nat fuel ->
  exists d rest, toString16 fuel n = d :: rest /\ 0 < d.
Proof.
  revert n. induction fuel as [|f IH]; intros n Hn.
  - cbn in Hn. lia.
  - cbn [toString16]. destruct (Z.leb_spec n 0) as [H0|Hpos]; [lia|].
    destruct (Z.eq_dec (n / 16) 0) as [Hz|Hnz].
    + exists (n mod 16), []. rewrite Hz.
      assert (Hnil : toString16 f 0 = []) by (now destruct f).
      rewrite Hnil. split; [reflexivity|].
      clear - Hz Hpos. Z.div_mod_to_equations. lia.
    + destruct (IH (n / 16)) as (d & rest & Heq & Hd).
      * rewrite Nat2Z.inj_succ, Z.pow_succ_r in Hn by lia.
        split.
        -- assert (0 <= n / 16) by (apply Z.div_pos; lia). lia.
        -- apply Z.div_lt_upper_bound; lia.
      * exists d, (rest ++ [n mod 16]). rewrite Heq. now split.
Qed.

Lemma length_toString16 (fuel : nat) (n : Z) :
  (length (toString16 fuel n) <= fuel)%nat.
Proof.
  revert n. induction fuel as [|f IH]; intros n; [reflexivity|].
  cbn [toString16]. destruct (n <=? 0); [cbn; lia|].
  rewrite length_app. cbn [length]. specialize (IH (n / 16)). lia.
Qed.

Lemma pairs_ind (P : list Z -> Prop) :
  P [] -> (forall a, P [a]) -> (forall a b l, P l -> P (a :: b :: l)) ->
  forall l, P l.
Proof.
  intros H0 H1 H2 l.
  assert (H : P l /\ forall a, P (a :: l)).
  { induction l as [|b l [IHl IHa]]; [now split|].
    split; [apply IHa|]. intros a. now apply H2. }
  apply H.
Qed.

Lemma parseHexPairs_value (l : list Z) :
  Forall (fun d => 0 <= d < 16) l -> Nat.even (length l) = true ->
  forall acc,
    fold_left (fun n x => n * 256 + byte.unsigned x) (parseHexPairs l) acc
    = fold_left (fun n d => n * 16 + d) l acc.
Proof.
  induction l as [|a|a b l IH] using pairs_ind; intros Hd He acc.
  - reflexivity.
  - discriminate.
  - inversion Hd as [|? ? Ha Hd']. inversion Hd' as [|? ? Hb Hd'']. subst.
    cbn [parseHexPairs fold_left]. rewrite unsigned_of_Z_small by lia.
    rewrite IH by assumption. f_equal. lia.
Qed.

Lemma length_parseHexPairs (l : list Z) :
  (length (parseHexPairs l) <= length l)%nat.
Proof.
  induction l as [|a|a b l IH] using pairs_ind; cbn [parseHexPairs length]; lia.
Qed.

Lemma log2_fuel (n : Z) :
  0 < n -> n < 16 ^ Z.of_nat (S (Z.to_nat (Z.log2 n))).
Proof.
  intros Hn. pose proof (Z.log2_spec n Hn) as [_ Hup].
  pose proof (Z.log2_nonneg n) as Hl.
  rewrite Nat2Z.inj_succ, Z2Nat.id by assumption.
  eapply Z.lt_le_trans; [exact Hup|].
  apply Z.pow_le_mono_l. lia.
Qed.

(** The digits [bigintToBytes] parses: an even number of them, with the
    value of [n] and a non-zero digit among the first two. *)
Lemma bigintToBytes_digits (n : Z) :
  0 < n ->
  exists d0 d1 rest,
    bigintToBytes n = parseHexPairs (d0 :: d1 :: rest)
    /\ Forall (fun d => 0 <= d < 16) (d0 :: d1 :: rest)
    /\ Nat.even (length (d0 :: d1 :: rest)) = true
    /\ fold_left (fun n d => n * 16 + d) (d0 :: d1 :: rest) 0 = n
    /\ 0 < 16 * d0 + d1
    /\ (length (d0 :: d1 :: rest) <= S (S (Z.to_nat (Z.log2 n))))%nat.
Proof.
  intros Hn. unfold bigintToBytes.
  destruct (Z.eqb_spec n 0) as [?|_]; [lia|].
  set (fuel := S (Z.to_nat (Z.log2 n))).
  pose proof (log2_fuel n Hn) as Hf. fold fuel in Hf.
  pose proof (toString16_value fuel n ltac:(lia)) as Hv.
  pose proof (toString16_digits fuel n) as Hd.
  pose proof (length_toString16 fuel n) as Hlen.
  destruct (toString16_head fuel n ltac:(lia)) as (d & rest & Heq & Hpos).
  rewrite Heq in *. cbv zeta.
  destruct (Nat.odd (length (d :: rest))) eqn:Hodd.
  - exists 0, d, rest. split; [reflexivity|]. split; [constructor; [lia | assumption]|].
    split.
    + cbn [length]. rewrite Nat.even_succ. exact Hodd.
    + split; [exact Hv|]. split; [lia|]. cbn [length] in *. lia.
  - destruct rest as [|d1 rest]; [discriminate|].
    exists d, d1, rest. split; [reflexivity|]. split; [assumption|].
    split.
    + rewrite <- Nat.negb_odd, Hodd. reflexivity.
    + split; [exact Hv|]. inversion Hd as [|? ? _ Hd']. inversion Hd' as [|? ? Hd1 _].
      split; [lia|]. cbn [length] in *. lia.
Qed.

Lemma bigintToBytes_pos (n : Z) :
  0 < n ->
  beValue (bigintToBytes n) = n
  /\ (exists b rest, bigintToBytes n = b :: rest /\ b <> Byte.x00)
  /\ (length (bigintToBytes n) <= S (S (Z.to_nat (Z.log2 n))))%nat.
Proof.
  intros Hn.
  destruct (bigintToBytes_digits n Hn) as (d0 & d1 & rest & Heq & Hd & He & Hv & Hh & Hl).
  rewrite Heq. split; [|split].
  - unfold beValue. now rewrite parseHexPairs_value.
  - cbn [parseHexPairs]. eexists _, _. split; [reflexivity|].
    inversion Hd as [|? ? Hr0 Hd']. inversion Hd' as [|? ? Hr1 _].
    intros Hz. apply (f_equal byte.unsigned) in Hz.
    rewrite unsigned_of_Z_small in Hz by lia.
    change (byte.unsigned Byte.x00) with 0 in Hz. lia.
  - pose proof (length_parseHexPairs (d0 :: d1 :: rest)). lia.
Qed.

(** [bigintToBytes] gives the shortest big-endian encoding: for a positive
    [n] the bytes have the value [n] and start with a non-zero byte, and
    zero is the single byte 0. *)
Theorem bigintToBytes_minimal (n : Z) :
  0 <= n ->
  beValue (bigintToBytes n) = n
  /\ (n = 0 -> bigintToBytes n = [Byte.x00])
  /\ (0 < n -> exists b rest, bigintToBytes n = b :: rest /\ b <> Byte.x00).
Proof.
  intros Hn. destruct (Z.eq_dec n 0) as [->|Hne].
  - split; [reflexivity|]. split; [reflexivity | lia].
  - destruct (bigintToBytes_pos n ltac:(lia)) as (Hv & Hh & _).
    split; [exact Hv|]. split; [lia | intros _; exact Hh].
Qed.

(** [bytesToBigint] does not invert [bigintToBytes]: the two agree on [n]
    when the first byte written has its high bit clear, and otherwise the
    bytes read back as the negative number [n - 256 ^ length]. *)
Theorem bytesToBigint_bigintToBytes (n : Z) :
  0 <= n ->
  (msbSet (bigintToBytes n) = false -> bytesToBigint (bigintToBytes n) = n)
  /\ (msbSet (bigintToBytes n) = true ->
      bytesToBigint (bigintToBytes n) = n - 256 ^ len (bigintToBytes n)
      /\ bytesToBigint (bigintToBytes n) < 0).
Proof.
  intros Hn. rewrite bytesToBigint_value.
  assert (Hv : beValue (bigintToBytes n) = n).
  { destruct (Z.eq_dec n 0) as [->|Hne]; [reflexivity|].
    now destruct (bigintToBytes_pos n ltac:(lia)). }
  pose proof (beValue_bound (bigintToBytes n)) as Hb. rewrite Hv in *.
  split; intros Hm; rewrite Hm.
  - now rewrite andb_false_r.
  - assert (Hpos : 0 < len (bigintToBytes n)).
    { destruct (bigintToBytes n); [discriminate | unfold len; cbn [length]; lia]. }
    destruct (Z.ltb_spec 0 (len (bigintToBytes n))); [|lia].
    cbn [andb]. split; [reflexivity | lia].
Qed.

(** *** Mpint fields *)

Lemma readBytes_whole (b : Uint8Array) :
  len b < 2 ^ 32 -> readBytes (writeBytes b) 0 = Some (mkBytesValue b (4 + len b)).
Proof.
  intros Hb. pose proof (readBytes_at [] b [] Hb) as H.
  cbn [app] in H. now rewrite app_nil_r in H.
Qed.

Lemma readMpint_writeBytes (b : Uint8Array) :
  len b < 2 ^ 32 ->
  readMpint (writeBytes b) 0 = Some (mkBigintValue (bytesToBigint b) (4 + len b)).
Proof.
  intros Hb. unfold readMpint. now rewrite readBytes_whole.
Qed.

Lemma len_writeBytes (b : Uint8Array) : len (writeBytes b) = 4 + len b.
Proof. unfold writeBytes. now rewrite len_app, len_writeUint32. Qed.

Lemma readMpint_writeBigintMpint_abs (n : Z) :
  Z.log2 (Z.abs n) < 2 ^ 32 - 8 ->
  readMpint (writeBigintMpint n) 0
  = Some (mkBigintValue (Z.abs n) (len (writeBigintMpint n))).
Proof.
  intros Hlog. unfold writeBigintMpint.
  destruct (Z.eqb_spec n 0) as [->|Hne].
  - rewrite readMpint_writeBytes by (cbn; lia). reflexivity.
  - set (m := if n <? 0 then - n else n).
    assert (Hm : m = Z.abs n) by (unfold m; destruct (Z.ltb_spec n 0); lia).
    assert (Hpos : 0 < m) by lia.
    destruct (bigintToBytes_pos m Hpos) as (Hv & _ & Hl).
    cbv zeta. fold m.
    set (bytes := if msbSet (bigintToBytes m) then Byte.x00 :: bigintToBytes m
                  else bigintToBytes m).
    assert (Hlb : len bytes < 2 ^ 32).
    { assert (Hlog' : Z.log2 m < 2 ^ 32 - 8) by (rewrite Hm; exact Hlog).
      pose proof (Z.log2_nonneg m).
      change (2 ^ 32) with 4294967296 in *.
      unfold bytes, len. destruct (msbSet (bigintToBytes m)); cbn [length]; lia. }
    rewrite readMpint_writeBytes, len_writeBytes by assumption.
    do 2 f_equal. rewrite bytesToBigint_value, <- Hm, <- Hv.
    unfold bytes. destruct (msbSet (bigintToBytes m)) eqn:Hmsb.
    + rewrite msbSet_cons. change (byte.unsigned Byte.x00) with 0.
      cbn [Z.leb Z.compare andb]. rewrite andb_false_r.
      rewrite beValue_cons. change (byte.unsigned Byte.x00) with 0. lia.
    + rewrite Hmsb. now rewrite andb_false_r.
Qed.

(** Reading back what [writeBigintMpint] wrote gives the absolute value:
    the encoding never has its sign bit set, so the sign of a negative
    number is lost. *)
Theorem readMpint_writeBigintMpint (n : Z) :
  Z.log2 (Z.abs n) < 2 ^ 32 - 8 ->
  readMpint (writeBigintMpint n) 0
  = Some (mkBigintValue (Z.abs n) (len (writeBigintMpint n))).
Proof. apply readMpint_writeBigintMpint_abs. Qed.

(** Reading back what [writeByteMpint] wrote gives the unsigned big-endian
    value of the bytes, which is never negative. *)
Theorem readMpint_writeByteMpint (k : Uint8Array) :
  len k < 2 ^ 32 - 1 ->
  readMpint (writeByteMpint k) 0
  = Some (mkBigintValue (beValue k) (len (writeByteMpint k)))
  /\ 0 <= beValue k.
Proof.
  intros Hk. split; [|apply beValue_bound].
  unfold writeByteMpint.
  set (kk := if (0 <? len k) && msbSet k then Byte.x00 :: k else k).
  assert (Hlb : len kk < 2 ^ 32).
  { unfold kk, len in *. destruct ((0 <? _) && msbSet k); cbn [length]; lia. }
  rewrite readMpint_writeBytes, len_writeBytes by assumption.
  do 2 f_equal. rewrite bytesToBigint_value. unfold kk.
  destruct ((0 <? len k) && msbSet k) eqn:Hc.
  - rewrite msbSet_cons. change (byte.unsigned Byte.x00) with 0.
    cbn [Z.leb Z.compare]. rewrite andb_false_r.
    rewrite beValue_cons. change (byte.unsigned Byte.x00) with 0. lia.
  - now rewrite Hc.
Qed.

(** *** The sign of a multi-precision integer *)

Lemma msbSet_nonempty (b : Uint8Array) : msbSet b = true -> 0 < len b.
Proof. destruct b; [discriminate|]. intros _. unfold len. cbn [length]. lia. Qed.

Lemma readMpint_negative (pre b rest : Uint8Array) :
  msbSet b = true -> len b < 2 ^ 32 ->
  exists fMpint,
    readMpint (pre ++ writeBytes b ++ rest) (len pre) = Some fMpint
    /\ bigintValue fMpint < 0.
Proof.
  intros Hmsb Hlen. pose proof (msbSet_nonempty b Hmsb) as Hpos.
  unfold readMpint. rewrite (readBytes_at pre b rest Hlen). cbv zeta.
  cbn [bytesValue bytesConsumed]. eexists. split; [reflexivity|].
  cbn [bigintValue]. pose proof (bytesToBigint_value b) as Hv.
  unfold bytesToBigint in Hv. cbv zeta in Hv. rewrite Hv.
  destruct (Z.ltb_spec 0 (len b)) as [_|?]; [|lia].
  rewrite Hmsb. cbn [andb]. pose proof (beValue_bound b). lia.
Qed.

(** C9 (amended): [writeBigintMpint] discards the sign.  For every
    negative [n] whose encoding fits the length field it writes the bytes
    it writes for [-n], and these are the mpint of the absolute value:
    [readMpint] reads [-n] back.  Its callers are not limited to
    non-negative numbers: the [KEXDH_REPLY] branch hands it [f] as
    [readMpint] returned it and [k = modPow(f, dhX, DH_PRIME)] without a
    sign test, and [readMpint] returns a negative number whenever the
    first byte of the field has its high bit set. *)
Theorem writeBigintMpint_negative (n : Z) :
  n < 0 -> Z.log2 (- n) < 2 ^ 32 - 8 ->
  writeBigintMpint n = writeBigintMpint (- n)
  /\ readMpint (writeBigintMpint n) 0
     = Some (mkBigintValue (- n) (len (writeBigintMpint n)))
  /\ (forall (x e : Z) (ic is_ p : Uint8Array) (o : SSHConnectionOrchestrator)
             (ks : BytesValue) (fMpint : BigintValue),
        readBytes p 1 = Some ks ->
        readMpint p (1 + bytesConsumed ks) = Some fMpint ->
        let f := bigintValue fMpint in
        let k := modPow f x DH_PRIME in
        kexDHMpints x e p = Some (e, f, k)
        /\ onKexDHReply x e ic is_ p o
           = (Normal,
              installKeys (writeBigintMpint k)
                (computeSHA256
                   (concat [writeString CLIENT_IDENT;
                            writeString
                              (stripLineEnd
                                 (serverIdent (connState (clearKexTimeout o))));
                            writeBytes ic; writeBytes is_; writeBytes (bytesValue ks);
                            writeBigintMpint e; writeBigintMpint f;
                            writeBigintMpint k]))
                (clearKexTimeout o)))
  /\ (forall pre b rest : Uint8Array,
        msbSet b = true -> len b < 2 ^ 32 ->
        exists fMpint,
          readMpint (pre ++ writeBytes b ++ rest) (len pre) = Some fMpint
          /\ bigintValue fMpint < 0).
Proof.
  intros Hn Hlog. split; [now apply writeBigintMpint_opp|]. split.
  - replace (- n) with (Z.abs n) by lia.
    apply readMpint_writeBigintMpint_abs. now replace (Z.abs n) with (- n) by lia.
  - split.
    + intros x e ic is_ p o ks fMpint Hks Hf f k. split.
      * unfold kexDHMpints. now rewrite Hks, Hf.
      * unfold onKexDHReply. now rewrite Hks, Hf.
    + intros pre b rest. apply readMpint_negative.
Qed.

(** ** Packet framing: protocol/codec.ts *)

Lemma getUint32_buildPacket (rnd : nat -> byte) (p tl : Uint8Array) (etm : bool) :
  len p < 2 ^ 32 - 20 ->
  getUint32 (buildPacket rnd p etm ++ tl) 0 = 1 + len p + calculatePadding (len p) etm.
Proof.
  intros Hp. change (2 ^ 32) with 4294967296 in Hp.
  pose proof (calculatePadding_range (len p) etm) as Hpad.
  pose proof (len_nonneg p) as Hnn.
  unfold buildPacket. rewrite <- app_assoc.
  apply getUint32_writeUint32. change (2 ^ 32) with 4294967296. lia.
Qed.

Lemma parsePacket_app (rnd : nat -> byte) (p rest : Uint8Array) (etm : bool) :
  len p < 2 ^ 32 - 20 ->
  parsePacket (buildPacket rnd p etm ++ rest)
  = Some (mkParsedPacket p (len (buildPacket rnd p etm))).
Proof.
  intros Hp. pose proof (getUint32_buildPacket rnd p rest etm Hp) as Hg.
  change (2 ^ 32) with 4294967296 in Hp.
  pose proof (calculatePadding_range (len p) etm) as Hpad.
  pose proof (len_nonneg p) as Hnn. pose proof (len_nonneg rest) as Hr.
  pose proof (len_buildPacket rnd p etm) as Hlen.
  set (plen := 1 + len p + calculatePadding (len p) etm) in *.
  unfold parsePacket. rewrite len_app, Hlen, Hg.
  destruct (Z.ltb_spec (4 + plen + len rest) 5) as [?|_]; [lia|].
  destruct (Z.ltb_spec (4 + plen + len rest) (4 + plen)) as [?|_]; [lia|].
  assert (Hpb : nth 4 (buildPacket rnd p etm ++ rest) Byte.x00
                = byte.of_Z (calculatePadding (len p) etm)) by reflexivity.
  rewrite Hpb, unsigned_of_Z_small by lia. do 2 f_equal.
  replace (plen - 1 - calculatePadding (len p) etm) with (len p) by (unfold plen; lia).
  unfold buildPacket. fold plen.
  rewrite <- !app_assoc. rewrite (app_assoc (writeUint32 plen) [_]).
  apply slice_inner; reflexivity.
Qed.

Lemma parsePacket_prefix (rnd : nat -> byte) (p : Uint8Array) (etm : bool) (k : nat) :
  len p < 2 ^ 32 - 20 -> (k < length (buildPacket rnd p etm))%nat ->
  parsePacket (firstn k (buildPacket rnd p etm)) = None.
Proof.
  intros Hp Hk.
  pose proof (getUint32_buildPacket rnd p [] etm Hp) as Hg. rewrite app_nil_r in Hg.
  pose proof (len_buildPacket rnd p etm) as Hlen.
  unfold parsePacket.
  assert (Hl : len (firstn k (buildPacket rnd p etm)) = Z.of_nat k).
  { unfold len. rewrite length_firstn. lia. }
  rewrite Hl. destruct (Z.ltb_spec (Z.of_nat k) 5) as [?|H5]; [reflexivity|].
  rewrite getUint32_firstn by lia. rewrite Hg.
  destruct (Z.ltb_spec (Z.of_nat k)
              (4 + (1 + len p + calculatePadding (len p) etm))) as [?|Hge];
    [reflexivity|].
  unfold len in *. lia.
Qed.

(** [parsePacket] takes exactly one packet off the front of a buffer: it
    returns the payload [buildPacket] was given and the packet's length,
    whatever follows the packet, and returns [null] on any proper prefix
    of the packet. *)
Theorem parsePacket_framing (rnd : nat -> byte) (p rest : Uint8Array) (etm : bool)
  (k : nat) :
  len p < 2 ^ 32 - 20 ->
  parsePacket (buildPacket rnd p etm ++ rest)
  = Some (mkParsedPacket p (len (buildPacket rnd p etm)))
  /\ ((k < length (buildPacket rnd p etm))%nat ->
      parsePacket (firstn k (buildPacket rnd p etm)) = None).
Proof.
  intros Hp. split; [now apply parsePacket_app | now apply parsePacket_prefix].
Qed.

(** [buildPacket] pads with at least 4 and at most 19 bytes, and so that
    the bytes that get encrypted fill whole cipher blocks: the packet
    without its length field in ETM mode, the whole packet otherwise. *)
Theorem buildPacket_aligned (rnd : nat -> byte) (p : Uint8Array) (etm : bool) :
  4 <= calculatePadding (len p) etm <= 19
  /\ (len (buildPacket rnd p etm) - (if etm then 4 else 0)) mod AES_BLOCK_SIZE = 0
  /\ byte.unsigned (nth 4 (buildPacket rnd p etm) Byte.x00)
     = calculatePadding (len p) etm.
Proof.
  pose proof (calculatePadding_range (len p) etm) as Hpad.
  split; [exact Hpad|]. split.
  - rewrite len_buildPacket. revert Hpad.
    unfold calculatePadding, MIN_PADDING, AES_BLOCK_SIZE.
    generalize (len p). intros l _. clear.
    destruct etm; Z.div_mod_to_equations; lia.
  - change (nth 4 (buildPacket rnd p etm) Byte.x00)
      with (byte.of_Z (calculatePadding (len p) etm)).
    apply unsigned_of_Z_small. lia.
Qed.

(** ** crypto/arithmetic.ts and crypto/mac.ts *)

Lemma modPowLoop_spec (e : positive) (r b m : Z) :
  0 <= r -> 0 <= b -> 0 < m ->
  modPowLoop e r b m = (r * b ^ Zpos e) mod m.
Proof.
  revert r b. induction e as [e IH|e IH|]; intros r b Hr Hb Hm; cbn [modPowLoop].
  - rewrite !Z.rem_mod_nonneg by nia.
    rewrite IH by (try apply Z.mod_pos_bound; lia).
    rewrite Pos2Z.inj_xI, Z.pow_add_r, Z.pow_1_r, Z.pow_mul_r, Z.pow_2_r by lia.
    rewrite Z.mul_mod, Z.mod_mod, Z.mod_pow_l, <- Z.mul_mod by lia.
    f_equal. lia.
  - rewrite !Z.rem_mod_nonneg by nia.
    rewrite IH by (try apply Z.mod_pos_bound; lia).
    rewrite Pos2Z.inj_xO, Z.pow_mul_r, Z.pow_2_r by lia.
    rewrite Z.mul_mod, Z.mod_pow_l, <- Z.mul_mod by lia.
    reflexivity.
  - rewrite Z.rem_mod_nonneg by nia. now rewrite Z.pow_1_r.
Qed.

(** [modPow] computes [base ^ exp mod modulus] for a non-negative base, a
    positive exponent and a positive modulus; for an exponent that is not
    positive it returns 1, also for modulus 1, where every power is 0
    modulo 1. *)
Theorem modPow_spec (base exp modulus : Z) :
  0 <= base -> 0 < modulus ->
  (0 < exp -> modPow base exp modulus = base ^ exp mod modulus)
  /\ (exp <= 0 -> modPow base exp modulus = 1).
Proof.
  intros Hb Hm. unfold modPow. split; intros He.
  - destruct exp as [|e|e]; try lia.
    rewrite Z.rem_mod_nonneg by lia.
    rewrite modPowLoop_spec by (try apply Z.mod_pos_bound; lia).
    rewrite Z.mul_1_l. apply Z.mod_pow_l.
  - destruct exp as [|e|e]; [reflexivity | lia | reflexivity].
Qed.

(** [constantTimeEqual] answers [true] exactly for equal arrays, arrays of
    different lengths included. *)
Theorem constantTimeEqual_decides (a b : Uint8Array) :
  (constantTimeEqual a b = true <-> a = b)
  /\ (length a <> length b -> constantTimeEqual a b = false).
Proof.
  split; [apply constantTimeEqual_iff|].
  intros Hl. apply constantTimeEqual_false. intros ->. now apply Hl.
Qed.

(** ** crypto/cipher.ts *)

Lemma firstn_succ_skipn (l : Uint8Array) (i : nat) (x : byte) (rest : Uint8Array) :
  skipn i l = x :: rest -> firstn (S i) l = firstn i l ++ [x].
Proof.
  revert i. induction l as [|y l IH]; intros i H.
  - now rewrite skipn_nil in H.
  - destruct i as [|i].
    + cbn in H. injection H as -> ->. reflexivity.
    + cbn [skipn] in H. cbn [firstn app]. f_equal. now apply IH.
Qed.

Lemma skipn_succ_skipn (l : Uint8Array) (i : nat) (x : byte) (rest : Uint8Array) :
  skipn i l = x :: rest -> skipn (S i) l = rest.
Proof.
  intros H. replace (S i) with (1 + i)%nat by lia.
  rewrite <- skipn_skipn, H. reflexivity.
Qed.

Lemma carry_step (V M s : Z) :
  0 < M -> 0 <= s ->
  (V * 256 + s) mod (256 * M) = ((V + s / 256) mod M) * 256 + s mod 256.
Proof.
  intros HM Hs. symmetry.
  pose proof (Z.mod_pos_bound (V + s / 256) M HM) as Hw.
  pose proof (Z.mod_pos_bound s 256 ltac:(lia)) as Ht.
  apply Z.mod_unique_pos with (q := (V + s / 256) / M); [lia|].
  pose proof (Z.div_mod (V + s / 256) M ltac:(lia)) as Hd.
  pose proof (Z.div_mod s 256 ltac:(lia)) as Hs'.
  nia.
Qed.

Lemma incrementCounterLoop_spec (n : nat) (r : Uint8Array) (carry : Z) :
  (n <= length r)%nat -> 0 <= carry ->
  length (incrementCounterLoop n r carry) = length r
  /\ skipn n (incrementCounterLoop n r carry) = skipn n r
  /\ beValue (firstn n (incrementCounterLoop n r carry))
     = (beValue (firstn n r) + carry) mod 256 ^ Z.of_nat n.
Proof.
  revert r carry. induction n as [|i IH]; intros r carry Hn Hc.
  - cbn [incrementCounterLoop firstn]. repeat split.
    change (256 ^ Z.of_nat 0) with 1. now rewrite Z.mod_1_r.
  - assert (Hkeep : length r = length r /\ skipn (S i) r = skipn (S i) r
                    /\ beValue (firstn (S i) r)
                       = (beValue (firstn (S i) r) + 0) mod 256 ^ Z.of_nat (S i)).
    { repeat split. rewrite Z.add_0_r. symmetry. apply Z.mod_small.
      pose proof (beValue_bound (firstn (S i) r)) as Hb.
      unfold len in Hb. rewrite length_firstn in Hb.
      now replace (Nat.min (S i) (length r)) with (S i) in Hb by lia. }
    cbn [incrementCounterLoop].
    destruct (Z.ltb_spec 0 carry) as [Hpos|Hz];
      [|replace carry with 0 by lia; exact Hkeep].
    destruct (nth_error r i) as [b|] eqn:Hb;
      [|apply nth_error_None in Hb; lia].
    pose proof (unsigned_range_256 b) as Hbr.
    set (sum := byte.unsigned b + carry).
    set (nb := byte.of_Z (Z.land sum 255)).
    set (r1 := firstn i r ++ nb :: skipn (S i) r).
    assert (Hfl : length (firstn i r) = i) by (rewrite length_firstn; lia).
    assert (Hl1 : length r1 = length r).
    { unfold r1. rewrite length_app. cbn [length]. rewrite Hfl, length_skipn. lia. }
    assert (Hsum : 0 <= sum) by (unfold sum; lia).
    destruct (IH r1 (Z.shiftr sum 8)) as (IHl & IHs & IHv).
    { lia. }
    { rewrite Z.shiftr_div_pow2 by lia. apply Z.div_pos; lia. }
    set (r' := incrementCounterLoop i r1 (Z.shiftr sum 8)) in *.
    assert (Hs1 : skipn i r1 = nb :: skipn (S i) r).
    { unfold r1. rewrite skipn_app, Hfl, Nat.sub_diag.
      rewrite (skipn_all2 (n := i)) by lia. reflexivity. }
    assert (Hf1 : firstn i r1 = firstn i r).
    { unfold r1. rewrite firstn_app, Hfl, Nat.sub_diag, firstn_O, app_nil_r.
      apply firstn_all2. lia. }
    rewrite Hs1 in IHs. rewrite Hf1 in IHv.
    split; [lia|]. split; [now apply (skipn_succ_skipn r' i nb)|].
    rewrite (firstn_succ_skipn r' i nb _ IHs), beValue_snoc, IHv.
    assert (Hsr : skipn i r = b :: skipn (S i) r).
    { rewrite <- (firstn_skipn_middle i r Hb) at 1.
      rewrite skipn_app, Hfl, Nat.sub_diag.
      rewrite (skipn_all2 (n := i)) by lia. reflexivity. }
    rewrite (firstn_succ_skipn r i b _ Hsr), beValue_snoc.
    rewrite Nat2Z.inj_succ, Z.pow_succ_r by lia.
    unfold nb. change 255 with (Z.ones 8). rewrite Z.land_ones by lia.
    change (2 ^ 8) with 256.
    rewrite unsigned_of_Z_small by (apply Z.mod_pos_bound; lia).
    rewrite Z.shiftr_div_pow2 by lia. change (2 ^ 8) with 256.
    replace (beValue (firstn i r) * 256 + byte.unsigned b + carry)
      with (beValue (firstn i r) * 256 + sum) by (unfold sum; lia).
    symmetry. apply carry_step; [apply Z.pow_pos_nonneg; lia | assumption].
Qed.

(** [incrementCounter] adds [count] to a 16-byte counter block read as a
    128-bit big-endian number, wrapping at 2^128; the block keeps its
    length.  The bound on [count] keeps every sum of a byte and a carry
    within the 32-bit range of [&] and [>>]. *)
Theorem incrementCounter_value (iv : Uint8Array) (count : Z) :
  length iv = 16%nat -> 0 <= count <= 2 ^ 31 - 256 ->
  length (incrementCounter iv count) = 16%nat
  /\ beValue (incrementCounter iv count) = (beValue iv + count) mod 2 ^ 128.
Proof.
  intros Hl Hc. unfold incrementCounter.
  destruct (incrementCounterLoop_spec 16 iv count) as (Hlen & _ & Hv); [lia | lia |].
  split; [lia|].
  rewrite !firstn_all2 in Hv by lia. exact Hv.
Qed.

Lemma incrementCounter_loop_one (iv : Uint8Array) :
  length iv = 16%nat ->
  length (incrementCounter iv 1) = 16%nat
  /\ beValue (incrementCounter iv 1) = (beValue iv + 1) mod 2 ^ 128.
Proof.
  intros Hl. unfold incrementCounter.
  destruct (incrementCounterLoop_spec 16 iv 1) as (Hlen & _ & Hv); [lia | lia |].
  split; [lia|].
  rewrite !firstn_all2 in Hv by lia. exact Hv.
Qed.

Lemma ctrStream_app (k m : nat) (key : CryptoKey) (iv a b : Uint8Array) :
  length a = (16 * k)%nat ->
  ctrStream (k + m) key iv (a ++ b)
  = (fst (ctrStream k key iv a)
       ++ fst (ctrStream m key (snd (ctrStream k key iv a)) b),
     snd (ctrStream m key (snd (ctrStream k key iv a)) b)).
Proof.
  revert iv a. induction k as [|k IH]; intros iv a Ha.
  - destruct a; [|discriminate]. cbn [Nat.add ctrStream fst snd app].
    now destruct (ctrStream m key iv b).
  - cbn [Nat.add ctrStream fst snd].
    rewrite firstn_app, skipn_app.
    replace (16 - length a)%nat with 0%nat by lia.
    rewrite firstn_O, skipn_O, app_nil_r.
    rewrite IH by (rewrite length_skipn; lia).
    cbn [fst snd]. now rewrite app_assoc.
Qed.

Lemma blockCount_whole (k : nat) (n : Z) :
  0 <= n -> blockCount (Z.of_nat (16 * k) + n) = (k + blockCount n)%nat.
Proof.
  intros Hn. unfold blockCount, AES_BLOCK_SIZE.
  replace (Z.of_nat (16 * k) + n + 16 - 1) with (Z.of_nat k * 16 + (n + 16 - 1)) by lia.
  rewrite Z.div_add_l by lia.
  assert (0 <= (n + 16 - 1) / 16) by (apply Z.div_pos; lia).
  lia.
Qed.

(** Encrypting a buffer whose first part fills whole blocks gives the
    encryption of that part followed by the encryption of the rest under
    the counter the first part left behind: a stream can be encrypted
    piece by piece. *)
Theorem encryptAES128CTR_chain (key : CryptoKey) (iv a b : Uint8Array) :
  len a mod AES_BLOCK_SIZE = 0 ->
  encryptAES128CTR key iv (a ++ b)
  = (fst (encryptAES128CTR key iv a)
       ++ fst (encryptAES128CTR key (snd (encryptAES128CTR key iv a)) b),
     snd (encryptAES128CTR key (snd (encryptAES128CTR key iv a)) b)).
Proof.
  intros Ha. unfold AES_BLOCK_SIZE in Ha.
  assert (Hk : exists k, length a = (16 * k)%nat).
  { exists (Z.to_nat (len a / 16)). unfold len in *.
    clear - Ha. Z.div_mod_to_equations. lia. }
  destruct Hk as [k Hk].
  rewrite !encryptAES128CTR_stream.
  assert (Hca : blockCount (len a) = k).
  { pose proof (blockCount_whole k 0 ltac:(lia)) as H.
    unfold len. rewrite Hk. rewrite Z.add_0_r in H. rewrite H.
    change (blockCount 0) with 0%nat. lia. }
  assert (Hcab : blockCount (len (a ++ b)) = (k + blockCount (len b))%nat).
  { rewrite len_app. unfold len at 1. rewrite Hk.
    apply blockCount_whole. apply len_nonneg. }
  rewrite Hca, Hcab. now apply ctrStream_app.
Qed.

Lemma ctrStream_nextIv (k : nat) (key : CryptoKey) (iv data : Uint8Array) :
  snd (ctrStream k key iv data) = Nat.iter k (fun v => incrementCounter v 1) iv.
Proof.
  revert iv data. induction k as [|k IH]; intros iv data; [reflexivity|].
  cbn [ctrStream snd]. rewrite IH. symmetry. apply Nat.iter_succ_r.
Qed.

Lemma iter_incrementCounter (k : nat) (iv : Uint8Array) :
  length iv = 16%nat ->
  length (Nat.iter k (fun v => incrementCounter v 1) iv) = 16%nat
  /\ beValue (Nat.iter k (fun v => incrementCounter v 1) iv)
     = (beValue iv + Z.of_nat k) mod 2 ^ 128.
Proof.
  intros Hl. induction k as [|k [IHl IHv]].
  - split; [exact Hl|]. change (Nat.iter 0 (fun v => incrementCounter v 1) iv) with iv.
    rewrite Z.add_0_r. symmetry.
    apply Z.mod_small. pose proof (beValue_bound iv) as Hb.
    unfold len in Hb. rewrite Hl in Hb. exact Hb.
  - rewrite Nat.iter_succ.
    destruct (incrementCounter_loop_one (Nat.iter k (fun v => incrementCounter v 1) iv) IHl)
      as [Hl' Hv'].
    split; [exact Hl'|]. rewrite Hv', IHv.
    rewrite Z.add_mod_idemp_l by lia. f_equal. lia.
Qed.

(** [encryptAES128CTR] returns as many bytes as it was given, and the
    counter it returns is the given 16-byte counter advanced, as a 128-bit
    big-endian number, by the number of blocks the data occupies. *)
Theorem encryptAES128CTR_nextIv (key : CryptoKey) (iv data : Uint8Array) :
  length iv = 16%nat ->
  len (fst (encryptAES128CTR key iv data)) = len data
  /\ length (snd (encryptAES128CTR key iv data)) = 16%nat
  /\ beValue (snd (encryptAES128CTR key iv data))
     = (beValue iv + (len data + 15) / 16) mod 2 ^ 128.
Proof.
  intros Hl. split; [apply len_decryptAES128CTR|].
  rewrite encryptAES128CTR_stream, ctrStream_nextIv.
  destruct (iter_incrementCounter (blockCount (len data)) iv Hl) as [Hl' Hv].
  split; [exact Hl'|]. rewrite Hv. do 2 f_equal.
  unfold blockCount, AES_BLOCK_SIZE.
  replace (len data + 16 - 1) with (len data + 15) by lia.
  apply Z2Nat.id. apply Z.div_pos; [pose proof (len_nonneg data); lia | lia].
Qed.

(** Decrypting with the key and counter used to encrypt gives the
    plaintext back and leaves the same next counter, whatever block
    function the platform's AES applies to the counter. *)
Theorem decryptAES128CTR_encryptAES128CTR (key : CryptoKey) (iv data : Uint8Array) :
  decryptAES128CTR key iv (fst (encryptAES128CTR key iv data))
  = (data, snd (encryptAES128CTR key iv data)).
Proof. apply decrypt_encrypt_CTR. Qed.

(** ** transport/transportcipher.ts *)

Lemma subarray_app_l (data rest : Uint8Array) (s e : Z) :
  0 <= s -> 0 <= e <= len data ->
  subarray (data ++ rest) s e = subarray data s e.
Proof.
  intros Hs He. rewrite !subarray_Z by lia.
  destruct (Z.le_gt_cases e s) as [Hle|Hgt].
  - replace (Z.to_nat e - Z.to_nat s)%nat with 0%nat by lia. reflexivity.
  - rewrite skipn_app, firstn_app, length_skipn.
    replace (Z.to_nat e - Z.to_nat s - (length data - Z.to_nat s))%nat with 0%nat
      by (unfold len in He; lia).
    now rewrite firstn_O, app_nil_r.
Qed.

Lemma getUint32_app_l (data rest : Uint8Array) :
  4 <= len data -> getUint32 (data ++ rest) 0 = getUint32 data 0.
Proof.
  intros H. unfold getUint32, len in *. cbn [Nat.add].
  now rewrite !app_nth1 by lia.
Qed.

Lemma wirePacketLength_app (c : TransportCipher) (data rest : Uint8Array) :
  headerSize c <= len data ->
  wirePacketLength c (data ++ rest) = wirePacketLength c data.
Proof.
  unfold wirePacketLength, headerSize, AES_BLOCK_SIZE. intros H.
  destruct (macEtm c).
  - now apply getUint32_app_l.
  - now rewrite subarray_app_l by lia.
Qed.

Lemma decrypt_app (c : TransportCipher) (data rest : Uint8Array) :
  ~ bufferTooShort c data -> decrypt c (data ++ rest) = decrypt c data.
Proof.
  intros Hs. pose proof (len_nonneg rest) as Hr.
  assert (Hh : headerSize c + HMAC_SHA256_SIZE <= len data
               /\ 4 + wirePacketLength c data + HMAC_SHA256_SIZE <= len data).
  { unfold bufferTooShort in Hs. lia. }
  destruct Hh as [Hh Ht].
  assert (H4 : 4 <= headerSize c <= 16).
  { unfold headerSize, AES_BLOCK_SIZE. destruct (macEtm c); lia. }
  unfold HMAC_SHA256_SIZE in *.
  assert (Hw : wirePacketLength c (data ++ rest) = wirePacketLength c data)
    by (apply wirePacketLength_app; lia).
  destruct (whole_packet_dec c data) as [Hbad|[_ Hl]].
  - destruct Hbad as [Hbad|Hbad]; [contradiction|].
    rewrite (decrypt_short c data) by (now right).
    apply decrypt_short. right. unfold packetLengthInvalid in *. now rewrite Hw.
  - assert (Hs' : ~ bufferTooShort c (data ++ rest)).
    { unfold bufferTooShort, HMAC_SHA256_SIZE. rewrite Hw, len_app. lia. }
    assert (Hl' : ~ packetLengthInvalid c (data ++ rest)).
    { unfold packetLengthInvalid in *. now rewrite Hw. }
    assert (Hp : 5 <= wirePacketLength c data).
    { unfold packetLengthInvalid in Hl. lia. }
    assert (Hrc : receivedCiphertext c (data ++ rest) = receivedCiphertext c data).
    { unfold receivedCiphertext. rewrite Hw.
      destruct (macEtm c); apply subarray_app_l; lia. }
    assert (Hrp : receivedPlaintext c (data ++ rest) = receivedPlaintext c data).
    { unfold receivedPlaintext. now rewrite Hrc. }
    assert (Hiv : ivAfterPacket c (data ++ rest) = ivAfterPacket c data).
    { unfold ivAfterPacket. now rewrite Hrc. }
    assert (Hrm : receivedMac c (data ++ rest) = receivedMac c data).
    { unfold receivedMac, HMAC_SHA256_SIZE. rewrite Hw. apply subarray_app_l; lia. }
    assert (Hem : expectedMac c (data ++ rest) = expectedMac c data).
    { unfold expectedMac, authenticatedBytes. rewrite Hrc, Hrp.
      now rewrite (subarray_app_l data rest 0 4) by lia. }
    assert (Hpl : receivedPadLen c (data ++ rest) = receivedPadLen c data).
    { unfold receivedPadLen. now rewrite Hrp. }
    assert (Hdp : decryptedPacket c (data ++ rest) = decryptedPacket c data).
    { unfold decryptedPacket. now rewrite Hrp, Hw, Hpl. }
    rewrite (decrypt_whole_packet c _ Hs' Hl'), (decrypt_whole_packet c _ Hs Hl).
    cbv zeta. now rewrite Hw, Hrm, Hem, Hpl, Hdp, Hiv.
Qed.

(** Once a buffer holds a whole packet, [decrypt] reads nothing behind it:
    bytes that follow the packet change neither the result nor the
    cipher. *)
Theorem decrypt_ignores_trailing (c : TransportCipher) (data rest : Uint8Array) :
  ~ bufferTooShort c data -> decrypt c (data ++ rest) = decrypt c data.
Proof. apply decrypt_app. Qed.

(** The cipher state [encrypt] leaves behind, in terms of what the mirror
    cipher sees in the bytes sent. *)
Lemma encrypt_state (rnd : nat -> byte) (p : Uint8Array) (c s : TransportCipher) :
  mirror c s ->
  1 + len p + calculatePadding (len p) (macEtm c) <= MAX_PACKET_SIZE ->
  snd (encrypt rnd p c)
  = mkTransportCipher (ivAfterPacket s (fst (encrypt rnd p c))) (ivDec c)
      (keyEnc c) (keyDec c) (seqOut c + 1) (seqIn c) (macEtm c) (macC c) (macS c).
Proof.
  intros (Hiv & Hkey & Hmac & Hseq & Hmode) Hmax.
  pose proof (calculatePadding_range (len p) (macEtm c)) as Hpad.
  pose proof (len_nonneg p) as Hp.
  assert (Hr : 5 <= 1 + len p + calculatePadding (len p) (macEtm c) <= MAX_PACKET_SIZE)
    by lia.
  unfold ivAfterPacket. rewrite Hkey, Hiv.
  destruct (macEtm c) eqn:Hetm.
  - unfold encrypt. rewrite Hetm.
    set (plen := 1 + len p + calculatePadding (len p) true) in *.
    set (inner := [byte.of_Z (calculatePadding (len p) true)] ++ p
                  ++ getRandomValues rnd (Z.to_nat (calculatePadding (len p) true))).
    assert (Hraw : buildPacket rnd p true = writeUint32 plen ++ inner) by reflexivity.
    assert (Hinner : len inner = plen).
    { pose proof (len_buildPacket rnd p true) as H. rewrite Hraw, len_app in H.
      rewrite len_writeUint32 in H. fold plen in H. lia. }
    rewrite Hraw.
    assert (Hpl : subarray (writeUint32 plen ++ inner) 0 4 = writeUint32 plen)
      by (now apply slice_prefix).
    assert (Hin : subarrayFrom (writeUint32 plen ++ inner) 4 = inner).
    { unfold subarrayFrom, subarray. apply slice_suffix; [reflexivity|].
      now rewrite len_app. }
    rewrite Hpl, Hin.
    pose proof (len_decryptAES128CTR (keyEnc c) (ivEnc c) inner) as Hct.
    pose proof (decrypt_encrypt_CTR (keyEnc c) (ivEnc c) inner) as Hrt.
    change (encryptAES128CTR (keyEnc c) (ivEnc c) inner)
      with (decryptAES128CTR (keyEnc c) (ivEnc c) inner) in *.
    destruct (decryptAES128CTR (keyEnc c) (ivEnc c) inner) as [ct nextIv].
    cbn [fst snd] in *. rewrite Hinner in Hct.
    set (mac := computeHMACSHA256 (macC c)
                  (concat [writeUint32 (seqOut c); writeUint32 plen; ct])).
    replace (concat [writeUint32 plen; ct; mac]) with (writeUint32 plen ++ ct ++ mac)
      by (unfold concat; cbn [List.concat]; now rewrite app_nil_r).
    destruct (received_etm s plen ct mac Hmode Hr Hct eq_refl) as (_ & _ & _ & Hrc & _).
    rewrite Hrc, Hrt. reflexivity.
  - unfold encrypt. rewrite Hetm.
    destruct (buildPacket_fields rnd p false ltac:(lia)) as (Hg & _ & _).
    pose proof (padded_length_multiple (len p) Hp) as Hmul.
    set (plen := 1 + len p + calculatePadding (len p) false) in *.
    set (raw := buildPacket rnd p false) in *.
    assert (H16 : 16 <= 4 + plen).
    { clear - Hmul Hpad Hp. Z.div_mod_to_equations. lia. }
    pose proof (len_decryptAES128CTR (keyEnc c) (ivEnc c) raw) as Hct.
    pose proof (decrypt_encrypt_CTR (keyEnc c) (ivEnc c) raw) as Hrt.
    change (encryptAES128CTR (keyEnc c) (ivEnc c) raw)
      with (decryptAES128CTR (keyEnc c) (ivEnc c) raw) in *.
    destruct (decryptAES128CTR (keyEnc c) (ivEnc c) raw) as [ct nextIv].
    cbn [fst snd] in *.
    assert (Hlr : len raw = 4 + plen) by apply len_buildPacket.
    rewrite Hlr in Hct.
    set (mac := computeHMACSHA256 (macC c) (concat [writeUint32 (seqOut c); raw])).
    replace (concat [ct; mac]) with (ct ++ mac)
      by (unfold concat; cbn [List.concat]; now rewrite app_nil_r).
    assert (Hg' : getUint32 (fst (decryptAES128CTR (keyDec s) (ivDec s) ct)) 0 = plen).
    { now rewrite Hkey, Hiv, Hrt. }
    pose proof (received_standard s plen ct mac Hmode Hr H16 Hct eq_refl Hg')
      as (Hs & Hl & Hw & _).
    assert (Hrc : receivedCiphertext s (ct ++ mac) = ct).
    { unfold receivedCiphertext. rewrite Hmode, Hw. apply slice_prefix. now rewrite Hct. }
    rewrite Hrc, Hrt. reflexivity.
Qed.

Lemma decrypt_encrypt_state (rnd : nat -> byte) (p : Uint8Array) (c s : TransportCipher) :
  mirror c s ->
  1 + len p + calculatePadding (len p) (macEtm c) <= MAX_PACKET_SIZE ->
  decrypt s (fst (encrypt rnd p c))
  = (Decrypted (mkParsedPacket p (len (fst (encrypt rnd p c)))),
     advanceIn s (ivAfterPacket s (fst (encrypt rnd p c)))).
Proof.
  intros Hm Hmax.
  destruct (decrypt_encrypt rnd p c s Hm Hmax) as [Hf _].
  destruct (decrypt_state s (fst (encrypt rnd p c))) as [[Hno _]|(Heq & _)].
  - exfalso. eapply Hno. exact Hf.
  - rewrite Heq in Hf. cbn [fst] in Hf. rewrite Heq. f_equal. exact Hf.
Qed.

Lemma encrypt_not_short (rnd : nat -> byte) (p : Uint8Array) (c s : TransportCipher) :
  mirror c s ->
  1 + len p + calculatePadding (len p) (macEtm c) <= MAX_PACKET_SIZE ->
  ~ bufferTooShort s (fst (encrypt rnd p c)).
Proof.
  intros Hm Hmax Hs.
  pose proof (decrypt_encrypt_state rnd p c s Hm Hmax) as H.
  rewrite (decrypt_short s _ (or_introl Hs)) in H. discriminate.
Qed.

(** The two ends stay in step.  What one cipher encrypts, the cipher that
    mirrors it decrypts to the same payload, taking exactly the packet off
    a buffer that may hold more; afterwards the two ciphers mirror each
    other again, so the next packet decrypts as well, and the opposite
    direction is not disturbed. *)
Theorem transport_in_sync (rnd : nat -> byte) (p rest : Uint8Array)
  (c s : TransportCipher) :
  mirror c s ->
  1 + len p + calculatePadding (len p) (macEtm c) <= MAX_PACKET_SIZE ->
  fst (decrypt s (fst (encrypt rnd p c) ++ rest))
  = Decrypted (mkParsedPacket p (len (fst (encrypt rnd p c))))
  /\ mirror (snd (encrypt rnd p c)) (snd (decrypt s (fst (encrypt rnd p c) ++ rest)))
  /\ (mirror s c ->
      mirror (snd (decrypt s (fst (encrypt rnd p c) ++ rest))) (snd (encrypt rnd p c))).
Proof.
  intros Hm Hmax.
  rewrite decrypt_app by (now apply encrypt_not_short).
  rewrite (decrypt_encrypt_state rnd p c s Hm Hmax).
  rewrite (encrypt_state rnd p c s Hm Hmax).
  destruct Hm as (Hiv & Hkey & Hmac & Hseq & Hmode).
  cbn [fst snd]. split; [reflexivity|]. split.
  - unfold mirror, advanceIn. cbn. repeat split; congruence.
  - intros (Hiv' & Hkey' & Hmac' & Hseq' & Hmode').
    unfold mirror, advanceIn. cbn. repeat split; congruence.
Qed.

Lemma len_encrypt (rnd : nat -> byte) (p : Uint8Array) (c : TransportCipher) :
  len (fst (encrypt rnd p c)) = len p + calculatePadding (len p) (macEtm c) + 37.
Proof.
  pose proof (calculatePadding_range (len p) (macEtm c)) as Hpad.
  destruct (macEtm c) eqn:Hetm.
  - destruct (encrypt_etm_layout rnd p c Hetm) as (ct & Hct & _ & Hout).
    rewrite Hout, !len_app, len_writeUint32, Hct.
    change (len (computeHMACSHA256 _ _)) with 32. lia.
  - destruct (encrypt_standard_layout rnd p c Hetm) as (ct & Hct & _ & Hout).
    rewrite Hout, !len_app, Hct.
    change (len (computeHMACSHA256 _ _)) with 32. lia.
Qed.

(** [encrypt] puts 37 bytes and the padding around the payload (length
    field, padding length, padding, MAC), between 41 and 56 bytes in all,
    counts the packet in [seqOut] and leaves the inbound half of the
    cipher alone. *)
Theorem encrypt_wire_size (rnd : nat -> byte) (p : Uint8Array) (c : TransportCipher) :
  len (fst (encrypt rnd p c)) = len p + calculatePadding (len p) (macEtm c) + 37
  /\ 41 <= len (fst (encrypt rnd p c)) - len p <= 56
  /\ seqOut (snd (encrypt rnd p c)) = seqOut c + 1
  /\ seqIn (snd (encrypt rnd p c)) = seqIn c
  /\ ivDec (snd (encrypt rnd p c)) = ivDec c.
Proof.
  pose proof (calculatePadding_range (len p) (macEtm c)) as Hpad.
  pose proof (len_encrypt rnd p c) as Hlen.
  split; [exact Hlen|]. split; [lia|].
  unfold encrypt. destruct (macEtm c).
  - destruct (encryptAES128CTR _ _ _). repeat split.
  - destruct (encryptAES128CTR _ _ _). repeat split.
Qed.

(** ** connection/connectSSH.ts: what the handlers leave alone *)

(** Proofs that a state computed by the orchestrator's code is related to
    the state it started from follow the code: [frame prim] walks through
    pairs, [let]s, random draws and case distinctions, naming each
    intermediate state, and leaves the operations themselves to [prim]. *)
Ltac frame prim :=
  idtac; lazymatch goal with
  | |- ?R ?o (snd (?a, ?b)) => cbn [snd]; frame prim
  | |- ?R ?o (snd (let x := ?E in @?B x)) =>
      frame_let prim R o E ltac:(fun v => change (R o (snd (B v))))
  | |- ?R ?o (let x := ?E in @?B x) =>
      frame_let prim R o E ltac:(fun v => change (R o (B v)))
  | |- ?R ?o (snd (match draw ?x with _ => _ end)) => frame_draw prim R o x
  | |- ?R ?o (match draw ?x with _ => _ end) => frame_draw prim R o x
  | |- ?R ?o (snd (if ?b then _ else _)) => destruct b; frame prim
  | |- ?R ?o (snd (match ?x with _ => _ end)) => destruct x; frame prim
  | |- ?R ?o (if ?b then _ else _) => destruct b; frame prim
  | |- ?R ?o (match ?x with _ => _ end) => destruct x; frame prim
  | |- _ => prim; frame prim
  end
with frame_let prim R o E k :=
  let T := type of E in
  lazymatch T with
  | SSHConnectionOrchestrator =>
      let o' := fresh "o" in
      let Hq := fresh "Hq" in
      k E; cbv beta;
      assert (Hq : R o E) by frame prim;
      revert Hq; generalize E; intros o' Hq; frame prim
  | _ =>
      let v := fresh "v" in
      k E; cbv beta; generalize E; intros v; frame prim
  end
with frame_draw prim R o x :=
  let rnd := fresh "rnd" in
  let o' := fresh "o" in
  let Hd := fresh "Hd" in
  let Hq := fresh "Hq" in
  destruct (draw x) as [rnd o'] eqn:Hd;
  apply (f_equal snd) in Hd; cbn [snd draw] in Hd;
  assert (Hq : R o o') by (rewrite <- Hd; frame prim);
  clear Hd; frame prim.

Lemma quiet_refl (o : SSHConnectionOrchestrator) : quiet o o.
Proof. now split. Qed.

Lemma quiet_trans (o1 o2 o3 : SSHConnectionOrchestrator) :
  quiet o1 o2 -> quiet o2 o3 -> quiet o1 o3.
Proof.
  intros [Hw1 Hf1] [Hw2 Hf2]. split; [congruence|].
  intros Hc. rewrite Hf2, Hf1; congruence.
Qed.

Lemma quiet_setter (o o1 o2 : SSHConnectionOrchestrator) :
  wsOpen o2 = wsOpen o1 -> trace o2 = trace o1 -> quiet o o1 -> quiet o o2.
Proof. intros Hw Ht [Hw1 Hf1]. split; [congruence|]. rewrite Ht. exact Hf1. Qed.

Lemma framesSent_app (t u : list Event) :
  framesSent (t ++ u) = framesSent t ++ framesSent u.
Proof. apply flat_map_app. Qed.

Lemma quiet_emit (o o1 : SSHConnectionOrchestrator) (e : Event) :
  framesSent [e] = [] -> quiet o o1 -> quiet o (emit e o1).
Proof.
  intros He [Hw Hf]. split; [exact Hw|]. intros Hc.
  unfold emit. cbn [trace set_trace]. rewrite framesSent_app, He, app_nil_r. auto.
Qed.

Lemma quiet_frame (o o1 : SSHConnectionOrchestrator) (d : Uint8Array) :
  wsOpen o1 = true -> quiet o o1 -> quiet o (emit (WsSend d) o1).
Proof.
  intros Ho [Hw Hf]. split; [exact Hw|]. intros Hc. congruence.
Qed.

Lemma quiet_send (o o1 : SSHConnectionOrchestrator) (d : Uint8Array) :
  quiet o o1 -> quiet o (send d o1).
Proof.
  intros H. unfold send. destruct (wsOpen o1) eqn:Ho; [now apply quiet_frame | exact H].
Qed.

Lemma quiet_sendEncrypted (o o1 : SSHConnectionOrchestrator) (payload : Uint8Array) :
  quiet o o1 -> quiet o (sendEncrypted payload o1).
Proof.
  intros H. unfold sendEncrypted, draw.
  destruct (cipher (connState o1)) as [c|]; [|exact H].
  destruct (encrypt _ payload c) as [ciphertext c'].
  match goal with
  | |- quiet _ (if wsOpen ?x then _ else _) =>
      assert (Hq : quiet o x) by (apply (quiet_setter o o1 x eq_refl eq_refl H));
      destruct (wsOpen x) eqn:Ho; [now apply quiet_frame | exact Hq]
  end.
Qed.

Ltac quiet_prim0 :=
  idtac; lazymatch goal with
  | |- quiet ?o ?o => apply quiet_refl
  | H : quiet ?o ?x |- quiet ?o ?x => exact H
  | |- quiet _ (send _ _) => apply quiet_send
  | |- quiet _ (sendEncrypted _ _) => apply quiet_sendEncrypted
  | |- quiet _ (emit _ _) => apply quiet_emit; [reflexivity|]
  | |- quiet ?o (?f ?v ?E) => apply (quiet_setter o E (f v E) eq_refl eq_refl)
  end.

Lemma quiet_setFatal (o o1 : SSHConnectionOrchestrator) (msg : string) :
  quiet o o1 -> quiet o (setFatal msg o1).
Proof. intros H. cbv beta delta [setFatal]. frame quiet_prim0. Qed.

Lemma quiet_flushBuf (o o1 : SSHConnectionOrchestrator) :
  quiet o o1 -> quiet o (flushBuf o1).
Proof. intros H. cbv beta delta [flushBuf]. frame quiet_prim0. Qed.

Ltac quiet_prim1 :=
  idtac; lazymatch goal with
  | |- quiet _ (setFatal _ _) => apply quiet_setFatal
  | |- quiet _ (flushBuf _) => apply quiet_flushBuf
  | |- _ => quiet_prim0
  end.

Lemma quiet_installKeys (o o1 : SSHConnectionOrchestrator) (kEncoded h : Uint8Array) :
  quiet o o1 -> quiet o (installKeys kEncoded h o1).
Proof. intros H. cbv beta delta [installKeys]. frame quiet_prim1. Qed.

Lemma quiet_clearKexTimeout (o o1 : SSHConnectionOrchestrator) :
  quiet o o1 -> quiet o (clearKexTimeout o1).
Proof. intros H. cbv beta delta [clearKexTimeout]. frame quiet_prim1. Qed.

Lemma quiet_onChannelData (o o1 : SSHConnectionOrchestrator) (off : Z) (p : Uint8Array) :
  quiet o o1 -> quiet o (onChannelData off p o1).
Proof. intros H. cbv beta delta [onChannelData]. frame quiet_prim1. Qed.

Ltac quiet_prim2 :=
  idtac; lazymatch goal with
  | |- quiet _ (installKeys _ _ _) => apply quiet_installKeys
  | |- quiet _ (clearKexTimeout _) => apply quiet_clearKexTimeout
  | |- quiet _ (onChannelData _ _ _) => apply quiet_onChannelData
  | |- _ => quiet_prim1
  end.

Lemma quiet_onKexInit (o o1 : SSHConnectionOrchestrator) (p : Uint8Array) :
  quiet o o1 -> quiet o (snd (onKexInit p o1)).
Proof. intros H. cbv beta delta [onKexInit]. frame quiet_prim2. Qed.

Lemma quiet_onKexDHReply (o o1 : SSHConnectionOrchestrator) (x e : Z)
  (ic is_ p : Uint8Array) :
  quiet o o1 -> quiet o (snd (onKexDHReply x e ic is_ p o1)).
Proof. intros H. cbv beta delta [onKexDHReply]. frame quiet_prim2. Qed.

Lemma quiet_onKexECDHReply (o o1 : SSHConnectionOrchestrator) (priv : CryptoKey)
  (q ic is_ p : Uint8Array) :
  quiet o o1 -> quiet o (snd (onKexECDHReply priv q ic is_ p o1)).
Proof. intros H. cbv beta delta [onKexECDHReply]. frame quiet_prim2. Qed.

Ltac quiet_prim :=
  idtac; lazymatch goal with
  | |- quiet _ (snd (onKexInit _ _)) => apply quiet_onKexInit
  | |- quiet _ (snd (onKexDHReply _ _ _ _ _ _)) => apply quiet_onKexDHReply
  | |- quiet _ (snd (onKexECDHReply _ _ _ _ _ _)) => apply quiet_onKexECDHReply
  | |- _ => quiet_prim2
  end.

Lemma quiet_processPayload (o o1 : SSHConnectionOrchestrator) (p behind : Uint8Array) :
  quiet o o1 -> quiet o (snd (processPayload p behind o1)).
Proof. intros H. cbv beta delta [processPayload]. frame quiet_prim. Qed.

Lemma quiet_drainLoop (fuel : nat) (o o1 : SSHConnectionOrchestrator) :
  quiet o o1 -> quiet o (snd (drainLoop fuel o1)).
Proof.
  revert o1. induction fuel as [|fuel IH]; intros o1 H; [exact H|].
  cbn [drainLoop]. destruct (cipher (connState o1)) as [c|]; [|exact H].
  destruct (decrypt c (encryptedBuf o1)) as [[|r|err] c'].
  - frame quiet_prim.
  - cbv zeta.
    match goal with
    | |- context [processPayload ?p ?b ?x] =>
        assert (Hp : quiet o (snd (processPayload p b x)))
          by (apply quiet_processPayload; frame quiet_prim);
        destruct (processPayload p b x) as [[|m] o2]
    end; cbn [snd] in *; [now apply IH | exact Hp].
  - frame quiet_prim.
Qed.

Lemma quiet_processEncryptedPackets (o o1 : SSHConnectionOrchestrator) :
  quiet o o1 -> quiet o (snd (processEncryptedPackets o1)).
Proof.
  intros H. unfold processEncryptedPackets. destruct (draining o1); [exact H|].
  cbv zeta.
  pose proof (quiet_drainLoop (S (length (encryptedBuf (set_draining true o1)))) o
                (set_draining true o1)
                (quiet_setter o o1 _ eq_refl eq_refl H)) as Hd.
  destruct (drainLoop _ (set_draining true o1)) as [r o2]. cbn [snd] in *.
  now apply (quiet_setter o o2 _ eq_refl eq_refl).
Qed.

Lemma quiet_plainLoop (fuel : nat) (d : Uint8Array) (offset : Z)
  (o o1 : SSHConnectionOrchestrator) :
  quiet o o1 -> quiet o (snd (plainLoop fuel d offset o1)).
Proof.
  revert offset o1. induction fuel as [|fuel IH]; intros offset o1 H; [exact H|].
  cbn [plainLoop]. destruct (offset <? len d); [|exact H].
  destruct (parsePacket (subarrayFrom d offset)) as [result|]; [|exact H].
  pose proof (quiet_processPayload o o1 (payload result) [] H) as Hp.
  destruct (processPayload (payload result) [] o1) as [[|m] o2]; cbn [snd] in *;
    [|exact Hp].
  destruct (useEncrypted o2).
  - apply quiet_processEncryptedPackets.
    now apply (quiet_setter o o2 _ eq_refl eq_refl).
  - now apply IH.
Qed.

Lemma quiet_handleMessage (o o1 : SSHConnectionOrchestrator) (d : Uint8Array) :
  quiet o o1 -> quiet o (handleMessage d o1).
Proof.
  intros H. unfold handleMessage.
  assert (Hr : quiet o (snd (handleRawData d o1))).
  { unfold handleRawData. destruct (fatalError o1); [exact H|].
    assert (Hi : quiet o (snd (identStage d o1))).
    { unfold identStage. destruct (String.eqb _ _); [|exact H].
      rewrite extractServerIdent_scan.
      destruct (scanIdent _) as [[ident rest]|]; frame quiet_prim. }
    destruct (identStage d o1) as [[d'|] o2]; cbn [snd] in *; [|exact Hi].
    unfold packetStage, processUnencryptedPackets. destruct (negb (useEncrypted o2)).
    - now apply quiet_plainLoop.
    - apply quiet_processEncryptedPackets.
      now apply (quiet_setter o o2 _ eq_refl eq_refl). }
  destruct (handleRawData d o1) as [[|m] o2]; cbn [snd] in Hr; [exact Hr|].
  now apply quiet_setFatal.
Qed.

Lemma quiet_perform (o o1 : SSHConnectionOrchestrator) (c : Call) :
  quiet o o1 -> quiet o (perform o1 c).
Proof.
  intros H. destruct c as [|d|code reason wasClean|b|cols rows|]; cbn [perform].
  - unfold start. now apply quiet_send.
  - now apply quiet_handleMessage.
  - cbv beta delta [handleClose]. frame quiet_prim.
  - cbv beta delta [api_write]. frame quiet_prim.
  - cbv beta delta [api_resize]. frame quiet_prim.
  - cbv beta delta [api_onData]. frame quiet_prim.
Qed.

(** While the socket is not open nothing is given to it: whatever calls
    and events reach the orchestrator, in whatever order, the frames
    handed to [ws.send] stay as they were. *)
Theorem never_sends_unless_open (calls : list Call) (o : SSHConnectionOrchestrator) :
  wsOpen o = false ->
  framesSent (trace (fold_left perform calls o)) = framesSent (trace o).
Proof.
  intros Hc.
  assert (H : forall o1, quiet o o1 -> quiet o (fold_left perform calls o1)).
  { induction calls as [|c calls IH]; intros o1 Hq; [exact Hq|].
    cbn [fold_left]. apply IH. now apply quiet_perform. }
  now apply (H o (quiet_refl o)).
Qed.

(** *** The receive buffers *)

Lemma sameBuffers_refl (o : SSHConnectionOrchestrator) : sameBuffers o o.
Proof. repeat split. Qed.

Lemma sameBuffers_setter (o o1 o2 : SSHConnectionOrchestrator) :
  encryptedBuf o2 = encryptedBuf o1 -> identBuf o2 = identBuf o1 ->
  draining o2 = draining o1 -> config o2 = config o1 ->
  sameBuffers o o1 -> sameBuffers o o2.
Proof.
  intros He Hi Hd Hc (He1 & Hi1 & Hd1 & Hc1). repeat split; congruence.
Qed.

Ltac buffers_prim0 :=
  idtac; lazymatch goal with
  | |- sameBuffers ?o ?o => apply sameBuffers_refl
  | H : sameBuffers ?o ?x |- sameBuffers ?o ?x => exact H
  | |- sameBuffers ?o (?f ?v ?E) =>
      apply (sameBuffers_setter o E (f v E) eq_refl eq_refl eq_refl eq_refl)
  end.

Lemma sameBuffers_send (o o1 : SSHConnectionOrchestrator) (d : Uint8Array) :
  sameBuffers o o1 -> sameBuffers o (send d o1).
Proof. intros H. cbv beta delta [send]. frame buffers_prim0. Qed.

Lemma sameBuffers_sendEncrypted (o o1 : SSHConnectionOrchestrator) (payload : Uint8Array) :
  sameBuffers o o1 -> sameBuffers o (sendEncrypted payload o1).
Proof. intros H. cbv beta delta [sendEncrypted]. frame buffers_prim0. Qed.

Lemma sameBuffers_setFatal (o o1 : SSHConnectionOrchestrator) (msg : string) :
  sameBuffers o o1 -> sameBuffers o (setFatal msg o1).
Proof. intros H. cbv beta delta [setFatal]. frame buffers_prim0. Qed.

Lemma sameBuffers_flushBuf (o o1 : SSHConnectionOrchestrator) :
  sameBuffers o o1 -> sameBuffers o (flushBuf o1).
Proof. intros H. cbv beta delta [flushBuf]. frame buffers_prim0. Qed.

Ltac buffers_prim1 :=
  idtac; lazymatch goal with
  | |- sameBuffers _ (send _ _) => apply sameBuffers_send
  | |- sameBuffers _ (sendEncrypted _ _) => apply sameBuffers_sendEncrypted
  | |- sameBuffers _ (setFatal _ _) => apply sameBuffers_setFatal
  | |- sameBuffers _ (flushBuf _) => apply sameBuffers_flushBuf
  | |- _ => buffers_prim0
  end.

Lemma sameBuffers_installKeys (o o1 : SSHConnectionOrchestrator) (kEncoded h : Uint8Array) :
  sameBuffers o o1 -> sameBuffers o (installKeys kEncoded h o1).
Proof. intros H. cbv beta delta [installKeys]. frame buffers_prim1. Qed.

Lemma sameBuffers_clearKexTimeout (o o1 : SSHConnectionOrchestrator) :
  sameBuffers o o1 -> sameBuffers o (clearKexTimeout o1).
Proof. intros H. cbv beta delta [clearKexTimeout]. frame buffers_prim1. Qed.

Lemma sameBuffers_onChannelData (o o1 : SSHConnectionOrchestrator) (off : Z)
  (p : Uint8Array) :
  sameBuffers o o1 -> sameBuffers o (onChannelData off p o1).
Proof. intros H. cbv beta delta [onChannelData]. frame buffers_prim1. Qed.

Ltac buffers_prim2 :=
  idtac; lazymatch goal with
  | |- sameBuffers _ (installKeys _ _ _) => apply sameBuffers_installKeys
  | |- sameBuffers _ (clearKexTimeout _) => apply sameBuffers_clearKexTimeout
  | |- sameBuffers _ (onChannelData _ _ _) => apply sameBuffers_onChannelData
  | |- _ => buffers_prim1
  end.

Lemma sameBuffers_onKexInit (o o1 : SSHConnectionOrchestrator) (p : Uint8Array) :
  sameBuffers o o1 -> sameBuffers o (snd (onKexInit p o1)).
Proof. intros H. cbv beta delta [onKexInit]. frame buffers_prim2. Qed.

Lemma sameBuffers_onKexDHReply (o o1 : SSHConnectionOrchestrator) (x e : Z)
  (ic is_ p : Uint8Array) :
  sameBuffers o o1 -> sameBuffers o (snd (onKexDHReply x e ic is_ p o1)).
Proof. intros H. cbv beta delta [onKexDHReply]. frame buffers_prim2. Qed.

Lemma sameBuffers_onKexECDHReply (o o1 : SSHConnectionOrchestrator) (priv : CryptoKey)
  (q ic is_ p : Uint8Array) :
  sameBuffers o o1 -> sameBuffers o (snd (onKexECDHReply priv q ic is_ p o1)).
Proof. intros H. cbv beta delta [onKexECDHReply]. frame buffers_prim2. Qed.

Ltac buffers_prim :=
  idtac; lazymatch goal with
  | |- sameBuffers _ (snd (onKexInit _ _)) => apply sameBuffers_onKexInit
  | |- sameBuffers _ (snd (onKexDHReply _ _ _ _ _ _)) => apply sameBuffers_onKexDHReply
  | |- sameBuffers _ (snd (onKexECDHReply _ _ _ _ _ _)) =>
      apply sameBuffers_onKexECDHReply
  | |- _ => buffers_prim2
  end.

Lemma sameBuffers_processPayload (o : SSHConnectionOrchestrator) (p behind : Uint8Array) :
  sameBuffers o (snd (processPayload p behind o)).
Proof.
  assert (H : sameBuffers o o) by apply sameBuffers_refl.
  cbv beta delta [processPayload]. frame buffers_prim.
Qed.

(** Dispatching a message touches neither receive buffer, nor the drain
    flag, nor the configuration: only the packet loops take bytes off the
    buffers, and a handler never re-enters them. *)
Theorem processPayload_keeps_buffers (p behind : Uint8Array)
  (o : SSHConnectionOrchestrator) :
  encryptedBuf (snd (processPayload p behind o)) = encryptedBuf o
  /\ identBuf (snd (processPayload p behind o)) = identBuf o
  /\ draining (snd (processPayload p behind o)) = draining o
  /\ config (snd (processPayload p behind o)) = config o.
Proof. apply sameBuffers_processPayload. Qed.

(** *** Progress of the packet loops *)

Lemma getUint32_nonneg (a : Uint8Array) (off : nat) : 0 <= getUint32 a off.
Proof.
  unfold getUint32.
  pose proof (unsigned_range_256 (nth (off + 0) a Byte.x00)).
  pose proof (unsigned_range_256 (nth (off + 1) a Byte.x00)).
  pose proof (unsigned_range_256 (nth (off + 2) a Byte.x00)).
  pose proof (unsigned_range_256 (nth (off + 3) a Byte.x00)).
  change (2 ^ 24) with 16777216. change (2 ^ 16) with 65536.
  change (2 ^ 8) with 256. lia.
Qed.

Lemma parsePacket_consumed (data : Uint8Array) (r : ParsedPacket) :
  parsePacket data = Some r -> 4 <= consumed r <= len data.
Proof.
  unfold parsePacket. cbv zeta. destruct (len data <? 5); [discriminate|].
  destruct (Z.ltb_spec (len data) (4 + getUint32 data 0)); [discriminate|].
  intros Hs.
  assert (Hc : consumed r = 4 + getUint32 data 0) by (injection Hs as <-; reflexivity).
  pose proof (getUint32_nonneg data 0). lia.
Qed.

Lemma decrypt_consumed (c c' : TransportCipher) (data : Uint8Array) (r : DecryptResult) :
  decrypt c data = (Decrypted r, c') ->
  r = decryptedPacket c data
  /\ c' = advanceIn c (ivAfterPacket c data)
  /\ 5 <= wirePacketLength c data <= MAX_PACKET_SIZE
  /\ consumed r = 4 + wirePacketLength c data + 32
  /\ consumed r <= len data
  /\ ~ paddingInvalid c data.
Proof.
  intros Hd.
  destruct (decrypt_state c data) as [[Hno _]|(Heq & Hs & Hl & _ & Hp)].
  - exfalso. apply (Hno r). now rewrite Hd.
  - rewrite Heq in Hd. injection Hd as <- <-.
    unfold bufferTooShort, packetLengthInvalid in *.
    unfold decryptedPacket, HMAC_SHA256_SIZE in *. cbn [consumed].
    repeat split; try assumption; lia.
Qed.

Lemma subarrayFrom_Z (a : Uint8Array) (s : Z) :
  0 <= s -> subarrayFrom a s = skipn (Z.to_nat s) a.
Proof.
  intros Hs. rewrite <- (Z2Nat.id s) at 1 by assumption. apply subarrayFrom_nat.
Qed.

Lemma drainLoop_fuel (f1 f2 : nat) (o : SSHConnectionOrchestrator) :
  (length (encryptedBuf o) < f1)%nat -> (length (encryptedBuf o) < f2)%nat ->
  drainLoop f1 o = drainLoop f2 o.
Proof.
  revert f2 o. induction f1 as [|f1 IH]; intros f2 o H1 H2; [lia|].
  destruct f2 as [|f2]; [lia|].
  cbn [drainLoop]. destruct (cipher (connState o)) as [c|]; [|reflexivity].
  destruct (decrypt c (encryptedBuf o)) as [[|r|err] c'] eqn:Hd; try reflexivity.
  destruct (decrypt_consumed c c' _ r Hd) as (_ & _ & Hw & Hc & Hle & _).
  cbv zeta.
  match goal with
  | |- context [processPayload ?p ?b ?x] =>
      pose proof (sameBuffers_processPayload x p b) as (Hb & _);
      destruct (processPayload p b x) as [[|m] o2]
  end; [|reflexivity].
  cbn [snd] in Hb.
  change (encryptedBuf (set_encryptedBuf _ _))
    with (subarrayFrom (encryptedBuf o) (consumed r)) in Hb.
  rewrite subarrayFrom_Z in Hb by lia.
  assert (Hlt : (length (encryptedBuf o2) < length (encryptedBuf o))%nat).
  { rewrite Hb, length_skipn. unfold len in Hle. lia. }
  apply IH; lia.
Qed.

(** The loop of [processEncryptedPackets] comes to an end: a round that
    goes on has taken a whole packet, of at least 41 bytes, off the
    buffer, so that more rounds than the buffer has bytes change
    nothing. *)
Theorem drainLoop_terminates (fuel : nat) (o : SSHConnectionOrchestrator) :
  (length (encryptedBuf o) < fuel)%nat ->
  drainLoop fuel o = drainLoop (S (length (encryptedBuf o))) o.
Proof. intros H. apply drainLoop_fuel; lia. Qed.

Lemma plainLoop_fuel (f1 f2 : nat) (d : Uint8Array) (off : Z)
  (o : SSHConnectionOrchestrator) :
  0 <= off -> (Z.to_nat (len d - off) < f1)%nat -> (Z.to_nat (len d - off) < f2)%nat ->
  plainLoop f1 d off o = plainLoop f2 d off o.
Proof.
  revert f2 off o. induction f1 as [|f1 IH]; intros f2 off o H0 H1 H2; [lia|].
  destruct f2 as [|f2]; [lia|].
  cbn [plainLoop]. destruct (Z.ltb_spec off (len d)) as [Hlt|]; [|reflexivity].
  destruct (parsePacket (subarrayFrom d off)) as [result|] eqn:Hp; [|reflexivity].
  pose proof (parsePacket_consumed _ _ Hp) as Hc.
  destruct (processPayload (payload result) [] o) as [[|m] o2]; [|reflexivity].
  destruct (useEncrypted o2); [reflexivity|].
  apply IH; lia.
Qed.

Lemma plainLoop_shift (fuel : nat) (pre d : Uint8Array) (off : Z)
  (o : SSHConnectionOrchestrator) :
  0 <= off ->
  plainLoop fuel (pre ++ d) (len pre + off) o = plainLoop fuel d off o.
Proof.
  revert off o. induction fuel as [|fuel IH]; intros off o H0; [reflexivity|].
  pose proof (len_nonneg pre) as Hp.
  assert (Hsub : forall k, 0 <= k ->
                   subarrayFrom (pre ++ d) (len pre + k) = subarrayFrom d k).
  { intros k Hk. rewrite !subarrayFrom_Z by lia.
    replace (Z.to_nat (len pre + k)) with (length pre + Z.to_nat k)%nat
      by (unfold len; lia).
    rewrite skipn_app, skipn_all2 by lia.
    now replace (length pre + Z.to_nat k - length pre)%nat with (Z.to_nat k) by lia. }
  cbn [plainLoop]. rewrite len_app, Hsub by assumption.
  destruct (Z.ltb_spec off (len d));
    destruct (Z.ltb_spec (len pre + off) (len pre + len d)); try lia; [|reflexivity].
  destruct (parsePacket (subarrayFrom d off)) as [result|] eqn:Hpp; [|reflexivity].
  pose proof (parsePacket_consumed _ _ Hpp) as Hc.
  destruct (processPayload (payload result) [] o) as [[|m] o2]; [|reflexivity].
  rewrite <- Z.add_assoc, Hsub by lia.
  destruct (useEncrypted o2); [reflexivity|].
  apply IH. lia.
Qed.

(** Plain packets are dispatched one at a time and in order.  When a chunk
    starts with a whole packet, [processUnencryptedPackets] dispatches its
    payload and then treats the rest of the chunk as a chunk of its own,
    unless the handler failed (nothing more is looked at) or switched
    encryption on (the rest goes to the encrypted buffer and the encrypted
    loop). *)
Theorem plain_packets_in_order (rnd : nat -> byte) (p rest : Uint8Array) (etm : bool)
  (o : SSHConnectionOrchestrator) :
  len p < 2 ^ 32 - 20 ->
  processUnencryptedPackets (buildPacket rnd p etm ++ rest) o
  = match processPayload p [] o with
    | (Abrupt m, o1) => (Abrupt m, o1)
    | (Normal, o1) =>
        if useEncrypted o1
        then processEncryptedPackets
               (set_encryptedBuf (concat [encryptedBuf o1; rest]) o1)
        else processUnencryptedPackets rest o1
    end.
Proof.
  intros Hp. unfold processUnencryptedPackets at 1. cbn [plainLoop].
  pose proof (len_buildPacket rnd p etm) as Hlen.
  pose proof (calculatePadding_range (len p) etm) as Hpad.
  pose proof (len_nonneg p) as Hnn. pose proof (len_nonneg rest) as Hr.
  rewrite len_app.
  destruct (Z.ltb_spec 0 (len (buildPacket rnd p etm) + len rest)); [|lia].
  rewrite subarrayFrom_Z by lia. change (Z.to_nat 0) with 0%nat. rewrite skipn_O.
  rewrite parsePacket_app by assumption. cbn [payload consumed].
  destruct (processPayload p [] o) as [[|m] o1]; [|reflexivity].
  assert (Hsub : subarrayFrom (buildPacket rnd p etm ++ rest)
                   (0 + len (buildPacket rnd p etm)) = rest).
  { rewrite subarrayFrom_Z by lia. rewrite Z.add_0_l. unfold len.
    rewrite Nat2Z.id, skipn_app, skipn_all, Nat.sub_diag. reflexivity. }
  rewrite Hsub. destruct (useEncrypted o1); [reflexivity|].
  rewrite Z.add_0_l, <- (Z.add_0_r (len (buildPacket rnd p etm))).
  rewrite plainLoop_shift by lia. unfold processUnencryptedPackets.
  apply plainLoop_fuel; [lia | |]; rewrite ?length_app; unfold len in *; lia.
Qed.

(** A plain packet split over two chunks is lost.  Before encryption is
    switched on, a chunk that ends inside a packet is not kept: on a
    proper prefix of a packet [handleMessage] dispatches nothing and
    leaves the whole state as it was, so the bytes are gone when the rest
    of the packet arrives. *)
Theorem plain_partial_packet_dropped (rnd : nat -> byte) (p : Uint8Array) (etm : bool)
  (k : nat) (o : SSHConnectionOrchestrator) :
  fatalError o = false -> String.eqb (serverIdent (connState o)) "" = false ->
  useEncrypted o = false ->
  len p < 2 ^ 32 - 20 -> (k < length (buildPacket rnd p etm))%nat ->
  handleMessage (firstn k (buildPacket rnd p etm)) o = o.
Proof.
  intros Hf Hi Hu Hp Hk.
  unfold handleMessage, handleRawData, identStage. rewrite Hf, Hi.
  unfold packetStage. rewrite Hu. cbn [negb].
  unfold processUnencryptedPackets. cbn [plainLoop].
  destruct (0 <? len (firstn k (buildPacket rnd p etm))); [|reflexivity].
  rewrite subarrayFrom_Z by lia. change (Z.to_nat 0) with 0%nat. rewrite skipn_O.
  now rewrite (parsePacket_prefix rnd p etm k Hp Hk).
Qed.

(** A successful [decrypt] takes a whole packet of at least 41 bytes, and
    no more than the buffer holds; the payload it returns is at least 41
    bytes shorter than what it consumed. *)
Theorem decrypt_progress (c c' : TransportCipher) (data : Uint8Array) (r : DecryptResult) :
  decrypt c data = (Decrypted r, c') ->
  41 <= consumed r <= len data
  /\ consumed r <= MAX_PACKET_SIZE + 36
  /\ len (payload r) <= consumed r - 41
  /\ seqIn c' = seqIn c + 1.
Proof.
  intros Hd.
  destruct (decrypt_consumed c c' data r Hd) as (Hr & Hc' & Hw & Hc & Hle & Hpad).
  split; [lia|]. split; [lia|]. split; [|now subst c'].
  rewrite Hc. subst r. unfold decryptedPacket. cbn [payload].
  unfold paddingInvalid in Hpad.
  set (start := Z.of_nat (padOffset c) + 1).
  assert (Hst : 0 <= start) by (unfold start; lia).
  rewrite subarray_Z by lia. unfold len. rewrite length_firstn. lia.
Qed.

(** *** Encrypted packets, in order *)

Lemma skipn_app_exact {A} (a b : list A) (n : nat) :
  n = length a -> skipn n (a ++ b) = b.
Proof. intros ->. now rewrite skipn_app, skipn_all, Nat.sub_diag. Qed.

(** Behind the payload of a packet that the peer's cipher produced lies
    the packet's random padding. *)
Lemma behindPayload_encrypt (rnd : nat -> byte) (p rest : Uint8Array)
  (c s : TransportCipher) :
  mirror c s ->
  1 + len p + calculatePadding (len p) (macEtm c) <= MAX_PACKET_SIZE ->
  behindPayload s (fst (encrypt rnd p c) ++ rest)
  = getRandomValues rnd (Z.to_nat (calculatePadding (len p) (macEtm c))).
Proof.
  intros (Hiv & Hkey & Hmac & Hseq & Hmode) Hmax.
  pose proof (calculatePadding_range (len p) (macEtm c)) as Hpad.
  pose proof (len_nonneg p) as Hp.
  unfold MAX_PACKET_SIZE in Hmax.
  unfold behindPayload. rewrite Hmode, Hkey, Hiv.
  destruct (macEtm c) eqn:Hetm.
  - destruct (encrypt_etm_layout rnd p c Hetm) as (ct & Hct & Hdec & Hout).
    rewrite Hout. set (plen := 1 + len p + calculatePadding (len p) true) in *.
    set (tag := computeHMACSHA256 _ _). rewrite <- !app_assoc.
    rewrite getUint32_writeUint32 by (change (2 ^ 32) with 4294967296; lia).
    cbv zeta.
    replace (subarray (writeUint32 plen ++ ct ++ tag ++ rest) 4 (4 + plen)) with ct
      by (symmetry; apply slice_inner; [reflexivity | now rewrite Hct]).
    destruct (decryptAES128CTR (keyEnc c) (ivEnc c) ct) as [full nextIv].
    cbn [fst] in Hdec. subst full.
    change (nth 0 ([byte.of_Z (calculatePadding (len p) true)] ++ p
                     ++ getRandomValues rnd (Z.to_nat (calculatePadding (len p) true)))
              Byte.x00)
      with (byte.of_Z (calculatePadding (len p) true)).
    rewrite unsigned_of_Z_small by lia.
    replace (plen - 1 - calculatePadding (len p) true) with (len p) by (unfold plen; lia).
    rewrite subarrayFrom_Z by lia. rewrite app_assoc.
    apply skipn_app_exact. rewrite length_app. unfold len. cbn [length]. lia.
  - destruct (encrypt_standard_layout rnd p c Hetm) as (ct & Hct & Hdec & Hout).
    destruct (buildPacket_fields rnd p false ltac:(unfold MAX_PACKET_SIZE; lia))
      as (Hg & Hpb & _).
    pose proof (padded_length_multiple (len p) Hp) as Hmul.
    pose proof (len_buildPacket rnd p false) as Hlr.
    rewrite Hout. set (plen := 1 + len p + calculatePadding (len p) false) in *.
    set (raw := buildPacket rnd p false) in *.
    set (tag := computeHMACSHA256 _ _). rewrite <- !app_assoc.
    assert (H16 : 16 <= 4 + plen).
    { clear - Hmul Hpad Hp. Z.div_mod_to_equations. lia. }
    assert (Hlct : (16 <= length ct)%nat) by (unfold len in Hct; lia).
    assert (Hfb : subarray (ct ++ tag ++ rest) 0 AES_BLOCK_SIZE = firstn 16 ct).
    { rewrite subarray_Z by (unfold AES_BLOCK_SIZE; lia).
      change (Z.to_nat AES_BLOCK_SIZE - Z.to_nat 0)%nat with 16%nat.
      change (Z.to_nat 0) with 0%nat. rewrite skipn_O, firstn_app.
      replace (16 - length ct)%nat with 0%nat by lia.
      cbn [firstn]. now rewrite app_nil_r. }
    rewrite Hfb.
    pose proof (decrypt_first_block (keyEnc c) (ivEnc c) ct Hlct) as Hfirst.
    rewrite Hdec in Hfirst.
    pose proof (decryptAES128CTR_split (keyEnc c) (ivEnc c) (firstn 16 ct) (skipn 16 ct))
      as Hsplit.
    rewrite firstn_skipn in Hsplit.
    destruct (decryptAES128CTR (keyEnc c) (ivEnc c) (firstn 16 ct))
      as [first ivAfterFirst].
    cbn [fst snd] in Hfirst, Hsplit. subst first.
    rewrite getUint32_firstn by lia. rewrite Hg. cbv zeta.
    match goal with
    | |- subarrayFrom ?B _ = _ => assert (Hbuf : B = raw)
    end.
    { destruct (Z.leb_spec (4 + plen) AES_BLOCK_SIZE) as [Hle|Hgt].
      - apply firstn_all2. unfold AES_BLOCK_SIZE in Hle. unfold len in Hlr. lia.
      - unfold AES_BLOCK_SIZE in Hgt.
        assert (Hrest : subarray (ct ++ tag ++ rest) AES_BLOCK_SIZE (4 + plen)
                        = skipn 16 ct).
        { rewrite subarray_Z by (unfold AES_BLOCK_SIZE; lia).
          change (Z.to_nat AES_BLOCK_SIZE) with 16%nat.
          rewrite skipn_app, firstn_app, length_skipn.
          replace (Z.to_nat (4 + plen) - 16 - (length ct - 16))%nat with 0%nat
            by (unfold len in Hct; lia).
          cbn [firstn]. rewrite app_nil_r. apply firstn_all2.
          rewrite length_skipn. unfold len in Hct. lia. }
        rewrite Hrest.
        assert (Hne : skipn 16 ct <> []).
        { intros H. apply (f_equal (@length _)) in H. rewrite length_skipn in H.
          cbn [length] in H. unfold len in Hct. lia. }
        specialize (Hsplit ltac:(rewrite length_firstn; lia) Hne).
        destruct (decryptAES128CTR (keyEnc c) ivAfterFirst (skipn 16 ct)) as [raw' iv'].
        rewrite Hsplit in Hdec. cbn [fst snd] in Hdec.
        unfold concat. cbn [List.concat]. rewrite app_nil_r. exact Hdec. }
    rewrite Hbuf, Hpb.
    replace (plen - 1 - calculatePadding (len p) false) with (len p) by (unfold plen; lia).
    rewrite subarrayFrom_Z by lia. unfold raw, buildPacket. fold plen.
    cbv zeta. fold plen.
    rewrite !app_assoc. apply skipn_app_exact.
    pose proof (len_writeUint32 plen) as Hw.
    rewrite !length_app. unfold len in *. cbn [length]. lia.
Qed.

Lemma drainLoop_step (fuel : nat) (s s' : TransportCipher) (r : DecryptResult)
  (o : SSHConnectionOrchestrator) :
  cipher (connState o) = Some s ->
  decrypt s (encryptedBuf o) = (Decrypted r, s') ->
  drainLoop (S fuel) o
  = match processPayload (payload r) (behindPayload s (encryptedBuf o))
            (set_encryptedBuf (subarrayFrom (encryptedBuf o) (consumed r))
               (set_cipher (Some s') o)) with
    | (Abrupt m, o1) => (Abrupt m, o1)
    | (Normal, o1) => drainLoop fuel o1
    end.
Proof. intros Hc Hd. cbn [drainLoop]. rewrite Hc, Hd. reflexivity. Qed.

Lemma set_draining_id (o : SSHConnectionOrchestrator) (v : bool) :
  draining o = v -> set_draining v o = o.
Proof. intros <-. destruct o. reflexivity. Qed.

(** Encrypted packets are decrypted and dispatched one at a time and in
    order.  When the encrypted buffer starts with a packet that the peer's
    cipher produced, [processEncryptedPackets] takes exactly that packet
    off the buffer, advances the inbound cipher, dispatches the payload as
    a view that has the packet's padding behind it in its buffer, and then
    goes on with the bytes that follow as a call of its own would; a
    handler that fails ends the loop with the drain flag cleared. *)
Theorem encrypted_packets_in_order (rnd : nat -> byte) (p rest : Uint8Array)
  (c s : TransportCipher) (o : SSHConnectionOrchestrator) :
  mirror c s ->
  1 + len p + calculatePadding (len p) (macEtm c) <= MAX_PACKET_SIZE ->
  draining o = false ->
  cipher (connState o) = Some s ->
  encryptedBuf o = fst (encrypt rnd p c) ++ rest ->
  processEncryptedPackets o
  = match processPayload p
            (getRandomValues rnd (Z.to_nat (calculatePadding (len p) (macEtm c))))
            (set_encryptedBuf rest
               (set_cipher (Some (snd (decrypt s (encryptedBuf o))))
                  (set_draining true o))) with
    | (Abrupt m, o1) => (Abrupt m, set_draining false o1)
    | (Normal, o1) => processEncryptedPackets (set_draining false o1)
    end.
Proof.
  intros Hm Hmax Hdr Hc Hbuf.
  set (out := fst (encrypt rnd p c)) in *.
  assert (Hd : decrypt s (encryptedBuf o)
               = (Decrypted (mkParsedPacket p (len out)),
                  snd (decrypt s (encryptedBuf o)))).
  { rewrite Hbuf. unfold out.
    rewrite decrypt_app by (now apply encrypt_not_short).
    now rewrite (decrypt_encrypt_state rnd p c s Hm Hmax). }
  assert (Hlen : 41 <= len out).
  { unfold out. rewrite len_encrypt.
    pose proof (calculatePadding_range (len p) (macEtm c)).
    pose proof (len_nonneg p). lia. }
  set (s' := snd (decrypt s (encryptedBuf o))) in *.
  unfold processEncryptedPackets at 1. rewrite Hdr. cbv zeta.
  rewrite (drainLoop_step _ s s' (mkParsedPacket p (len out)) (set_draining true o) Hc Hd).
  cbn [payload consumed].
  change (encryptedBuf (set_draining true o)) with (encryptedBuf o).
  replace (behindPayload s (encryptedBuf o))
    with (getRandomValues rnd (Z.to_nat (calculatePadding (len p) (macEtm c))))
    by (rewrite Hbuf; unfold out; symmetry; now apply behindPayload_encrypt).
  assert (Hsub : subarrayFrom (encryptedBuf o) (len out) = rest).
  { rewrite Hbuf, subarrayFrom_Z by lia. unfold len.
    rewrite Nat2Z.id, skipn_app, skipn_all, Nat.sub_diag. reflexivity. }
  rewrite Hsub.
  match goal with
  | |- context [processPayload p ?b ?x] =>
      pose proof (sameBuffers_processPayload x p b) as (Hb & _ & Hg & _);
      destruct (processPayload p b x) as [[|m] o1]
  end; [|reflexivity].
  cbn [snd] in Hb, Hg.
  change (encryptedBuf o1 = rest) in Hb. change (draining o1 = true) in Hg.
  unfold processEncryptedPackets. cbv zeta.
  change (draining (set_draining false o1)) with false. cbv iota.
  assert (Ho : set_draining true (set_draining false o1) = o1).
  { rewrite <- (set_draining_id o1 true Hg) at 2. destruct o1. reflexivity. }
  rewrite Ho, Hb.
  rewrite (drainLoop_fuel (length (encryptedBuf o)) (S (length rest)) o1);
    [reflexivity | | rewrite Hb; lia].
  rewrite Hb, Hbuf, length_app. unfold len in Hlen. lia.
Qed.

(** *** What [write] puts on the wire *)

Lemma sendEncrypted_open (payload : Uint8Array) (c : TransportCipher)
  (o : SSHConnectionOrchestrator) :
  cipher (connState o) = Some c -> wsOpen o = true ->
  trace (sendEncrypted payload o)
  = trace o ++ [WsSend (fst (encrypt (entropy (draws o)) payload c))]
  /\ cipher (connState (sendEncrypted payload o))
     = Some (snd (encrypt (entropy (draws o)) payload c)).
Proof.
  intros Hc Hw. unfold sendEncrypted. rewrite Hc. unfold draw.
  destruct (encrypt (entropy (draws o)) payload c) as [ct c'].
  change (wsOpen (set_cipher (Some c') (set_draws (S (draws o)) o))) with (wsOpen o).
  rewrite Hw. split; reflexivity.
Qed.

(** What [write] sends reaches the peer.  Once the shell is requested,
    with the socket open and keys installed, [write] gives the socket
    exactly one frame; a cipher at the other end that mirrors the client's
    decrypts it to a [CHANNEL_DATA] message whose data field, read with
    [readBytes] at offset 5, is the bytes written, and the two ciphers are
    in step for the next frame. *)
Theorem write_reaches_peer (b : Uint8Array) (c s : TransportCipher)
  (o : SSHConnectionOrchestrator) :
  shellSent o = true -> wsOpen o = true -> cipher (connState o) = Some c ->
  mirror c s -> len b <= MAX_PACKET_SIZE - 29 ->
  exists (frame payload : Uint8Array) (c' : TransportCipher),
    trace (api_write b o) = trace o ++ [WsSend frame]
    /\ cipher (connState (api_write b o)) = Some c'
    /\ fst (decrypt s frame) = Decrypted (mkParsedPacket payload (len frame))
    /\ at_ payload 0 = Some SSH_MSG_CHANNEL_DATA
    /\ readBytes payload 5 = Some (mkBytesValue b (4 + len b))
    /\ mirror c' (snd (decrypt s frame)).
Proof.
  intros Hsh Hw Hc Hm Hlen.
  set (id := firstn 4 (peerChannelId o ++ repeat Byte.x00 4)).
  set (payload := concat [[byte.of_Z SSH_MSG_CHANNEL_DATA]; id; writeUint32 (len b); b]).
  assert (Hid : length id = 4%nat).
  { unfold id. rewrite length_firstn, length_app, repeat_length. lia. }
  assert (Hpay : payload = ([byte.of_Z SSH_MSG_CHANNEL_DATA] ++ id) ++ writeBytes b ++ []).
  { unfold payload, concat, writeBytes. cbn [List.concat].
    now rewrite <- !app_assoc. }
  pose proof (len_nonneg b) as Hb.
  assert (Hpl : len payload = 9 + len b).
  { rewrite Hpay, !len_app, len_writeBytes. unfold len at 1 2 4. cbn [length].
    rewrite Hid. lia. }
  pose proof (calculatePadding_range (len payload) (macEtm c)) as Hpad.
  assert (Hmax : 1 + len payload + calculatePadding (len payload) (macEtm c)
                 <= MAX_PACKET_SIZE) by lia.
  destruct (sendEncrypted_open payload c o Hc Hw) as (Ht & Hc').
  exists (fst (encrypt (entropy (draws o)) payload c)), payload,
         (snd (encrypt (entropy (draws o)) payload c)).
  unfold api_write. rewrite Hsh. cbn [negb]. fold id. fold payload.
  split; [exact Ht|]. split; [exact Hc'|].
  rewrite (decrypt_encrypt_state _ payload c s Hm Hmax).
  rewrite (encrypt_state _ payload c s Hm Hmax). cbn [fst snd].
  split; [reflexivity|]. split.
  - rewrite Hpay. reflexivity.
  - split.
    + rewrite Hpay.
      replace 5 with (len ([byte.of_Z SSH_MSG_CHANNEL_DATA] ++ id))
        by (rewrite len_app; unfold len; cbn [length]; rewrite Hid; reflexivity).
      apply readBytes_at. unfold MAX_PACKET_SIZE in Hlen. lia.
    + destruct Hm as (Hiv & Hkey & Hmac & Hseq & Hmode).
      unfold mirror, advanceIn. cbn. repeat split; congruence.
Qed.

(** *** Channel data on its way to the terminal *)

Lemma sendEncrypted_frame (payload : Uint8Array) (o : SSHConnectionOrchestrator) :
  exists frames : list Uint8Array,
    trace (sendEncrypted payload o) = trace o ++ map WsSend frames
    /\ dataBuffer (sendEncrypted payload o) = dataBuffer o
    /\ dataCallback (sendEncrypted payload o) = dataCallback o
    /\ fatalError (sendEncrypted payload o) = fatalError o
    /\ shellSent (sendEncrypted payload o) = shellSent o.
Proof.
  unfold sendEncrypted. destruct (cipher (connState o)) as [c|].
  - unfold draw. destruct (encrypt (entropy (draws o)) payload c) as [ct c'].
    change (wsOpen (set_cipher (Some c') (set_draws (S (draws o)) o))) with (wsOpen o).
    destruct (wsOpen o).
    + exists [ct]. repeat split.
    + exists []. cbn [map]. rewrite app_nil_r. repeat split.
  - exists []. cbn [map]. rewrite app_nil_r. repeat split.
Qed.



Lemma onErrorCalls_frames (frames : list Uint8Array) :
  onErrorCalls (map WsSend frames) = 0%nat.
Proof. induction frames as [|f frames IH]; [reflexivity | exact IH]. Qed.


(** *** A denied terminal request *)

(** A denied PTY request is reported but is not fatal.  On
    [CHANNEL_FAILURE] before the shell request the error callback is
    called once, yet [fatalError] stays as it was, the handler returns
    normally, and the shell is requested all the same: with keys
    installed and the socket open the encrypted shell request is the one
    frame sent. *)
Theorem pty_denied_not_fatal (p behind : Uint8Array) (o : SSHConnectionOrchestrator) :
  at_ p 0 = Some SSH_MSG_CHANNEL_FAILURE -> shellSent o = false ->
  let o' := snd (processPayload p behind o) in
  fst (processPayload p behind o) = Normal
  /\ fatalError o' = fatalError o
  /\ shellSent o' = true
  /\ onErrorCalls (trace o')
     = ((if onError (config o) then 1 else 0) + onErrorCalls (trace o))%nat
  /\ (forall c, cipher (connState o) = Some c -> wsOpen o = true ->
      framesSent (trace o')
      = framesSent (trace o)
          ++ [fst (encrypt (entropy (draws o))
                     (concat [[byte.of_Z SSH_MSG_CHANNEL_REQUEST]; peerChannelId o;
                              writeString "shell"; [byte.of_Z 1]]) c)]).
Proof.
  intros Hp Hs o'.
  set (shellReq := concat [[byte.of_Z SSH_MSG_CHANNEL_REQUEST]; peerChannelId o;
                           writeString "shell"; [byte.of_Z 1]]).
  set (oa := if onError (config o)
             then emit (OnError "PTY request denied — shell may have no prompt or echo. Check cert has permit-pty.") o
             else o).
  set (ob := if onPtyDenied (config oa) then emit OnPtyDenied oa else oa).
  assert (Hr : processPayload p behind o
               = (Normal, set_shellSent true (sendEncrypted shellReq ob))).
  { assert (Hid : peerChannelId ob = peerChannelId o).
    { unfold ob, oa.
      destruct (onError (config o));
        match goal with |- context [onPtyDenied ?x] => destruct (onPtyDenied x) end;
        reflexivity. }
    unfold shellReq. rewrite <- Hid.
    unfold processPayload. rewrite Hp, Hs. reflexivity. }
  unfold o'. rewrite Hr. cbn [fst snd]. clear Hr.
  assert (Hcalls : onErrorCalls (trace ob)
                   = ((if onError (config o) then 1 else 0) + onErrorCalls (trace o))%nat).
  { unfold ob, oa.
    destruct (onError (config o));
      match goal with |- context [onPtyDenied ?x] => destruct (onPtyDenied x) end;
      cbn [trace emit set_trace]; rewrite ?onErrorCalls_app; cbn; lia. }
  assert (Hframes : framesSent (trace ob) = framesSent (trace o)).
  { unfold ob, oa.
    destruct (onError (config o));
      match goal with |- context [onPtyDenied ?x] => destruct (onPtyDenied x) end;
      cbn [trace emit set_trace]; rewrite ?framesSent_app; cbn [framesSent flat_map];
      rewrite ?app_nil_r; reflexivity. }
  assert (Hsame : fatalError ob = fatalError o /\ wsOpen ob = wsOpen o
                  /\ cipher (connState ob) = cipher (connState o)
                  /\ draws ob = draws o).
  { unfold ob, oa.
    destruct (onError (config o));
      match goal with |- context [onPtyDenied ?x] => destruct (onPtyDenied x) end;
      repeat split. }
  destruct Hsame as (Hfe & Hws & Hci & Hdr).
  destruct (sendEncrypted_frame shellReq ob) as (frames & Ht & _ & _ & Hf & _).
  split; [reflexivity|]. split; [|split; [reflexivity|split]].
  - change (fatalError (set_shellSent true (sendEncrypted shellReq ob)))
      with (fatalError (sendEncrypted shellReq ob)).
    now rewrite Hf.
  - change (trace (set_shellSent true (sendEncrypted shellReq ob)))
      with (trace (sendEncrypted shellReq ob)).
    rewrite Ht, onErrorCalls_app, onErrorCalls_frames, Hcalls. lia.
  - intros c Hc Hw.
    change (trace (set_shellSent true (sendEncrypted shellReq ob)))
      with (trace (sendEncrypted shellReq ob)).
    assert (Hc' : cipher (connState ob) = Some c) by (now rewrite Hci).
    assert (Hw' : wsOpen ob = true) by (now rewrite Hws).
    destruct (sendEncrypted_open shellReq c ob Hc' Hw') as (Ht' & _).
    rewrite Ht', framesSent_app, Hframes, Hdr. reflexivity.
Qed.

(** *** Waiting for the identification line *)

Lemma In_slice (a : Uint8Array) (s e : Z) (x : byte) : In x (slice a s e) -> In x a.
Proof.
  unfold slice. cbv zeta. intros H.
  set (n := Z.to_nat (relIndex (len a) s)) in *.
  rewrite <- (firstn_skipn n a). apply in_or_app. right.
  set (m := Z.to_nat _) in H.
  rewrite <- (firstn_skipn m (skipn n a)). apply in_or_app. now left.
Qed.

Lemma byteAt_existsb (a : Uint8Array) (i : nat) (v : Z) :
  byteAt a i v = true -> existsb (fun x => byte.unsigned x =? v) a = true.
Proof.
  unfold byteAt, at_. destruct (nth_error a i) as [x|] eqn:E; [|discriminate].
  cbn [option_map]. intros H. apply existsb_exists. exists x.
  split; [now apply (nth_error_In _ i) | exact H].
Qed.

Lemma findIndex_none (f : nat -> bool) (n : nat) :
  (forall i, f i = false) -> findIndex f n = None.
Proof.
  intros H. unfold findIndex. destruct (find f (seq 0 n)) as [i|] eqn:E; [|reflexivity].
  apply find_some in E. destruct E as [_ E]. now rewrite H in E.
Qed.

Lemma extractServerIdent_no_line_feed (d : Uint8Array) (o : SSHConnectionOrchestrator) :
  existsb (fun x => byte.unsigned x =? 10) (identBuf o ++ d) = false ->
  extractServerIdent d o = (None, set_identBuf (identBuf o ++ d) o).
Proof.
  intros Hno. unfold extractServerIdent.
  replace (concat [identBuf o; d]) with (identBuf o ++ d)
    by (unfold concat; cbn [List.concat]; now rewrite app_nil_r).
  set (combined := identBuf o ++ d) in *. cbv zeta.
  destruct (findIndex _ (length combined)) as [sshStart|]; [|reflexivity].
  set (afterIdent := subarrayFrom combined (Z.of_nat sshStart)).
  assert (Hlf : forall i, byteAt afterIdent i 10 = false).
  { intros i. destruct (byteAt afterIdent i 10) eqn:E; [|reflexivity].
    apply byteAt_existsb in E. apply existsb_exists in E. destruct E as (x & Hin & Hx).
    apply In_slice in Hin.
    assert (Hex : existsb (fun x => byte.unsigned x =? 10) combined = true)
      by (apply existsb_exists; now exists x).
    congruence. }
  rewrite (findIndex_none _ (length afterIdent)).
  - rewrite (findIndex_none _ (length afterIdent) Hlf). reflexivity.
  - intros i. rewrite (Hlf (i + 1)%nat). now rewrite andb_false_r.
Qed.

(** Without a line feed there is no identification.  While no server
    identification is recorded, a chunk that brings no byte 10 to the
    bytes held back so far is only added to them: nothing is parsed,
    nothing is sent, no error is raised, and nothing bounds the buffer. *)
Theorem ident_waits_for_line_feed (d : Uint8Array) (o : SSHConnectionOrchestrator) :
  fatalError o = false -> serverIdent (connState o) = ""%string ->
  existsb (fun x => byte.unsigned x =? 10) (identBuf o ++ d) = false ->
  handleMessage d o = set_identBuf (identBuf o ++ d) o.
Proof.
  intros Hf Hi Hno. unfold handleMessage, handleRawData, identStage.
  rewrite Hf, Hi. cbn [String.eqb].
  now rewrite (extractServerIdent_no_line_feed d o Hno).
Qed.


End Engine.

(** * Sample runs

    The theorems above on concrete inputs, over the stand-in primitives. *)

Module Runs.
Import Sample.

(** The orchestrator's handlers over the stand-in primitives. *)
#[local] Abbreviation onMessage :=
  (handleMessage aesBlock hmacSha256 TextDecoder_decode TextEncoder_encode sha256
    entropy generateDHPrivate generateX25519KeyPair computeX25519SharedSecret
    ed25519Sign DH_PRIME CLIENT_IDENT platformMessage).

#[local] Abbreviation dispatch :=
  (processPayload aesBlock hmacSha256 TextDecoder_decode TextEncoder_encode sha256
    entropy generateDHPrivate generateX25519KeyPair computeX25519SharedSecret
    ed25519Sign DH_PRIME CLIENT_IDENT platformMessage).

(** The packet that [client etm] sends for the one-byte payload [21]. *)
#[local] Abbreviation sent etm :=
  (fst (encrypt aesBlock hmacSha256 rnd [Byte.x15] (client etm))).

(** C1, counterexample: with a whole packet in the buffer, a packet length
    outside [5, MAX_PACKET_SIZE] makes [decrypt] return NeedMore instead of
    throwing: length 0 in the clear in ETM mode, and length 4 after a bit
    flip in the encrypted length field in MtE mode. *)
Lemma invalid_length_is_NeedMore :
  decrypt aesBlock hmacSha256 (server true) (zeros 36) = (NeedMore, server true)
  /\ wirePacketLength aesBlock (server true) (zeros 36) = 0
  /\ ~ bufferTooShort aesBlock (server true) (zeros 36)
  /\ decrypt aesBlock hmacSha256 (server false) (flipBit (sent false) 3 3)
     = (NeedMore, server false)
  /\ wirePacketLength aesBlock (server false) (flipBit (sent false) 3 3) = 4
  /\ ~ bufferTooShort aesBlock (server false) (flipBit (sent false) 3 3).
Proof.
  repeat split; try (vm_compute; reflexivity);
    intros [H|H]; vm_compute in H; discriminate.
Qed.

(** C1, witness: a received MAC that differs from the expected one makes
    [decrypt] throw. *)
Lemma decrypt_NeedMore_iff_witness :
  macMismatch aesBlock hmacSha256 (server true) (flipBit (sent true) 51 0)
  /\ exists e,
       decrypt aesBlock hmacSha256 (server true) (flipBit (sent true) 51 0)
       = (Throws e, server true).
Proof.
  assert (Hm : macMismatch aesBlock hmacSha256 (server true) (flipBit (sent true) 51 0)).
  { intros H. vm_compute in H. discriminate. }
  split; [exact Hm|].
  apply (proj2 (decrypt_NeedMore_iff aesBlock hmacSha256 (server true)
                  (flipBit (sent true) 51 0))).
  - intros [H|H]; vm_compute in H; discriminate.
  - intros [H|H]; vm_compute in H; discriminate.
  - right. exact Hm.
Defined.

(** C2, counterexample: between mirror ciphers, flipping one bit of the
    ciphertext does not always raise MacVerificationError.  In MtE mode a
    flipped bit of the encrypted length field yields NeedMore and a
    flipped bit of the encrypted padding length yields ProtocolError; in
    ETM mode a flipped bit of the length field yields NeedMore. *)
Lemma ciphertext_flip_not_mac_error :
  mirror (client false) (server false)
  /\ decrypt aesBlock hmacSha256 (server false) (flipBit (sent false) 3 3)
     = (NeedMore, server false)
  /\ decrypt aesBlock hmacSha256 (server false) (flipBit (sent false) 4 3)
     = (Throws (ProtocolError "Invalid padding length: 2 (seq=0)"), server false)
  /\ mirror (client true) (server true)
  /\ decrypt aesBlock hmacSha256 (server true) (flipBit (sent true) 3 4)
     = (NeedMore, server true).
Proof. repeat split; vm_compute; reflexivity. Qed.

(** C2, witness: in MtE mode, the last bit of the MAC flipped, and a bit
    of the encrypted payload byte flipped: both raise
    MacVerificationError. *)
Lemma tampered_packet_rejected_witness :
  mirror (client false) (server false)
  /\ 1 + len [Byte.x15] + calculatePadding (len [Byte.x15]) (macEtm (client false))
     <= MAX_PACKET_SIZE
  /\ (exists m,
         decrypt aesBlock hmacSha256 (server false) (flipBit (sent false) 47 0)
         = (Throws (MacVerificationError m), server false))
  /\ authenticatedBytes aesBlock (server false) (flipBit (sent false) 5 0)
     <> authenticatedBytes aesBlock (server false) (sent false)
  /\ (exists m,
         decrypt aesBlock hmacSha256 (server false) (flipBit (sent false) 5 0)
         = (Throws (MacVerificationError m), server false)).
Proof.
  assert (Hm : mirror (client false) (server false)) by (repeat split).
  assert (Hb : 1 + len [Byte.x15] + calculatePadding (len [Byte.x15]) (macEtm (client false))
               <= MAX_PACKET_SIZE) by (vm_compute; discriminate).
  assert (Hlen : length (sent false) = 48%nat) by (vm_compute; reflexivity).
  split; [exact Hm|]. split; [exact Hb|]. split.
  - destruct (tampered_packet_rejected aesBlock hmacSha256 rnd [Byte.x15]
                (client false) (server false) 47 0 Hm Hb) as (Htail & _); [lia|].
    apply Htail. rewrite Hlen. lia.
  - destruct (tampered_packet_rejected aesBlock hmacSha256 rnd [Byte.x15]
                (client false) (server false) 5 0 Hm Hb) as (_ & Hbody & _); [lia|].
    destruct Hbody as [Hne Hthrow].
    + rewrite Hlen. unfold bodyStart. cbn. lia.
    + split; [exact Hne|]. apply Hthrow.
      intros H. vm_compute in H. discriminate.
Defined.

(** C3, counterexample: a DISCONNECT from the server is a fatal condition;
    the orchestrator calls [onError] and sets its flag, and the connection
    state keeps phase [ident_exchange] and no error message. *)
Lemma fatal_leaves_phase :
  fatalError (onMessage disconnectChunk (newOrchestrator cfg true)) = true
  /\ trace (onMessage disconnectChunk (newOrchestrator cfg true))
     = [OnError "Server disconnected: "]
  /\ phase (connState (onMessage disconnectChunk (newOrchestrator cfg true)))
     = ident_exchange
  /\ cs_fatalError (connState (onMessage disconnectChunk (newOrchestrator cfg true)))
     = None.
Proof. repeat split; vm_compute; reflexivity. Qed.

(** C3, witness: the first fatal condition of a fresh orchestrator. *)
Lemma fatal_trap_witness :
  fatalError (newOrchestrator cfg true) = false
  /\ fatalError (setFatal "boom" (newOrchestrator cfg true)) = true
  /\ trace (setFatal "boom" (newOrchestrator cfg true)) = [OnError "boom"]
  /\ onMessage disconnectChunk (setFatal "boom" (newOrchestrator cfg true))
     = setFatal "boom" (newOrchestrator cfg true).
Proof.
  pose proof (fatal_trap aesBlock hmacSha256 TextDecoder_decode TextEncoder_encode
                sha256 entropy generateDHPrivate generateX25519KeyPair
                computeX25519SharedSecret ed25519Sign DH_PRIME CLIENT_IDENT platformMessage
                "boom" (newOrchestrator cfg true) eq_refl eq_refl)
    as (Hf & Ht & _ & _ & Hlater & _ & _).
  split; [reflexivity|]. split; [exact Hf|]. split; [exact Ht|].
  exact (Hlater [Chunk disconnectChunk]).
Defined.

(** C4, witness: the build/parse scenario of the spec. *)
Lemma parsePacket_buildPacket_witness :
  len (map byte.of_Z [20; 1; 2; 3]) <= MAX_PACKET_SIZE - 256
  /\ parsePacket (buildPacket rnd (map byte.of_Z [20; 1; 2; 3]) false)
     = Some (mkParsedPacket (map byte.of_Z [20; 1; 2; 3])
               (len (buildPacket rnd (map byte.of_Z [20; 1; 2; 3]) false))).
Proof.
  assert (H : len (map byte.of_Z [20; 1; 2; 3]) <= MAX_PACKET_SIZE - 256)
    by (vm_compute; discriminate).
  split; [exact H|].
  exact (parsePacket_buildPacket rnd (map byte.of_Z [20; 1; 2; 3]) false H).
Defined.

(** C5, witness: ten bytes are too few, the call returns NeedMore and the
    inbound state stays; a whole valid packet advances [seqIn] by one. *)
Lemma decrypt_NeedMore_frame_witness :
  fst (decrypt aesBlock hmacSha256 (server false) (zeros 10)) = NeedMore
  /\ seqIn (snd (decrypt aesBlock hmacSha256 (server false) (zeros 10)))
     = seqIn (server false)
  /\ ivDec (snd (decrypt aesBlock hmacSha256 (server false) (zeros 10)))
     = ivDec (server false)
  /\ seqIn (snd (decrypt aesBlock hmacSha256 (server false) (sent false)))
     = seqIn (server false) + 1.
Proof.
  assert (Hn : fst (decrypt aesBlock hmacSha256 (server false) (zeros 10)) = NeedMore)
    by reflexivity.
  split; [exact Hn|].
  destruct (proj1 (decrypt_NeedMore_frame aesBlock hmacSha256 (server false) (zeros 10)) Hn)
    as [Hs Hi].
  split; [exact Hs|]. split; [exact Hi|].
  apply (proj2 (decrypt_NeedMore_frame aesBlock hmacSha256 (server false) (sent false))).
  vm_compute. discriminate.
Defined.

(** C6, witness: a DH reply and an ECDH reply, each accepted. *)
Lemma kex_reply_cipher_seq_3_witness :
  (exists c, cipher (connState (snd (dispatch dhReply [] awaitingDH))) = Some c
             /\ seqOut c = 3 /\ seqIn c = 3)
  /\ (exists c, cipher (connState (snd (dispatch ecdhReply [] awaitingECDH))) = Some c
                /\ seqOut c = 3 /\ seqIn c = 3).
Proof.
  split.
  - destruct (kex_reply_cipher_seq_3 aesBlock hmacSha256 TextDecoder_decode
                TextEncoder_encode sha256 entropy generateDHPrivate
                generateX25519KeyPair computeX25519SharedSecret ed25519Sign
                DH_PRIME CLIENT_IDENT platformMessage dhReply [] awaitingDH eq_refl)
      as (c & Hc & Ho & Hi & _).
    + left. eexists. eexists. split; [reflexivity|]. split; [reflexivity|].
      discriminate.
    + exists c. repeat split; assumption.
  - destruct (kex_reply_cipher_seq_3 aesBlock hmacSha256 TextDecoder_decode
                TextEncoder_encode sha256 entropy generateDHPrivate
                generateX25519KeyPair computeX25519SharedSecret ed25519Sign
                DH_PRIME CLIENT_IDENT platformMessage ecdhReply [] awaitingECDH eq_refl)
      as (c & Hc & Ho & Hi & _).
    + right. do 7 eexists. split; [reflexivity|]. split; [reflexivity|].
      split; [reflexivity|]. split; reflexivity.
    + exists c. repeat split; assumption.
Defined.

(** C7, counterexample: each of the three selections succeeds (the kex
    selection with the empty name, which both lists contain), yet
    [negotiateAlgorithms] returns [null]. *)
Lemma negotiate_empty_name :
  selectAlgorithm [""%string] [""%string] = Some ""%string
  /\ selectAlgorithm ["aes128-ctr"%string] ["aes128-ctr"%string]
     = Some "aes128-ctr"%string
  /\ selectAlgorithm ["hmac-sha2-256"%string] ["hmac-sha2-256"%string]
     = Some "hmac-sha2-256"%string
  /\ negotiateAlgorithms [""%string] ["aes128-ctr"%string] ["hmac-sha2-256"%string]
       [""%string] ["aes128-ctr"%string] ["hmac-sha2-256"%string]
     = None.
Proof. repeat split. Qed.

(** C8, witness: the two chunks of the scenario. *)
Lemma server_ident_extracted_witness :
  List.concat [identChunk1; identChunk2] = identStream
  /\ feed aesBlock hmacSha256 TextDecoder_decode TextEncoder_encode sha256 entropy
       generateDHPrivate generateX25519KeyPair computeX25519SharedSecret
       ed25519Sign DH_PRIME CLIENT_IDENT platformMessage [identChunk1; identChunk2]
       (newOrchestrator cfg true)
     = (bytesOf "MORE",
        set_identBuf [] (set_serverIdent "SSH-2.0-server" (newOrchestrator cfg true))).
Proof.
  assert (H : List.concat [identChunk1; identChunk2] = identStream) by reflexivity.
  split; [exact H|].
  exact (proj1 (server_ident_extracted aesBlock hmacSha256 TextDecoder_decode
                  TextEncoder_encode sha256 entropy generateDHPrivate
                  generateX25519KeyPair computeX25519SharedSecret ed25519Sign
                  DH_PRIME CLIENT_IDENT platformMessage (fun bs _ => eq_refl) cfg true
                  [identChunk1; identChunk2] H)).
Defined.

(** C10, witness: a second KEXINIT payload, after a first one was saved. *)
Lemma second_KEXINIT_ignored_witness :
  kexInitS awaitingDH = Some [Byte.x14]
  /\ dispatch (Byte.x14 :: zeros 16) [] awaitingDH = (Normal, awaitingDH).
Proof.
  split; [reflexivity|].
  exact (second_KEXINIT_ignored aesBlock hmacSha256 TextDecoder_decode
           TextEncoder_encode sha256 entropy generateDHPrivate
           generateX25519KeyPair computeX25519SharedSecret ed25519Sign
           DH_PRIME CLIENT_IDENT platformMessage (Byte.x14 :: zeros 16) [] [Byte.x14] awaitingDH
           eq_refl eq_refl).
Defined.


(** ** Sample runs of the mpint encoder *)

(** C9, witness: -256 is written as 256 is, and read back as 256; the
    reply [dhReplyNegative] makes the [KEXDH_REPLY] branch hand -128 and
    -16 to [writeBigintMpint]. *)
Lemma writeBigintMpint_negative_witness :
  -256 < 0
  /\ Z.log2 (- -256) < 2 ^ 32 - 8
  /\ writeBigintMpint (-256) = writeBigintMpint (- -256)
  /\ readMpint (writeBigintMpint (-256)) 0
     = Some (mkBigintValue (- -256) (len (writeBigintMpint (-256))))
  /\ kexDHMpints DH_PRIME 5 7 dhReplyNegative
     = Some (7, -128, modPow (-128) 5 DH_PRIME).
Proof.
  assert (Hn : -256 < 0) by reflexivity.
  assert (Hl : Z.log2 (- -256) < 2 ^ 32 - 8) by (vm_compute; reflexivity).
  destruct (writeBigintMpint_negative TextEncoder_encode sha256 entropy DH_PRIME
              CLIENT_IDENT (-256) Hn Hl) as (H1 & H2 & H3 & _).
  split; [exact Hn|]. split; [exact Hl|]. split; [exact H1|]. split; [exact H2|].
  exact (proj1 (H3 5 7 [Byte.x14] [Byte.x14] dhReplyNegative awaitingDH
                  (mkBytesValue (map byte.of_Z [1; 2; 3]) 7) (mkBigintValue (-128) 5)
                  eq_refl eq_refl)).
Defined.

(** C9, counterexample: a caller passes negative numbers.  The server's
    reply carries the [f] field 80; the dispatcher accepts it, [readMpint]
    returns -128, and the [KEXDH_REPLY] branch hands -128 and
    [k = modPow(-128, 5, DH_PRIME) = -16] to [writeBigintMpint], which
    writes them as 128 and 16. *)
Lemma negative_mpint_passed :
  at_ dhReplyNegative 0 = Some SSH_MSG_KEXDH_REPLY
  /\ dhContext awaitingDH = Some (5, 7, [Byte.x14], [Byte.x14])
  /\ readMpint dhReplyNegative 8 = Some (mkBigintValue (-128) 5)
  /\ kexDHMpints DH_PRIME 5 7 dhReplyNegative = Some (7, -128, -16)
  /\ dispatch dhReplyNegative [] awaitingDH
     = onKexDHReply TextEncoder_encode sha256 entropy DH_PRIME CLIENT_IDENT
         5 7 [Byte.x14] [Byte.x14] dhReplyNegative awaitingDH
  /\ fst (dispatch dhReplyNegative [] awaitingDH) = Normal
  /\ writeBigintMpint (-128) = writeBigintMpint 128
  /\ writeBigintMpint (-16) = writeBigintMpint 16.
Proof. repeat split; vm_compute; reflexivity. Qed.

(** ** Sample runs of the codec, arithmetic and cipher functions *)

(** A byte field between other bytes is read back; six of its seven bytes
    are not enough. *)
Lemma readBytes_writeBytes_witness :
  len (map byte.of_Z [1; 2; 3]) < 2 ^ 32
  /\ readBytes ([Byte.x00] ++ writeBytes (map byte.of_Z [1; 2; 3]) ++ [Byte.xff])
       (len [Byte.x00])
     = Some (mkBytesValue (map byte.of_Z [1; 2; 3])
               (len (writeBytes (map byte.of_Z [1; 2; 3]))))
  /\ readBytes ([Byte.x00] ++ firstn 6 (writeBytes (map byte.of_Z [1; 2; 3])))
       (len [Byte.x00])
     = None.
Proof.
  assert (H : len (map byte.of_Z [1; 2; 3]) < 2 ^ 32) by (vm_compute; reflexivity).
  destruct (readBytes_writeBytes [Byte.x00] (map byte.of_Z [1; 2; 3]) [Byte.xff] 6 H)
    as (H1 & H2).
  split; [exact H|]. split; [exact H1|]. apply H2. cbn. lia.
Defined.

(** The service name of the authentication request is read back. *)
Lemma readString_writeString_witness :
  TextDecoder_decode (TextEncoder_encode "ssh-userauth") = "ssh-userauth"%string
  /\ len (TextEncoder_encode "ssh-userauth") < 2 ^ 32
  /\ readString TextDecoder_decode
       ([Byte.x05] ++ writeString TextEncoder_encode "ssh-userauth" ++ [])
       (len [Byte.x05])
     = Some (mkStringValue "ssh-userauth"
               (len (writeString TextEncoder_encode "ssh-userauth")))
  /\ readString TextDecoder_decode
       ([Byte.x05] ++ firstn 15 (writeString TextEncoder_encode "ssh-userauth"))
       (len [Byte.x05])
     = None.
Proof.
  assert (Hd : TextDecoder_decode (TextEncoder_encode "ssh-userauth")
               = "ssh-userauth"%string) by reflexivity.
  assert (Hl : len (TextEncoder_encode "ssh-userauth") < 2 ^ 32)
    by (vm_compute; reflexivity).
  destruct (readString_writeString TextDecoder_decode TextEncoder_encode
              [Byte.x05] [] "ssh-userauth" 15 Hd Hl) as (H1 & H2).
  split; [exact Hd|]. split; [exact Hl|]. split; [exact H1|]. apply H2. cbn. lia.
Defined.

(** The two bytes ff 00 read as a signed 16-bit number. *)
Lemma bytesToBigint_twos_complement_witness :
  [Byte.xff; Byte.x00] <> []
  /\ - (256 ^ len [Byte.xff; Byte.x00] / 2) <= bytesToBigint [Byte.xff; Byte.x00]
     < 256 ^ len [Byte.xff; Byte.x00] / 2
  /\ bytesToBigint [Byte.xff; Byte.x00] mod 256 ^ len [Byte.xff; Byte.x00]
     = beValue [Byte.xff; Byte.x00].
Proof.
  assert (H : [Byte.xff; Byte.x00] <> []) by discriminate.
  split; [exact H|]. exact (bytesToBigint_twos_complement [Byte.xff; Byte.x00] H).
Defined.

(** 256 is written as the two bytes 01 00. *)
Lemma bigintToBytes_minimal_witness :
  0 <= 256
  /\ beValue (bigintToBytes 256) = 256
  /\ exists b rest, bigintToBytes 256 = b :: rest /\ b <> Byte.x00.
Proof.
  assert (H : 0 <= 256) by lia.
  destruct (bigintToBytes_minimal 256 H) as (Hv & _ & Hp).
  split; [exact H|]. split; [exact Hv|]. apply Hp. lia.
Defined.

(** 255 is written as the byte ff, which reads back as -1. *)
Lemma bytesToBigint_bigintToBytes_witness :
  0 <= 255
  /\ msbSet (bigintToBytes 255) = true
  /\ bytesToBigint (bigintToBytes 255) = 255 - 256 ^ len (bigintToBytes 255)
  /\ bytesToBigint (bigintToBytes 255) < 0.
Proof.
  assert (H : 0 <= 255) by lia.
  assert (Hm : msbSet (bigintToBytes 255) = true) by (vm_compute; reflexivity).
  destruct (bytesToBigint_bigintToBytes 255 H) as (_ & Hneg).
  split; [exact H|]. split; [exact Hm|]. exact (Hneg Hm).
Defined.

(** -256 is written and read back as 256. *)
Lemma readMpint_writeBigintMpint_witness :
  Z.log2 (Z.abs (-256)) < 2 ^ 32 - 8
  /\ readMpint (writeBigintMpint (-256)) 0
     = Some (mkBigintValue (Z.abs (-256)) (len (writeBigintMpint (-256)))).
Proof.
  assert (H : Z.log2 (Z.abs (-256)) < 2 ^ 32 - 8) by (vm_compute; reflexivity).
  split; [exact H|]. exact (readMpint_writeBigintMpint (-256) H).
Defined.

(** A shared secret that starts with a byte above 127. *)
Lemma readMpint_writeByteMpint_witness :
  len [Byte.xff; Byte.x01] < 2 ^ 32 - 1
  /\ readMpint (writeByteMpint [Byte.xff; Byte.x01]) 0
     = Some (mkBigintValue (beValue [Byte.xff; Byte.x01])
               (len (writeByteMpint [Byte.xff; Byte.x01])))
  /\ 0 <= beValue [Byte.xff; Byte.x01].
Proof.
  assert (H : len [Byte.xff; Byte.x01] < 2 ^ 32 - 1) by (vm_compute; reflexivity).
  split; [exact H|]. exact (readMpint_writeByteMpint [Byte.xff; Byte.x01] H).
Defined.

(** A packet followed by the first byte of the next one, and the packet
    with its last byte missing. *)
Lemma parsePacket_framing_witness :
  len (map byte.of_Z [20; 1; 2; 3]) < 2 ^ 32 - 20
  /\ parsePacket (buildPacket rnd (map byte.of_Z [20; 1; 2; 3]) false ++ [Byte.x00])
     = Some (mkParsedPacket (map byte.of_Z [20; 1; 2; 3])
               (len (buildPacket rnd (map byte.of_Z [20; 1; 2; 3]) false)))
  /\ parsePacket (firstn 15 (buildPacket rnd (map byte.of_Z [20; 1; 2; 3]) false))
     = None.
Proof.
  assert (H : len (map byte.of_Z [20; 1; 2; 3]) < 2 ^ 32 - 20)
    by (vm_compute; reflexivity).
  destruct (parsePacket_framing rnd (map byte.of_Z [20; 1; 2; 3]) [Byte.x00] false 15 H)
    as (H1 & H2).
  split; [exact H|]. split; [exact H1|]. apply H2. vm_compute. lia.
Defined.

(** 4^13 modulo 497, and exponent 0. *)
Lemma modPow_spec_witness :
  0 <= 4 /\ 0 < 497
  /\ modPow 4 13 497 = 4 ^ 13 mod 497
  /\ modPow 4 0 497 = 1.
Proof.
  assert (Hb : 0 <= 4) by lia. assert (Hm : 0 < 497) by lia.
  destruct (modPow_spec 4 13 497 Hb Hm) as (Hpos & _).
  destruct (modPow_spec 4 0 497 Hb Hm) as (_ & Hzero).
  split; [exact Hb|]. split; [exact Hm|].
  split; [apply Hpos; lia | apply Hzero; lia].
Defined.

(** The counter of all ones wraps to zero. *)
Lemma incrementCounter_value_witness :
  length (repeat Byte.xff 16) = 16%nat
  /\ 0 <= 1 <= 2 ^ 31 - 256
  /\ length (incrementCounter (repeat Byte.xff 16) 1) = 16%nat
  /\ beValue (incrementCounter (repeat Byte.xff 16) 1)
     = (beValue (repeat Byte.xff 16) + 1) mod 2 ^ 128.
Proof.
  assert (Hl : length (repeat Byte.xff 16) = 16%nat) by reflexivity.
  assert (Hc : 0 <= 1 <= 2 ^ 31 - 256) by (split; vm_compute; discriminate).
  split; [exact Hl|]. split; [exact Hc|].
  exact (incrementCounter_value (repeat Byte.xff 16) 1 Hl Hc).
Defined.

(** One block and one more byte, encrypted in one call and in two. *)
Lemma encryptAES128CTR_chain_witness :
  len (zeros 16) mod AES_BLOCK_SIZE = 0
  /\ encryptAES128CTR aesBlock (key16 2) (key16 1) (zeros 16 ++ [Byte.x01])
     = (fst (encryptAES128CTR aesBlock (key16 2) (key16 1) (zeros 16))
          ++ fst (encryptAES128CTR aesBlock (key16 2)
                    (snd (encryptAES128CTR aesBlock (key16 2) (key16 1) (zeros 16)))
                    [Byte.x01]),
        snd (encryptAES128CTR aesBlock (key16 2)
               (snd (encryptAES128CTR aesBlock (key16 2) (key16 1) (zeros 16)))
               [Byte.x01])).
Proof.
  assert (H : len (zeros 16) mod AES_BLOCK_SIZE = 0) by reflexivity.
  split; [exact H|].
  exact (encryptAES128CTR_chain aesBlock (key16 2) (key16 1) (zeros 16) [Byte.x01] H).
Defined.

(** Seventeen bytes occupy two blocks. *)
Lemma encryptAES128CTR_nextIv_witness :
  length (key16 1) = 16%nat
  /\ len (fst (encryptAES128CTR aesBlock (key16 2) (key16 1) (zeros 17)))
     = len (zeros 17)
  /\ length (snd (encryptAES128CTR aesBlock (key16 2) (key16 1) (zeros 17))) = 16%nat
  /\ beValue (snd (encryptAES128CTR aesBlock (key16 2) (key16 1) (zeros 17)))
     = (beValue (key16 1) + (len (zeros 17) + 15) / 16) mod 2 ^ 128.
Proof.
  assert (H : length (key16 1) = 16%nat) by reflexivity.
  split; [exact H|].
  exact (encryptAES128CTR_nextIv aesBlock (key16 2) (key16 1) (zeros 17) H).
Defined.

(** ** Sample runs of the transport cipher *)

(** A whole packet followed by a byte of the next one. *)
Lemma decrypt_ignores_trailing_witness :
  ~ bufferTooShort aesBlock (server true) (sent true)
  /\ decrypt aesBlock hmacSha256 (server true) (sent true ++ [Byte.x00])
     = decrypt aesBlock hmacSha256 (server true) (sent true).
Proof.
  assert (H : ~ bufferTooShort aesBlock (server true) (sent true))
    by (intros [H|H]; vm_compute in H; discriminate).
  split; [exact H|].
  exact (decrypt_ignores_trailing aesBlock hmacSha256 (server true) (sent true)
           [Byte.x00] H).
Defined.

(** A client packet in MtE mode, followed by three more bytes. *)
Lemma transport_in_sync_witness :
  mirror (client false) (server false)
  /\ 1 + len [Byte.x15] + calculatePadding (len [Byte.x15]) (macEtm (client false))
     <= MAX_PACKET_SIZE
  /\ fst (decrypt aesBlock hmacSha256 (server false) (sent false ++ zeros 3))
     = Decrypted (mkParsedPacket [Byte.x15] (len (sent false)))
  /\ mirror (snd (encrypt aesBlock hmacSha256 rnd [Byte.x15] (client false)))
       (snd (decrypt aesBlock hmacSha256 (server false) (sent false ++ zeros 3))).
Proof.
  assert (Hm : mirror (client false) (server false)) by (repeat split).
  assert (Hb : 1 + len [Byte.x15] + calculatePadding (len [Byte.x15]) (macEtm (client false))
               <= MAX_PACKET_SIZE) by (vm_compute; discriminate).
  destruct (transport_in_sync aesBlock hmacSha256 rnd [Byte.x15] (zeros 3)
              (client false) (server false) Hm Hb) as (H1 & H2 & _).
  split; [exact Hm|]. split; [exact Hb|]. split; [exact H1 | exact H2].
Defined.

(** The packet [sent true] decrypted by the server. *)
Lemma decrypt_progress_witness :
  decrypt aesBlock hmacSha256 (server true) (sent true)
  = (Decrypted (mkParsedPacket [Byte.x15] 52),
     snd (decrypt aesBlock hmacSha256 (server true) (sent true)))
  /\ 41 <= 52 <= len (sent true)
  /\ len [Byte.x15] <= 52 - 41
  /\ seqIn (snd (decrypt aesBlock hmacSha256 (server true) (sent true)))
     = seqIn (server true) + 1.
Proof.
  assert (H : decrypt aesBlock hmacSha256 (server true) (sent true)
              = (Decrypted (mkParsedPacket [Byte.x15] 52),
                 snd (decrypt aesBlock hmacSha256 (server true) (sent true))))
    by (vm_compute; reflexivity).
  destruct (decrypt_progress aesBlock hmacSha256 (server true) _ (sent true) _ H)
    as (H1 & _ & H3 & H4).
  split; [exact H|]. split; [exact H1|]. split; [exact H3 | exact H4].
Defined.

(** ** Sample runs of the orchestrator *)

#[local] Abbreviation run :=
  (perform aesBlock hmacSha256 TextDecoder_decode TextEncoder_encode sha256
    entropy generateDHPrivate generateX25519KeyPair computeX25519SharedSecret
    ed25519Sign DH_PRIME CLIENT_IDENT platformMessage).

#[local] Abbreviation drain :=
  (drainLoop aesBlock hmacSha256 TextDecoder_decode TextEncoder_encode sha256
    entropy generateDHPrivate generateX25519KeyPair computeX25519SharedSecret
    ed25519Sign DH_PRIME CLIENT_IDENT platformMessage).

#[local] Abbreviation plainPackets :=
  (processUnencryptedPackets aesBlock hmacSha256 TextDecoder_decode TextEncoder_encode
    sha256 entropy generateDHPrivate generateX25519KeyPair computeX25519SharedSecret
    ed25519Sign DH_PRIME CLIENT_IDENT platformMessage).

#[local] Abbreviation encryptedPackets :=
  (processEncryptedPackets aesBlock hmacSha256 TextDecoder_decode TextEncoder_encode
    sha256 entropy generateDHPrivate generateX25519KeyPair computeX25519SharedSecret
    ed25519Sign DH_PRIME CLIENT_IDENT platformMessage).

#[local] Abbreviation channelData :=
  (onChannelData aesBlock hmacSha256 TextDecoder_decode entropy).

#[local] Abbreviation write := (api_write aesBlock hmacSha256 entropy).

#[local] Abbreviation onData := (api_onData TextDecoder_decode).

(** An orchestrator with keys installed and the shell requested, and one
    that holds an encrypted IGNORE message of the server in its buffer. *)
#[local] Abbreviation inShell :=
  (set_shellSent true (set_cipher (Some (client true)) (newOrchestrator cfg true))).

#[local] Abbreviation fromServer :=
  (fst (encrypt aesBlock hmacSha256 rnd [Byte.x02] (server true))).

#[local] Abbreviation holding :=
  (set_encryptedBuf (fromServer ++ []) (set_cipher (Some (client true))
     (newOrchestrator cfg true))).

(** An orchestrator that holds an encrypted CHANNEL_OPEN_CONFIRMATION
    message of one byte in its buffer. *)
#[local] Abbreviation fromServerConfirmation :=
  (fst (encrypt aesBlock hmacSha256 rnd [Byte.x5b] (server true))).

#[local] Abbreviation confirming :=
  (set_encryptedBuf (fromServerConfirmation ++ []) (set_cipher (Some (client true))
     (newOrchestrator cfg true))).

(** An orchestrator with keys installed that awaits the answer to its
    terminal request. *)
#[local] Abbreviation awaitingPty :=
  (set_cipher (Some (client true)) (newOrchestrator cfg true)).

(** A channel data message that carries the two bytes of "hi". *)
#[local] Abbreviation hiMessage :=
  ([Byte.x5e; Byte.x00; Byte.x00; Byte.x00; Byte.x00] ++ writeBytes (bytesOf "hi")).

(** With the socket closed, a start, a server chunk, a write and a
    callback registration send nothing. *)
Lemma never_sends_unless_open_witness :
  wsOpen (newOrchestrator cfg false) = false
  /\ framesSent
       (trace (fold_left run [Start; Message disconnectChunk; Write [Byte.x01]; OnData]
                 (newOrchestrator cfg false)))
     = framesSent (trace (newOrchestrator cfg false)).
Proof.
  split; [reflexivity|].
  exact (never_sends_unless_open aesBlock hmacSha256 TextDecoder_decode
           TextEncoder_encode sha256 entropy generateDHPrivate generateX25519KeyPair
           computeX25519SharedSecret ed25519Sign DH_PRIME CLIENT_IDENT platformMessage
           [Start; Message disconnectChunk; Write [Byte.x01]; OnData]
           (newOrchestrator cfg false) eq_refl).
Defined.

(** Sixty rounds on a buffer of one packet do what one round more than
    its bytes do. *)
Lemma drainLoop_terminates_witness :
  (length (encryptedBuf holding) < 60)%nat
  /\ drain 60%nat holding = drain (S (length (encryptedBuf holding))) holding.
Proof.
  assert (H : (length (encryptedBuf holding) < 60)%nat) by (vm_compute; lia).
  split; [exact H|].
  exact (drainLoop_terminates aesBlock hmacSha256 TextDecoder_decode
           TextEncoder_encode sha256 entropy generateDHPrivate generateX25519KeyPair
           computeX25519SharedSecret ed25519Sign DH_PRIME CLIENT_IDENT platformMessage
           60%nat holding H).
Defined.

(** A plain IGNORE message followed by a DISCONNECT message. *)
Lemma plain_packets_in_order_witness :
  len [Byte.x02] < 2 ^ 32 - 20
  /\ plainPackets
       (buildPacket rnd [Byte.x02] false ++ buildPacket rnd [Byte.x01] false)
       (newOrchestrator cfg true)
     = match dispatch [Byte.x02] [] (newOrchestrator cfg true) with
       | (Abrupt m, o1) => (Abrupt m, o1)
       | (Normal, o1) =>
           if useEncrypted o1
           then encryptedPackets
                  (set_encryptedBuf
                     (concat [encryptedBuf o1; buildPacket rnd [Byte.x01] false]) o1)
           else plainPackets (buildPacket rnd [Byte.x01] false) o1
       end.
Proof.
  assert (H : len [Byte.x02] < 2 ^ 32 - 20) by (vm_compute; reflexivity).
  split; [exact H|].
  exact (plain_packets_in_order aesBlock hmacSha256 TextDecoder_decode
           TextEncoder_encode sha256 entropy generateDHPrivate generateX25519KeyPair
           computeX25519SharedSecret ed25519Sign DH_PRIME CLIENT_IDENT platformMessage
           rnd [Byte.x02] (buildPacket rnd [Byte.x01] false) false
           (newOrchestrator cfg true) H).
Defined.

(** The first ten bytes of a plain KEXINIT packet, after the
    identification. *)
Lemma plain_partial_packet_dropped_witness :
  fatalError (set_serverIdent "SSH-2.0-srv" (newOrchestrator cfg true)) = false
  /\ String.eqb
       (serverIdent (connState (set_serverIdent "SSH-2.0-srv" (newOrchestrator cfg true))))
       "" = false
  /\ useEncrypted (set_serverIdent "SSH-2.0-srv" (newOrchestrator cfg true)) = false
  /\ len (map byte.of_Z [20; 1; 2; 3]) < 2 ^ 32 - 20
  /\ Nat.lt 10 (length (buildPacket rnd (map byte.of_Z [20; 1; 2; 3]) false))
  /\ onMessage (firstn 10 (buildPacket rnd (map byte.of_Z [20; 1; 2; 3]) false))
       (set_serverIdent "SSH-2.0-srv" (newOrchestrator cfg true))
     = set_serverIdent "SSH-2.0-srv" (newOrchestrator cfg true).
Proof.
  assert (Hp : len (map byte.of_Z [20; 1; 2; 3]) < 2 ^ 32 - 20)
    by (vm_compute; reflexivity).
  assert (Hk : Nat.lt 10 (length (buildPacket rnd (map byte.of_Z [20; 1; 2; 3]) false)))
    by (vm_compute; lia).
  split; [reflexivity|]. split; [reflexivity|]. split; [reflexivity|].
  split; [exact Hp|]. split; [exact Hk|].
  exact (plain_partial_packet_dropped aesBlock hmacSha256 TextDecoder_decode
           TextEncoder_encode sha256 entropy generateDHPrivate generateX25519KeyPair
           computeX25519SharedSecret ed25519Sign DH_PRIME CLIENT_IDENT platformMessage
           rnd (map byte.of_Z [20; 1; 2; 3]) false 10
           (set_serverIdent "SSH-2.0-srv" (newOrchestrator cfg true))
           eq_refl eq_refl eq_refl Hp Hk).
Defined.

(** An encrypted CHANNEL_OPEN_CONFIRMATION message of one byte in the
    buffer.  The handler reads the channel number from the padding that
    lies behind the payload, returns normally and sends the terminal
    request. *)
Lemma encrypted_packets_in_order_witness :
  mirror (server true) (client true)
  /\ 1 + len [Byte.x5b] + calculatePadding (len [Byte.x5b]) (macEtm (server true))
     <= MAX_PACKET_SIZE
  /\ draining confirming = false
  /\ cipher (connState confirming) = Some (client true)
  /\ encryptedBuf confirming = fromServerConfirmation ++ []
  /\ encryptedPackets confirming
     = match dispatch [Byte.x5b]
               (getRandomValues rnd
                  (Z.to_nat (calculatePadding (len [Byte.x5b]) (macEtm (server true)))))
               (set_encryptedBuf []
                  (set_cipher
                     (Some (snd (decrypt aesBlock hmacSha256 (client true)
                                   (encryptedBuf confirming))))
                     (set_draining true confirming))) with
       | (Abrupt m, o1) => (Abrupt m, set_draining false o1)
       | (Normal, o1) => encryptedPackets (set_draining false o1)
       end
  /\ fst (encryptedPackets confirming) = Normal
  /\ channelId (snd (encryptedPackets confirming))
     = getUint32 (getRandomValues rnd 4) 0
  /\ length (framesSent (trace (snd (encryptedPackets confirming)))) = 1%nat.
Proof.
  assert (Hm : mirror (server true) (client true)) by (repeat split).
  assert (Hb : 1 + len [Byte.x5b] + calculatePadding (len [Byte.x5b]) (macEtm (server true))
               <= MAX_PACKET_SIZE) by (vm_compute; discriminate).
  split; [exact Hm|]. split; [exact Hb|].
  split; [reflexivity|]. split; [reflexivity|]. split; [reflexivity|].
  split; [|repeat split; vm_compute; reflexivity].
  exact (encrypted_packets_in_order aesBlock hmacSha256 TextDecoder_decode
           TextEncoder_encode sha256 entropy generateDHPrivate generateX25519KeyPair
           computeX25519SharedSecret ed25519Sign DH_PRIME CLIENT_IDENT platformMessage
           rnd [Byte.x5b] [] (server true) (client true) confirming
           Hm Hb eq_refl eq_refl eq_refl).
Defined.

(** The two bytes of "ls" written to the shell. *)
Lemma write_reaches_peer_witness :
  shellSent inShell = true /\ wsOpen inShell = true
  /\ cipher (connState inShell) = Some (client true)
  /\ mirror (client true) (server true)
  /\ len (bytesOf "ls") <= MAX_PACKET_SIZE - 29
  /\ exists (frame payload : Uint8Array) (c' : TransportCipher),
       trace (write (bytesOf "ls") inShell) = trace inShell ++ [WsSend frame]
       /\ cipher (connState (write (bytesOf "ls") inShell)) = Some c'
       /\ fst (decrypt aesBlock hmacSha256 (server true) frame)
          = Decrypted (mkParsedPacket payload (len frame))
       /\ at_ payload 0 = Some SSH_MSG_CHANNEL_DATA
       /\ readBytes payload 5 = Some (mkBytesValue (bytesOf "ls") (4 + len (bytesOf "ls")))
       /\ mirror c' (snd (decrypt aesBlock hmacSha256 (server true) frame)).
Proof.
  assert (Hm : mirror (client true) (server true)) by (repeat split).
  assert (Hb : len (bytesOf "ls") <= MAX_PACKET_SIZE - 29) by (vm_compute; discriminate).
  split; [reflexivity|]. split; [reflexivity|]. split; [reflexivity|].
  split; [exact Hm|]. split; [exact Hb|].
  exact (write_reaches_peer aesBlock hmacSha256 entropy (bytesOf "ls")
           (client true) (server true) inShell eq_refl eq_refl eq_refl Hm Hb).
Defined.


(** A CHANNEL_FAILURE message before the shell request, with keys
    installed and the socket open: the error callback is called, the
    orchestrator is not trapped, and the encrypted shell request is the
    one frame sent. *)
Lemma pty_denied_not_fatal_witness :
  at_ [Byte.x64] 0 = Some SSH_MSG_CHANNEL_FAILURE
  /\ shellSent awaitingPty = false
  /\ cipher (connState awaitingPty) = Some (client true)
  /\ wsOpen awaitingPty = true
  /\ fst (dispatch [Byte.x64] [] awaitingPty) = Normal
  /\ fatalError (snd (dispatch [Byte.x64] [] awaitingPty)) = fatalError awaitingPty
  /\ shellSent (snd (dispatch [Byte.x64] [] awaitingPty)) = true
  /\ onErrorCalls (trace (snd (dispatch [Byte.x64] [] awaitingPty)))
     = ((if onError (config awaitingPty) then 1 else 0)
        + onErrorCalls (trace awaitingPty))%nat
  /\ framesSent (trace (snd (dispatch [Byte.x64] [] awaitingPty)))
     = framesSent (trace awaitingPty)
         ++ [fst (encrypt aesBlock hmacSha256 (entropy (draws awaitingPty))
                    (concat [[byte.of_Z SSH_MSG_CHANNEL_REQUEST];
                             peerChannelId awaitingPty;
                             writeString TextEncoder_encode "shell"; [byte.of_Z 1]])
                    (client true))]
  /\ length (framesSent (trace (snd (dispatch [Byte.x64] [] awaitingPty)))) = 1%nat
  /\ onErrorCalls (trace (snd (dispatch [Byte.x64] [] awaitingPty))) = 1%nat.
Proof.
  destruct (pty_denied_not_fatal aesBlock hmacSha256 TextDecoder_decode
              TextEncoder_encode sha256 entropy generateDHPrivate generateX25519KeyPair
              computeX25519SharedSecret ed25519Sign DH_PRIME CLIENT_IDENT platformMessage
              [Byte.x64] [] awaitingPty eq_refl eq_refl)
    as (H1 & H2 & H3 & H4 & H5).
  split; [reflexivity|]. split; [reflexivity|]. split; [reflexivity|].
  split; [reflexivity|].
  split; [exact H1|]. split; [exact H2|]. split; [exact H3|]. split; [exact H4|].
  split; [exact (H5 (client true) eq_refl eq_refl)|].
  split; vm_compute; reflexivity.
Defined.

(** An identification string without its line end. *)
Lemma ident_waits_for_line_feed_witness :
  fatalError (newOrchestrator cfg true) = false
  /\ serverIdent (connState (newOrchestrator cfg true)) = ""%string
  /\ existsb (fun x => byte.unsigned x =? 10)
       (identBuf (newOrchestrator cfg true) ++ bytesOf "SSH-2.0-srv") = false
  /\ onMessage (bytesOf "SSH-2.0-srv") (newOrchestrator cfg true)
     = set_identBuf (identBuf (newOrchestrator cfg true) ++ bytesOf "SSH-2.0-srv")
         (newOrchestrator cfg true).
Proof.
  split; [reflexivity|]. split; [reflexivity|]. split; [reflexivity|].
  exact (ident_waits_for_line_feed aesBlock hmacSha256 TextDecoder_decode
           TextEncoder_encode sha256 entropy generateDHPrivate generateX25519KeyPair
           computeX25519SharedSecret ed25519Sign DH_PRIME CLIENT_IDENT platformMessage
           (bytesOf "SSH-2.0-srv") (newOrchestrator cfg true) eq_refl eq_refl eq_refl).
Defined.
End Runs.
